(** * splitwavepy: the eigenvalue method of Silver and Chan (1991)

    A shallow embedding of [splitwavepy/eigval/eigval.py] and of the
    measurement derivation of [splitwavepy/eigval/eigenM.py].

    Number model.  numpy's float64 values are idealised: a finite value is
    an exact real number ([R]); where the source can produce the IEEE special
    values (a division such as [lam1/lam2], the reductions over its result),
    values live in [xR], the reals extended with [+inf], [-inf] and [nan]
    under the IEEE 754 rules for these special values.  Rounding, overflow
    and the sign of zero are not modelled there; where a statement of the
    specification fails by rounding alone, module [b64] evaluates the
    eigensolver on binary64 numbers.  Integer sample counts are [Z], array
    lengths and indices are [nat].

    Python exceptions are the [Raise] branch of [result]. *)

From Stdlib Require Import Floats.
From Stdlib Require Import Reals Psatz ZArith QArith Qround Lia List.
From stdpp Require Import base option list sorting.

Close Scope Q_scope.
Open Scope general_if_scope.

(** ** Exceptions *)

Inductive pyerr : Type :=
  | IndexError
  | ValueError
  | ZeroDivisionError
  | LinAlgError.

Inductive result (A : Type) : Type :=
  | Ok (a : A)
  | Raise (e : pyerr).
Arguments Ok {A} a.
Arguments Raise {A} e.

#[global] Instance result_ret : MRet result := λ A a, Ok a.
#[global] Instance result_bind : MBind result := λ A B f m,
  match m with
  | Ok a => f a
  | Raise e => Raise e
  end.

#[global] Instance result_fmap : FMap result := λ A B f m,
  match m with
  | Ok a => Ok (f a)
  | Raise e => Raise e
  end.

(** A [for] loop whose body may raise: the state is threaded through the
    iterations and the first exception leaves the loop. *)
Fixpoint for_each {S A : Type} (body : S → A → result S) (l : list A) (s : S)
  : result S :=
  match l with
  | [] => Ok s
  | a :: l' => s' ← body s a; for_each body l' s'
  end.

(** ** Arrays *)

(** [a[i,j]] on a two-dimensional array, with numpy's bounds check. *)
Definition get2 {A} (a : list (list A)) (i j : nat) : result A :=
  match a !! i ≫= (.!! j) with
  | Some v => Ok v
  | None => Raise IndexError
  end.

(** [a[i,j] = v]. *)
Definition set2 {A} (a : list (list A)) (i j : nat) (v : A)
  : result (list (list A)) :=
  match a !! i with
  | Some row =>
      if decide (j < length row)%nat then Ok (<[i := <[j := v]> row]> a)
      else Raise IndexError
  | None => Raise IndexError
  end.

(** [np.zeros((nr, nc))]. *)
Definition zeros (nr nc : nat) : list (list R) := replicate nr (replicate nc 0%R).

(** [np.meshgrid(xs, ys)]: both outputs have [len(ys)] rows and [len(xs)]
    columns; the first repeats [xs] along the rows, the second repeats each
    element of [ys] along its row. *)
Definition meshgrid {A B} (xs : list A) (ys : list B)
  : list (list A) * list (list B) :=
  (replicate (length ys) xs, (λ y, replicate (length xs) y) <$> ys).

(** [np.vstack((ux, uy))]: the two rows must have the same length. *)
Definition vstack (ux uy : list R) : result (list R * list R) :=
  if decide (length ux = length uy) then Ok (ux, uy) else Raise ValueError.

(** [np.sum] of a one-dimensional array of finite values. *)
Definition Rsum (l : list R) : R := foldr Rplus 0%R l.

(** ** Sorting and [np.unique] *)

#[global] Instance Rle_rel_dec : RelDecision Rle := Rle_dec.
#[global] Instance Rle_total : Total Rle.
Proof. intros a b. destruct (Rle_dec a b); [left | right]; lra. Qed.
#[global] Instance Rle_trans : Transitive Rle.
Proof. intros a b c ? ?. lra. Qed.

(** [np.sort] on a one-dimensional array. *)
Definition np_sort (l : list R) : list R := merge_sort Rle l.

(** [np.unique(l)]: the sorted distinct elements. *)
Definition np_unique (l : list Z) : list Z := merge_sort Z.le (remove_dups l).

(** ** Defaults of the grid search ([grideigval], lines 38-55) *)

(** [core.window.Window(nsamps, offset, tukey)]; the class is not part of
    the excerpt, only its constructor call is: a record of the three
    arguments. *)
Record Window : Type := mkWindow {
  width : Z;
  offset : Z;
  tukey : option R
}.

(** [np.linspace(start, stop, num)] in exact arithmetic. *)
Definition linspace (start stop : Q) (num : nat) : list Q :=
  (λ k, (start + inject_Z (Z.of_nat k) * ((stop - start) / inject_Z (Z.of_nat num - 1)))%Q)
    <$> seq 0 num.

(** [np.rint]: round to the nearest integer, ties to the even one. *)
Definition np_rint (q : Q) : Z :=
  let f := Qfloor q in
  match (q - inject_Z f ?= 1 # 2)%Q with
  | Lt => f
  | Gt => f + 1
  | Eq => if Z.even f then f else f + 1
  end.

(** [maxlag = int(x.size / 10)], then made even. *)
Definition maxlag (size : Z) : Z :=
  let m := (size / 10)%Z in
  if (m mod 2 =? 0)%Z then m else (m + 1)%Z.

(** [2 * np.rint(np.linspace(0, 0.5*maxlag, 30))] *)
Definition default_lags_raw (size : Z) : list Z :=
  (λ q, 2 * np_rint q)%Z <$> linspace 0 ((1 # 2) * inject_Z (maxlag size)) 30.

(** [np.unique(lags).astype(int)] *)
Definition default_lags (size : Z) : list Z := np_unique (default_lags_raw size).

(** The delay candidates in the words of the specification: 30 values [t]
    spaced linearly from 0 to [stop], each turned into [2 * round(0.5 * t)],
    then deduplicated. *)
Definition spec_lags (stop : Q) : list Z :=
  np_unique ((λ t, 2 * np_rint ((1 # 2) * t))%Z <$> linspace 0 stop 30).

(** The default the specification states for a trace of [size] samples: the
    values run to [size / 10]. *)
Definition claimed_default_lags (size : Z) : list Z :=
  spec_lags (inject_Z size / inject_Z 10).

(** [np.arange(start, stop, step)] for integers and a positive step. *)
Definition arange (start stop step : Z) : list Z :=
  (λ k, start + Z.of_nat k * step)%Z
    <$> seq 0 (Z.to_nat ((stop - start + step - 1) / step)).

(** [np.arange(-90, 90, stepang)] with [stepang = 3]. *)
Definition default_degs : list Z := arange (-90) 90 3.

(** [Window(nsamps, offset, tukey=None)] with [nsamps = int(x.size/2)] made
    odd and [offset = 0]. *)
Definition default_window (size : Z) : Window :=
  let nsamps := (size / 2)%Z in
  let nsamps := if (nsamps mod 2 =? 1)%Z then nsamps else (nsamps + 1)%Z in
  mkWindow nsamps 0 None.

(** ** The covariance eigensolver ([eigvalcov], lines 19-24) *)

Open Scope R_scope.

Definition mean (l : list R) : R := Rsum l / INR (length l).

Definition center (l : list R) : list R := (λ v, v - mean l) <$> l.

Definition dot (a b : list R) : R := Rsum (zip_with Rmult a b).

(** A 2x2 matrix, by rows. *)
Definition mat2 : Type := (R * R) * (R * R).

(** [np.cov(data)] for a [2 x N] array: rows are variables, columns are
    observations, the normalisation is [N - 1]. *)
Definition np_cov (data : list R * list R) : mat2 :=
  let X := center data.1 in
  let Y := center data.2 in
  let fact := INR (length data.1) - 1 in
  ((dot X X / fact, dot X Y / fact), (dot Y X / fact, dot Y Y / fact)).

(** [np.linalg.eigvals] on a 2x2 matrix (a LAPACK routine, taken by its
    mathematical meaning): the two roots of the characteristic polynomial,
    real whenever the discriminant is not negative, in no particular
    order. *)
Definition eigvals (m : mat2) : list R :=
  let '((a, b), (c, d)) := m in
  let disc := (a - d) * (a - d) + 4 * b * c in
  [(a + d + sqrt disc) / 2; (a + d - sqrt disc) / 2].

(** [np.sort(np.linalg.eigvals(np.cov(data)))] on the [2 x N] array [data].
    With fewer than two observations the normalisation [N - 1] is not
    positive: [np.cov] divides by zero, every entry of the matrix is [nan],
    and [np.linalg.eigvals] refuses it with [LinAlgError]. *)
Definition eigvalcov (data : list R * list R) : result (list R) :=
  if decide (length data.1 < 2)%nat then Raise LinAlgError
  else Ok (np_sort (eigvals (np_cov data))).

(** [l] is an eigenvalue of [m]: a root of its characteristic polynomial. *)
Definition is_eigenvalue (m : mat2) (l : R) : Prop :=
  let '((a, b), (c, d)) := m in
  l * l - (a + d) * l + (a * d - b * c) = 0.

Close Scope R_scope.

(** ** The grid search ([grideigval], lines 27-94) *)

(** The keyword arguments: [None] is an absent key. *)
Record kwargs : Type := mkKwargs {
  kw_lags : option (list Z);
  kw_degs : option (list R);
  kw_window : option Window;
  kw_rcvcorr : option (R * Z);
  kw_srccorr : option (R * Z)
}.

(** What [grideigval] returns: [degs, lags, lam1, lam2, window]. *)
Record grid : Type := mkGrid {
  g_degs : list (list R);
  g_lags : list (list Z);
  g_lam1 : list (list R);
  g_lam2 : list (list R);
  g_window : Window
}.

(** [a, b = v]: unpacking an array of two values. *)
Definition unpack2 (v : list R) : result (R * R) :=
  match v with
  | [a; b] => Ok (a, b)
  | _ => Raise ValueError
  end.

Section GridSearch.

(** The routines of [splitwavepy.core.core], which is not part of the
    excerpt: they are parameters of the search. *)
Variable rotate : list R → list R → R → list R * list R.
Variable lag : list R → list R → Z → list R * list R.
Variable unsplit : list R → list R → R → Z → list R * list R.
Variable chop : list R → list R → Window → list R * list R.

(** Lines 38-55: the defaults stored into [kwargs] when a key is absent. *)
Definition resolve_lags (x : list R) (kw : kwargs) : list Z :=
  default (default_lags (Z.of_nat (length x))) (kw_lags kw).
Definition resolve_degs (kw : kwargs) : list R :=
  default (IZR <$> default_degs) (kw_degs kw).
Definition resolve_window (x : list R) (kw : kwargs) : Window :=
  default (default_window (Z.of_nat (length x))) (kw_window kw).

(** Lines 69-71: the receiver correction, applied before the loops. *)
Definition rcv_correct (x y : list R) (kw : kwargs) : list R * list R :=
  match kw_rcvcorr kw with
  | Some (fast, l) => unsplit x y fast l
  | None => (x, y)
  end.

(** Lines 73-80: the source correction used inside the loops. *)
Definition srccorr (kw : kwargs) (x y : list R) : list R * list R :=
  match kw_srccorr kw with
  | Some (fast, l) => unsplit x y fast l
  | None => (x, y)
  end.

(** Lines 84-92: the body of the inner loop at row [jj], column [ii]. *)
Definition inner_body (kw : kwargs) (window : Window) (lags : list (list Z))
    (tx ty : list R) (ii : nat)
    (s : list (list R) * list (list R)) (jj : nat)
  : result (list (list R) * list (list R)) :=
  let '(lam1, lam2) := s in
  l ← get2 lags jj ii;
  let '(ux, uy) := lag tx ty (- l) in
  let '(ux, uy) := srccorr kw ux uy in
  let '(ux, uy) := chop ux uy window in
  data ← vstack ux uy;
  ev ← eigvalcov data;
  '(v2, v1) ← unpack2 ev;
  lam2 ← set2 lam2 jj ii v2;
  lam1 ← set2 lam1 jj ii v1;
  Ok (lam1, lam2).

(** Lines 82-92: the body of the outer loop at column [ii]. *)
Definition outer_body (kw : kwargs) (window : Window)
    (degs : list (list R)) (lags : list (list Z)) (shape : nat * nat)
    (x y : list R)
    (s : list (list R) * list (list R)) (ii : nat)
  : result (list (list R) * list (list R)) :=
  d ← get2 degs 0 ii;
  let '(tx, ty) := rotate x y d in
  for_each (inner_body kw window lags tx ty ii) (seq 0 shape.1) s.

Definition grideigval (x y : list R) (kw : kwargs) : result grid :=
  let lags_in := resolve_lags x kw in
  let degs_in := resolve_degs kw in
  let window := resolve_window x kw in
  let '(degs, lags) := meshgrid degs_in lags_in in
  let shape := (length lags_in, length degs_in) in
  let lam1 := zeros shape.1 shape.2 in
  let lam2 := zeros shape.1 shape.2 in
  let '(x, y) := rcv_correct x y kw in
  '(lam1, lam2) ← for_each (outer_body kw window degs lags shape x y)
                      (seq 0 shape.2) (lam1, lam2);
  Ok (mkGrid degs lags lam1 lam2 window).

(** The steps of the inner loop before the eigenvalues are measured. *)
Definition unsplit_window (kw : kwargs) (window : Window) (tx ty : list R) (l : Z)
  : list R * list R :=
  let '(ux, uy) := lag tx ty (- l) in
  let '(ux, uy) := srccorr kw ux uy in
  chop ux uy window.

(** The windowed pair of a cell, from the corrected pair [x, y]. *)
Definition rotated_window (kw : kwargs) (window : Window) (x y : list R)
    (d : R) (l : Z) : list R * list R :=
  let '(tx, ty) := rotate x y d in unsplit_window kw window tx ty l.

(** The windowed pair the search looks at for candidate angle [d] and
    candidate delay [l]: the steps of one cell, in the order of the code. *)
Definition cell_window (x y : list R) (kw : kwargs) (d : R) (l : Z)
  : list R * list R :=
  let window := resolve_window x kw in
  let '(x, y) := rcv_correct x y kw in
  let '(tx, ty) := rotate x y d in
  let '(ux, uy) := lag tx ty (- l) in
  let '(ux, uy) := srccorr kw ux uy in
  chop ux uy window.

End GridSearch.

(** ** The routines of [splitwavepy.core.core] *)

Module core.

(** Modelled from the spec: [core.lag], absent from the excerpt.  "Shift the
    two channels relative to each other, positive = impose splitting,
    negative = remove it", with the trimming that [test_lag] of
    [testing/core_tests.py] pins down: [lag(x,y,2)] keeps [x[2:]] and
    [y[:-2]], [lag(x,y,-2)] keeps [x[:-2]] and [y[2:]]. *)
Definition lag (x y : list R) (nsamps : Z) : list R * list R :=
  if (nsamps =? 0)%Z then (x, y)
  else if (0 <? nsamps)%Z then
    (drop (Z.to_nat nsamps) x, take (length y - Z.to_nat nsamps) y)
  else
    (take (length x - Z.to_nat (- nsamps)) x, drop (Z.to_nat (- nsamps)) y).

(** Modelled from the spec: [core.rotate], absent from the excerpt.  "Rotate
    the trace pair into a coordinate frame aligned with that angle"; the
    angle is in degrees. *)
Definition rotate (x y : list R) (degrees : R) : list R * list R :=
  let ang := (degrees * PI / 180)%R in
  (zip_with (λ a b, (cos ang * a + sin ang * b)%R) x y,
   zip_with (λ a b, (- sin ang * a + cos ang * b)%R) x y).

(** Modelled from the spec: [core.unsplit], absent from the excerpt.
    "unsplit(angle, delay) = rotate + negative-lag, composed". *)
Definition unsplit (x y : list R) (degrees : R) (nsamps : Z) : list R * list R :=
  let '(tx, ty) := rotate x y degrees in lag tx ty (- nsamps).

(** Modelled from the spec: [core.chop], absent from the excerpt.  "Truncate
    to window bounds": the [width] samples centred on the middle of the
    trace moved by [offset]. *)
Definition chop1 (x : list R) (window : Window) : list R :=
  let centre := (Z.of_nat (length x) / 2 + offset window)%Z in
  let hw := (width window / 2)%Z in
  take (Z.to_nat (width window)) (drop (Z.to_nat (centre - hw)) x).

(** Modelled from the spec: [core.chop] on a pair, absent from the excerpt:
    both channels are truncated to the same window. *)
Definition chop (x y : list R) (window : Window) : list R * list R :=
  (chop1 x window, chop1 y window).

End core.

(** A small configuration: six samples, two candidate delays, one candidate
    angle and a window of three samples. *)
Definition kw_small : kwargs :=
  mkKwargs (Some [0; 2]%Z) (Some [0%R]) (Some (mkWindow 3 0 None)) None None.
Definition x_small : list R := [1; 2; 3; 4; 5; 6]%R.
Definition y_small : list R := [6; 5; 4; 3; 2; 1]%R.


(** A call that gives no option. *)
Definition kw_none : kwargs := mkKwargs None None None None None.

(** The same configuration without any candidate angle. *)
Definition kw_nodegs : kwargs :=
  mkKwargs (Some [0; 2]%Z) (Some []) (Some (mkWindow 3 0 None)) None None.

(** The same configuration without any candidate delay. *)
Definition kw_nolags : kwargs :=
  mkKwargs (Some []) (Some [0%R]) (Some (mkWindow 3 0 None)) None None.

(** A configuration the specification calls invalid: channels of different
    lengths, a window that does not fit the trace, or an empty list of
    candidates.  (The sampling interval is not an input of [grideigval].) *)
Definition invalid_config (x y : list R) (kw : kwargs) : Prop :=
  length x ≠ length y ∨
  (∃ w, kw_window kw = Some w ∧
        (Z.of_nat (length x) < width w + Z.abs (offset w))%Z) ∨
  kw_lags kw = Some [] ∨
  kw_degs kw = Some [].

(** A windowed pair the eigensolver accepts: two equally long channels of at
    least two samples. *)
Definition measurable (w : list R * list R) : Prop :=
  length w.1 = length w.2 ∧ (2 <= length w.1)%nat.

(** The cell-wise description of an array after [a[jj,ii] = v]. *)
Definition upd (val : nat → nat → R) (jj ii : nat) (v : R) : nat → nat → R :=
  λ j i, if decide (j = jj ∧ i = ii) then v else val j i.

(** [a] is a two-dimensional array of [nr] rows and [nc] columns. *)
Definition has_shape {A} (a : list (list A)) (nr nc : nat) : Prop :=
  length a = nr ∧ Forall (λ row, length row = nc) a.

(** [a[i,j]] as an option. *)
Definition cell {A} (a : list (list A)) (i j : nat) : option A :=
  a !! i ≫= (.!! j).

(** An array described by its shape and by the value of each cell. *)
Definition mat_spec {A} (a : list (list A)) (nr nc : nat) (val : nat → nat → A)
  : Prop :=
  length a = nr ∧
  ∀ i row, a !! i = Some row →
    length row = nc ∧ ∀ j, (j < nc)%nat → row !! j = Some (val i j).

(** ** Extended reals: numpy's special values *)

Inductive xR : Type :=
  | Fin (r : R)
  | PInf
  | NInf
  | NaN.

#[global] Instance R_eq_dec : EqDecision R := Req_dec_T.
#[global] Instance Rlt_rel_dec : RelDecision Rlt := Rlt_dec.

Definition is_nan (a : xR) : bool :=
  match a with NaN => true | _ => false end.

Definition is_finite (a : xR) : Prop := ∃ r, a = Fin r.

(** [+inf] for [true], [-inf] for [false]. *)
Definition xinf (positive : bool) : xR := if positive then PInf else NInf.

Definition xneg (a : xR) : xR :=
  match a with
  | Fin r => Fin (- r)
  | PInf => NInf
  | NInf => PInf
  | NaN => NaN
  end.

Definition xadd (a b : xR) : xR :=
  match a, b with
  | NaN, _ | _, NaN => NaN
  | Fin r, Fin s => Fin (r + s)
  | PInf, NInf | NInf, PInf => NaN
  | PInf, _ | _, PInf => PInf
  | NInf, _ | _, NInf => NInf
  end.

Definition xsub (a b : xR) : xR := xadd a (xneg b).

(** A finite value times an infinity: [0 * inf] is [nan]. *)
Definition xmul_inf (r : R) (positive : bool) : xR :=
  if decide (r = 0%R) then NaN
  else if decide (0 < r)%R then xinf positive else xinf (negb positive).

Definition xmul (a b : xR) : xR :=
  match a, b with
  | NaN, _ | _, NaN => NaN
  | Fin r, Fin s => Fin (r * s)
  | Fin r, PInf | PInf, Fin r => xmul_inf r true
  | Fin r, NInf | NInf, Fin r => xmul_inf r false
  | PInf, PInf | NInf, NInf => PInf
  | PInf, NInf | NInf, PInf => NInf
  end.

(** Division: [0/0] and [inf/inf] are [nan], [r/0] is an infinity of the sign
    of [r], a finite value over an infinity is zero. *)
Definition xdiv (a b : xR) : xR :=
  match a, b with
  | NaN, _ | _, NaN => NaN
  | Fin r, Fin s =>
      if decide (s = 0%R) then
        if decide (r = 0%R) then NaN else xinf (bool_decide (0 < r)%R)
      else Fin (r / s)
  | Fin _, PInf | Fin _, NInf => Fin 0
  | PInf, Fin s => xinf (negb (bool_decide (s < 0)%R))
  | NInf, Fin s => xinf (bool_decide (s < 0)%R)
  | _, _ => NaN
  end.

(** [a < b]; every comparison with [nan] is false. *)
Definition xlt (a b : xR) : Prop :=
  match a, b with
  | NaN, _ | _, NaN => False
  | Fin r, Fin s => (r < s)%R
  | NInf, Fin _ | NInf, PInf | Fin _, PInf => True
  | _, _ => False
  end.

#[global] Instance xlt_dec : RelDecision xlt.
Proof.
  intros [r| | |] [s| | |]; simpl; try apply _.
Defined.

(** [a <= b] on values that are not [nan]. *)
Definition xle (a b : xR) : Prop :=
  match a, b with
  | NaN, _ | _, NaN => False
  | Fin r, Fin s => (r <= s)%R
  | NInf, _ | _, PInf => True
  | _, _ => False
  end.

(** [np.maximum]: [nan] propagates. *)
Definition xmaximum (a b : xR) : xR :=
  match a, b with
  | NaN, _ | _, NaN => NaN
  | _, _ => if decide (xlt a b) then b else a
  end.

(** [np.max] of the flattened array; an empty array has no maximum. *)
Definition np_max (l : list xR) : result xR :=
  match l with
  | [] => Raise ValueError
  | a :: l' => Ok (fold_left xmaximum l' a)
  end.

(** [np.sum] of a one-dimensional array. *)
Definition np_sum (l : list xR) : xR := foldr xadd (Fin 0) l.

(** The number of columns of a two-dimensional array given by its rows.  An
    array without rows is taken to have no columns, which is the case of the
    arrays [grideigval] returns. *)
Definition ncols {A} (a : list (list A)) : nat :=
  match a with
  | [] => 0
  | row :: _ => length row
  end.

(** [np.sum(a, axis=0)]: the sums of the columns. *)
Definition sum_axis0 (a : list (list xR)) : list xR :=
  foldr (zip_with xadd) (replicate (ncols a) (Fin 0)) a.

(** [np.sum(a, axis=1)]: the sums of the rows. *)
Definition sum_axis1 (a : list (list xR)) : list xR := np_sum <$> a.

(** [np.roll(l, k)]: the element of index [i] moves to index [(i + k) mod n]. *)
Definition np_roll {A} (l : list A) (k : nat) : list A :=
  let n := length l in
  drop (n - k mod n) l ++ take (n - k mod n) l.

(** ** The measurement ([EigenM.__init__], lines 87-112, and [ni]) *)

(** An elementwise operation on two surfaces of the same shape. *)
Definition map2d {A B C} (f : A → B → C) (a : list (list A)) (b : list (list B))
  : list (list C) :=
  zip_with (zip_with f) a b.

(** [self.lam1 / self.lam2] *)
Definition ratio (lam1 lam2 : list (list R)) : list (list xR) :=
  map2d (λ u v, xdiv (Fin u) (Fin v)) lam1 lam2.

(** [(self.lam1 - self.lam2) / (2 * self.lam2)] *)
Definition snr_surface (lam1 lam2 : list (list R)) : list (list xR) :=
  map2d (λ u v, xdiv (Fin (u - v)) (Fin (2 * v))) lam1 lam2.

(** Line 112: [self.snr = np.max((self.lam1-self.lam2)/(2*self.lam2))] *)
Definition snr (lam1 lam2 : list (list R)) : result xR :=
  np_max (concat (snr_surface lam1 lam2)).

(** Line 93: [self.fastprofile = np.sum(self.lam1/self.lam2, axis=0)] *)
Definition fastprofile (lam1 lam2 : list (list R)) : list xR :=
  sum_axis0 (ratio lam1 lam2).

(** Line 94: [self.lagprofile = np.sum(self.lam1/self.lam2, axis=1)] *)
Definition lagprofile (lam1 lam2 : list (list R)) : list xR :=
  sum_axis1 (ratio lam1 lam2).

(** [ni(M)], lines 216-225, from [M.degs] and [M.fastprofile]. *)
Definition ni {A} (degs : list (list A)) (profile : list xR) : xR :=
  let halfway := (ncols degs / 2)%nat in
  let diff := zip_with xsub profile (np_roll profile halfway) in
  let mult := zip_with xmul profile (np_roll profile halfway) in
  let sumdiffsq := np_sum ((λ d, xmul d d) <$> diff) in
  let summult := np_sum mult in
  xdiv sumdiffsq summult.

(** The cells of a surface with their indices, in row-major order. *)
Definition indexed {A} (a : list (list A)) : list ((nat * nat) * A) :=
  concat (imap (λ i row, imap (λ j v, ((i, j), v)) row) a).

(** One step of the scan for the optimum: a [nan] is never taken, and a
    later cell replaces the current one only when it is strictly larger. *)
Definition argmax_step {K} (best : option (K * xR)) (kv : K * xR)
  : option (K * xR) :=
  if is_nan kv.2 then best
  else match best with
       | None => Some kv
       | Some b => if decide (xlt b.2 kv.2) then Some kv else best
       end.

(** Modelled from the spec: [core.max_idx], absent from the excerpt.  "The grid
    index maximizing the elementwise ratio; tie-break: first occurrence in
    row-major (delay-major, then angle) scan order", where cells with an
    undefined ratio are "non-competitive (never selected as optimum)".
    Without a competitive cell there is no index to return. *)
Definition max_idx (vals : list (list xR)) : result (nat * nat) :=
  match fold_left argmax_step (indexed vals) None with
  | Some (ij, _) => Ok ij
  | None => Raise ValueError
  end.

(** Lines 89-91: the optimum and the angle and delay reported for it. *)
Definition locate_optimum (degs : list (list R)) (lags : list (list Z))
    (lam1 lam2 : list (list R)) : result (R * Z) :=
  maxloc ← max_idx (ratio lam1 lam2);
  fast ← get2 degs maxloc.1 maxloc.2;
  lag ← get2 lags maxloc.1 maxloc.2;
  Ok (fast, lag).

(** ** The confidence threshold ([ftest], lines 123-134) *)

(** [lam2.min()]: the minimum of the flattened array; an empty array has
    none. *)
Definition np_min (l : list R) : result R :=
  match l with
  | [] => Raise ValueError
  | a :: l' => Ok (fold_left Rmin l' a)
  end.

(** [scipy.stats.f.ppf(q, 2, dfd)]: the quantile of the F distribution with
    [(2, dfd)] degrees of freedom, a library routine taken by its
    mathematical meaning.  With two numerator degrees of freedom the
    distribution function is [1 - (1 + 2x/dfd)^(-dfd/2)], so the quantile is
    [dfd/2 * ((1 - q)^(-2/dfd) - 1)]; scipy returns [nan] for parameters
    outside the domain ([dfd <= 0], or [q] outside [[0, 1]]). *)
Definition f_ppf2 (q dfd : R) : xR :=
  if decide (0 < dfd)%R then
    if decide (0 < q ∧ q < 1)%R then
      Fin (dfd / 2 * (Rpower (1 - q) (- 2 / dfd) - 1))
    else if decide (q = 0%R) then Fin 0
    else if decide (q = 1%R) then PInf
    else NaN
  else NaN.

(** A number handed to [ftest] as [ndf]: a numpy scalar, such as the one
    [eigval.ndf] returns, or a Python number.  The two differ in what a
    division by zero does. *)
Inductive scalar : Type :=
  | NpFloat (v : R)
  | PyFloat (v : R).

Definition scalar_val (s : scalar) : R :=
  match s with NpFloat v | PyFloat v => v end.

(** [k/(ndf-k)] with the Python integer [k]: for a numpy scalar a numpy
    division, where a zero divisor gives an infinity; for a Python number a
    Python division, which raises [ZeroDivisionError]. *)
Definition div_by_ndf (k : R) (ndf : scalar) : result xR :=
  match ndf with
  | NpFloat v => Ok (xdiv (Fin k) (Fin (v - k)))
  | PyFloat v =>
      if decide (v - k = 0)%R then Raise ZeroDivisionError
      else Ok (Fin (k / (v - k)))
  end.

(** [ftest(lam2, ndf, alpha)]. *)
Definition ftest (lam2 : list (list R)) (ndf : scalar) (alpha : R) : result xR :=
  lam2min ← np_min (concat lam2);
  let k := 2%R in
  let F := f_ppf2 (1 - alpha) (scalar_val ndf) in
  c ← div_by_ndf k ndf;
  Ok (xmul (Fin lam2min) (xadd (Fin 1) (xmul c F))).

(** ** The degrees of freedom ([ndf], lines 96-121) *)

(** [a[i] = v] on a one-dimensional array, with numpy's bounds check. *)
Definition set1 {A} (a : list A) (i : nat) (v : A) : result (list A) :=
  if decide (i < length a)%nat then Ok (<[i := v]> a) else Raise IndexError.

(** [a[-1] = v]: the last element; an empty array has none. *)
Definition set_last {A} (a : list A) (v : A) : result (list A) :=
  if decide (length a = 0)%nat then Raise IndexError
  else set1 a (length a - 1) v.

(** The real and the imaginary part of the [k]-th bin of the discrete Fourier
    transform, [Σ_j y_j exp(-2πi jk/n)]. *)
Definition dft_re (y : list R) (k : nat) : R :=
  Rsum (imap (λ j v, v * cos (2 * PI * INR j * INR k / INR (length y)))%R y).
Definition dft_im (y : list R) (k : nat) : R :=
  Rsum (imap (λ j v, - (v * sin (2 * PI * INR j * INR k / INR (length y))))%R y).

(** [np.fft.fft(y)] (a library routine, taken by its mathematical meaning);
    it refuses an empty input. *)
Definition np_fft (y : list R) : result (list (R * R)) :=
  match y with
  | [] => Raise ValueError
  | _ => Ok ((λ k, (dft_re y k, dft_im y k)) <$> seq 0 (length y))
  end.

(** [np.absolute] of a complex number. *)
Definition np_absolute (z : R * R) : R := sqrt (z.1 * z.1 + z.2 * z.2).

Section NDF.

(** [scipy.signal.detrend] and the one-trace form of [core.chop] are
    parameters. *)
Variable detrend : list R → list R.
Variable chop1 : list R → Window → list R.

(** Lines 102-108: the trace the transform is taken of. *)
Definition ndf_input (y : list R) (window : option Window) (detrend_flag : bool)
  : list R :=
  let y := if detrend_flag then detrend y else y in
  match window with
  | Some w => chop1 y w
  | None => y
  end.

Definition ndf (y : list R) (window : option Window) (detrend_flag : bool)
  : result xR :=
  let y := ndf_input y window detrend_flag in
  Y ← np_fft y;
  let amp := np_absolute <$> Y in
  let a := replicate (length Y) 1%R in
  a ← set1 a 0 (1 / 2)%R;
  a ← set_last a (1 / 2)%R;
  let E2 := Rsum (zip_with Rmult a ((λ v, v ^ 2)%R <$> amp)) in
  let E4 := Rsum (zip_with Rmult ((λ w, 4 * w ^ 2 / 3)%R <$> a)
                                 ((λ v, v ^ 4)%R <$> amp)) in
  Ok (xmul (Fin 2) (xsub (xdiv (Fin (2 * E2 ^ 2)) (Fin E4)) (Fin 1))).

End NDF.

(** The weight of bin [k] among [n]: one half at both ends. *)
Definition bin_weight (n k : nat) : R :=
  if decide (k = 0 ∨ k = n - 1)%nat then (1 / 2)%R else 1%R.

(** The squared amplitude of bin [k]. *)
Definition bin_power (y : list R) (k : nat) : R :=
  (dft_re y k * dft_re y k + dft_im y k * dft_im y k)%R.


(** ** The eigensolver on binary64 numbers *)

Module b64.

(** [data.sum(axis=1)] and the number of observations, as binary64
    numbers. *)
Definition sum (l : list float) : float := fold_left PrimFloat.add l 0%float.
Definition count (l : list float) : float :=
  fold_left (λ n _, n + 1)%float l 0%float.

Definition mean (l : list float) : float := (sum l / count l)%float.
Definition center (l : list float) : list float := (λ v, v - mean l)%float <$> l.
Definition dot (a b : list float) : float := sum (zip_with PrimFloat.mul a b).

(** [np.cov(data)]: the products of the centred rows, multiplied by the
    reciprocal [1 / (N - 1)] as numpy does ([c *= np.true_divide(1, fact)]).
    numpy leaves the additions inside the products to the BLAS library,
    whose order (and use of fused operations) is not fixed; the order written
    here is from left to right.  The sign of an eigenvalue of rounding size
    can depend on that order, so the module is used on an input whose
    covariance matrix is computed without any rounding. *)
Definition np_cov (data : list float * list float)
  : (float * float) * (float * float) :=
  let X := center data.1 in
  let Y := center data.2 in
  let r := (1 / (count data.1 - 1))%float in
  ((dot X X * r, dot X Y * r), (dot Y X * r, dot Y Y * r))%float.

(** Fortran's [SIGN(a, p)]: the magnitude of [a] with the sign of [p]. *)
Definition sign (a p : float) : float :=
  if (p <? 0)%float then (- PrimFloat.abs a)%float else PrimFloat.abs a.

Definition fmax (a b : float) : float := if (a <? b)%float then b else a.
Definition fmin (a b : float) : float := if (a <? b)%float then a else b.

(** [np.linalg.eigvals] on a 2x2 matrix is LAPACK's [dgeev].  For a
    symmetric matrix with entries of ordinary size and an off-diagonal entry
    that is not negligible, [dgeev] neither rescales nor balances, its QR
    routine [dlahqr] does not deflate, and the matrix goes to [dlanv2], which
    computes the two eigenvalues by the formulas below, operation by
    operation (the branch for two real eigenvalues).  The model gives [None]
    outside that case: an off-diagonal entry that is not symmetric or is
    within one unit in the last place of the diagonal, entries beyond
    [2^-459 .. 2^459], or a discriminant below [4 * 2^-52]. *)
Definition eigvals (m : (float * float) * (float * float)) : option (list float) :=
  let '((a, b), (c, d)) := m in
  let anrm := fmax (fmax (PrimFloat.abs a) (PrimFloat.abs b))
                   (fmax (PrimFloat.abs c) (PrimFloat.abs d)) in
  if negb (b =? c)%float
     || (PrimFloat.abs c <=? 0x1p-52 * (PrimFloat.abs a + PrimFloat.abs d))%float
     || negb ((0x1p-459 <=? anrm)%float && (anrm <=? 0x1p459)%float)
  then None
  else
    let p := (0.5 * (a - d))%float in
    let bcmax := fmax (PrimFloat.abs b) (PrimFloat.abs c) in
    let bcmis := (fmin (PrimFloat.abs b) (PrimFloat.abs c) * sign 1 b * sign 1 c)%float in
    let scale := fmax (PrimFloat.abs p) bcmax in
    let z := ((p / scale) * p + (bcmax / scale) * bcmis)%float in
    if (z <? 4 * 0x1p-52)%float then None
    else
      let z := (p + sign (PrimFloat.sqrt scale * PrimFloat.sqrt z) p)%float in
      Some [(d + z)%float; (d - (bcmax / z) * bcmis)%float].

(** [np.sort] on two numbers. *)
Definition np_sort (l : list float) : list float :=
  match l with
  | [u; v] => if (v <? u)%float then [v; u] else [u; v]
  | _ => l
  end.

Definition eigvalcov (data : list float * list float) : option (list float) :=
  np_sort <$> eigvals (np_cov data).

End b64.

(** ** The candidate delays of a measurement ([EigenM.__init__], lines 43-46
    and 84) *)

(** Lines 45-46: [lags = np.unique(2 * np.rint(0.5 * tlags / delta)).astype(int)],
    the candidate delays in samples ("round to nearest 2"). *)
Definition lags_from_tlags (tlags : list Q) (delta : Q) : list Z :=
  np_unique ((λ t, 2 * np_rint ((1 # 2) * t / delta))%Z <$> tlags).

(** Line 84: [self.tlags = self.lags * self.delta] on one delay. *)
Definition tlag_of_lag (l : Z) (delta : Q) : Q := (inject_Z l * delta)%Q.

(** The two moments of the amplitude spectrum [ndf] forms, by bins:
    [E2 = Σ a |Y|²] and [E4 = Σ (4 a² / 3) |Y|⁴]. *)
Definition spectral_E2 (y : list R) : R :=
  Rsum ((λ k, bin_weight (length y) k * bin_power y k)%R <$> seq 0 (length y)).
Definition spectral_E4 (y : list R) : R :=
  Rsum ((λ k, 4 * bin_weight (length y) k ^ 2 / 3
              * (bin_power y k * bin_power y k))%R <$> seq 0 (length y)).

(** The weighted power of bin [k]. *)
Definition weighted_power (y : list R) (k : nat) : R :=
  (bin_weight (length y) k * bin_power y k)%R.

(** ** The polar surface ([EigenM.plotsurf], lines 135-145) *)

(** [a[:,0]]: the first column; an array without columns has none. *)
Definition col0 {A} (a : list (list A)) : result (list A) :=
  match a with
  | [] => Raise IndexError
  | _ =>
      foldr (λ row acc,
               match row with
               | [] => Raise IndexError
               | v :: _ => l ← acc; Ok (v :: l)
               end) (Ok []) a
  end.

(** [np.column_stack((a, b, c))] for two-dimensional [a], [b] and
    one-dimensional [c], which becomes the last column; the numbers of rows
    must agree. *)
Definition column_stack3 {A} (a b : list (list A)) (c : list A)
  : result (list (list A)) :=
  if decide (length a = length b ∧ length b = length c)
  then Ok (zip_with (λ r x, r ++ [x]) (zip_with app a b) c)
  else Raise ValueError.

Definition deg2rad (d : R) : R := (d * (PI / 180))%R.

(** Line 136: [np.deg2rad(np.column_stack((degs, degs+180, degs[:,0]+360)))] *)
Definition polar_rads (degs : list (list R)) : result (list (list R)) :=
  c ← col0 degs;
  s ← column_stack3 degs (fmap (M:=list) (λ d, d + 180)%R <$> degs)
                    (fmap (M:=list) (λ d, d + 360)%R c);
  Ok (fmap (M:=list) (fmap (M:=list) deg2rad) s).

(** Lines 137, 138 and 144: [np.column_stack((a, a, a[:,0]))] *)
Definition polar_stack {A} (a : list (list A)) : result (list (list A)) :=
  c ← col0 a;
  column_stack3 a a c.
(** * Properties *)

(** ** Loops and arrays *)

Lemma for_each_app {S A} (body : S → A → result S) l1 l2 s :
  for_each body (l1 ++ l2) s = s' ← for_each body l1 s; for_each body l2 s'.
Proof.
  revert s. induction l1 as [|a l1 IH]; intros s; simpl; [done|].
  destruct (body s a) as [s'|e]; simpl; [apply IH | done].
Qed.

(** The loop rule: an invariant indexed by the iteration count. *)
Lemma for_each_seq_inv {S} (body : S → nat → result S) (I : nat → S → Prop) n s :
  I 0%nat s →
  (∀ k t, (k < n)%nat → I k t → ∃ t', body t k = Ok t' ∧ I (Datatypes.S k) t') →
  ∃ t, for_each body (seq 0 n) s = Ok t ∧ I n t.
Proof.
  intros H0 Hstep. induction n as [|n IH].
  - exists s. by split.
  - destruct IH as (t & Ht & HI).
    { intros k u Hk. apply Hstep. lia. }
    destruct (Hstep n t) as (t' & Hb & HI'); [lia | done |].
    exists t'. split; [|done].
    rewrite seq_S, for_each_app, Ht. simpl. by rewrite Hb.
Qed.

Lemma for_each_snoc {S A} (body : S → A → result S) l a s t :
  for_each body (l ++ [a]) s = Ok t →
  ∃ t0, for_each body l s = Ok t0 ∧ body t0 a = Ok t.
Proof.
  rewrite for_each_app. destruct (for_each body l s) as [t0|e]; [|done].
  cbn [mbind result_bind for_each]. intros H. exists t0. split; [done|].
  by destruct (body t0 a).
Qed.

(** The loop rule for a loop whose body may raise: either every iteration
    returned, keeping the invariant [I] and establishing [P] of its index, or
    the loop raised what its body raised at some iteration, from a state that
    satisfies the invariant. *)
Lemma for_each_seq_cases {S} (body : S → nat → result S) (I : S → Prop)
    (P : nat → Prop) n s :
  I s →
  (∀ k t t', (k < n)%nat → I t → body t k = Ok t' → I t' ∧ P k) →
  (∃ t, for_each body (seq 0 n) s = Ok t ∧ I t ∧ ∀ k, (k < n)%nat → P k) ∨
  (∃ k t e, (k < n)%nat ∧ I t ∧ body t k = Raise e ∧
            for_each body (seq 0 n) s = Raise e).
Proof.
  intros H0 Hstep. induction n as [|n IH].
  - left. exists s. split; [done|]. split; [done|]. intros k Hk. lia.
  - rewrite seq_S, for_each_app.
    destruct IH as [(t & Hrun & Ht & Hall)|(k & t & e & Hk & Ht & Hb & Hrun)].
    { intros k u u' Hk. apply Hstep. lia. }
    + rewrite Hrun. cbn [mbind result_bind for_each Nat.add].
      destruct (body t n) as [t'|e] eqn:Hb.
      * left. destruct (Hstep n t t') as [Ht' Hn]; [lia | done | done |].
        exists t'. split; [done|]. split; [done|].
        intros k Hk. destruct (decide (k = n)) as [->|Hne]; [done|].
        apply Hall. lia.
      * right. exists n, t, e. split; [lia|]. done.
    + right. exists k, t, e. rewrite Hrun. split; [lia|]. done.
Qed.


Lemma mat_spec_cell {A} (a : list (list A)) nr nc val i j :
  mat_spec a nr nc val → (i < nr)%nat → (j < nc)%nat → cell a i j = Some (val i j).
Proof.
  intros [Hl Hr] Hi Hj. unfold cell.
  destruct (lookup_lt_is_Some_2 a i) as [row Hrow]; [lia|].
  rewrite Hrow. simpl. by apply (Hr i row Hrow).
Qed.

Lemma mat_spec_shape {A} (a : list (list A)) nr nc val :
  mat_spec a nr nc val → has_shape a nr nc.
Proof.
  intros [Hl Hr]. split; [done|].
  apply Forall_lookup. intros i row Hrow. by apply (Hr i row).
Qed.

Lemma mat_spec_ext {A} (a : list (list A)) nr nc val val' :
  mat_spec a nr nc val →
  (∀ i j, (i < nr)%nat → (j < nc)%nat → val i j = val' i j) →
  mat_spec a nr nc val'.
Proof.
  intros [Hl Hr] He. split; [done|]. intros i row Hrow.
  destruct (Hr i row Hrow) as [Hlen Hv]. split; [done|].
  intros j Hj. rewrite Hv by done. f_equal. apply He; [|done].
  rewrite <- Hl. by eapply lookup_lt_Some.
Qed.

Lemma zeros_spec nr nc : mat_spec (zeros nr nc) nr nc (λ _ _, 0%R).
Proof.
  split; [apply length_replicate|].
  intros i row [-> _]%lookup_replicate. split; [apply length_replicate|].
  intros j Hj. by apply lookup_replicate_2.
Qed.

Lemma set2_spec {A} (a : list (list A)) nr nc val i j v :
  mat_spec a nr nc val → (i < nr)%nat → (j < nc)%nat →
  ∃ a', set2 a i j v = Ok a' ∧
        mat_spec a' nr nc (λ i' j', if decide (i' = i ∧ j' = j) then v else val i' j').
Proof.
  intros [Hl Hr] Hi Hj. unfold set2.
  destruct (lookup_lt_is_Some_2 a i) as [row Hrow]; [lia|].
  rewrite Hrow. destruct (Hr i row Hrow) as [Hlen Hv].
  rewrite decide_True by lia. eexists. split; [done|].
  split; [by rewrite length_insert|].
  intros i' row' Hrow'. destruct (decide (i' = i)) as [->|Hne].
  - rewrite list_lookup_insert_eq in Hrow' by lia. injection Hrow' as <-.
    split; [by rewrite length_insert|]. intros j' Hj'.
    destruct (decide (j' = j)) as [->|Hnj].
    + rewrite decide_True by done. apply list_lookup_insert_eq. lia.
    + rewrite decide_False by tauto. rewrite list_lookup_insert_ne by done.
      by apply Hv.
  - rewrite list_lookup_insert_ne in Hrow' by done.
    destruct (Hr i' row' Hrow') as [Hlen' Hv']. split; [done|].
    intros j' Hj'. rewrite decide_False by tauto. by apply Hv'.
Qed.

Lemma lookup_nth_lt {A} (l : list A) i d :
  (i < length l)%nat → l !! i = Some (nth i l d).
Proof. intros Hi. destruct (nth_lookup_or_length l i d); [done | lia]. Qed.

Lemma meshgrid_spec {A B} (xs : list A) (ys : list B) (dx : A) (dy : B) :
  mat_spec (meshgrid xs ys).1 (length ys) (length xs) (λ _ j, nth j xs dx) ∧
  mat_spec (meshgrid xs ys).2 (length ys) (length xs) (λ i _, nth i ys dy).
Proof.
  unfold meshgrid. simpl. split.
  - split; [apply length_replicate|].
    intros i row [-> _]%lookup_replicate. split; [done|].
    intros j Hj. by apply lookup_nth_lt.
  - split; [by rewrite length_fmap|].
    intros i row Hrow. rewrite list_lookup_fmap in Hrow.
    destruct (ys !! i) as [y|] eqn:Hy; [|done]. injection Hrow as <-.
    split; [apply length_replicate|]. intros j Hj.
    rewrite lookup_replicate_2 by done. f_equal. symmetry.
    by apply nth_lookup_Some.
Qed.

Lemma has_shape_mat_spec {A} (a : list (list A)) nr nc (d : A) :
  has_shape a nr nc →
  mat_spec a nr nc (λ i j, default d (cell a i j)).
Proof.
  intros [Hl Hr]. split; [done|]. intros i row Hrow.
  rewrite Forall_lookup in Hr. pose proof (Hr i row Hrow) as Hlen.
  split; [done|]. intros j Hj. unfold cell. rewrite Hrow. simpl.
  destruct (lookup_lt_is_Some_2 row j) as [v Hv]; [lia|]. by rewrite Hv.
Qed.


(** ** The covariance eigensolver *)

Lemma np_sort_two (a b : R) : np_sort [a; b] = [Rmin a b; Rmax a b].
Proof.
  unfold np_sort.
  pose proof (merge_sort_Permutation Rle [a; b]) as Hp.
  pose proof (Sorted_merge_sort Rle [a; b]) as Hs.
  symmetry in Hp. apply Permutation_length_2_inv in Hp.
  destruct Hp as [Hp|Hp]; rewrite Hp in *;
    apply Sorted_inv in Hs as [_ Hs]; apply HdRel_inv in Hs.
  - rewrite Rmin_left, Rmax_right; done.
  - rewrite Rmin_right, Rmax_left; done.
Qed.

(** The values [eigvalcov] returns when it returns. *)
Local Abbreviation eigs data := (np_sort (eigvals (np_cov data))).

Lemma eigs_length data : ∃ v2 v1, eigs data = [v2; v1] ∧ (v2 <= v1)%R.
Proof.
  unfold eigvals. destruct (np_cov data) as [[a b] [c d]].
  rewrite np_sort_two. eexists _, _. split; [done|].
  pose proof (Rmin_l ((a + d + sqrt ((a - d) * (a - d) + 4 * b * c)) / 2)
                     ((a + d - sqrt ((a - d) * (a - d) + 4 * b * c)) / 2)).
  pose proof (Rmax_l ((a + d + sqrt ((a - d) * (a - d) + 4 * b * c)) / 2)
                     ((a + d - sqrt ((a - d) * (a - d) + 4 * b * c)) / 2)).
  lra.
Qed.

Lemma eigvalcov_ok data :
  (2 <= length data.1)%nat → eigvalcov data = Ok (eigs data).
Proof. intros HN. unfold eigvalcov. by rewrite decide_False by lia. Qed.

Lemma eigvalcov_short data :
  (length data.1 < 2)%nat → eigvalcov data = Raise LinAlgError.
Proof. intros HN. unfold eigvalcov. by rewrite decide_True by lia. Qed.


Section CauchySchwarz.
Open Scope R_scope.

Lemma Rsum_nonneg (l : list R) : Forall (λ v, 0 <= v) l → 0 <= Rsum l.
Proof.
  induction 1 as [|v l Hv _ IH]; simpl; lra.
Qed.

Lemma dot_self_nonneg (X : list R) : 0 <= dot X X.
Proof.
  unfold dot. induction X as [|x X IH]; simpl; [lra|].
  pose proof (Rle_0_sqr x) as Hx. unfold Rsqr in Hx. lra.
Qed.

Lemma dot_comm (X Y : list R) : dot X Y = dot Y X.
Proof.
  unfold dot. revert Y. induction X as [|x X IH]; intros [|y Y]; simpl; try done.
  rewrite IH. lra.
Qed.

(** The quadratic [t ↦ Σ (x t + y)²] written by its coefficients. *)
Lemma quadratic_form_nonneg (X Y : list R) (t : R) :
  length X = length Y →
  0 <= dot X X * (t * t) + 2 * dot X Y * t + dot Y Y.
Proof.
  unfold dot. revert Y. induction X as [|x X IH]; intros [|y Y] Hl;
    simpl in *; try done; [lra|].
  specialize (IH Y ltac:(lia)).
  pose proof (Rle_0_sqr (x * t + y)) as Hx. unfold Rsqr in Hx. lra.
Qed.

Lemma cauchy_schwarz (X Y : list R) :
  length X = length Y → dot X Y * dot X Y <= dot X X * dot Y Y.
Proof.
  intros Hl.
  pose proof (dot_self_nonneg X) as HA.
  pose proof (dot_self_nonneg Y) as HC.
  set (A := dot X X) in *. set (B := dot X Y). set (C := dot Y Y) in *.
  destruct (Req_dec A 0) as [HA0|HA0].
  - (* a linear function bounded below is constant *)
    destruct (Req_dec B 0) as [->|HB]; [rewrite HA0; lra|].
    pose proof (quadratic_form_nonneg X Y (- (C + 1) / (2 * B)) Hl) as Hq.
    fold A B C in Hq. rewrite HA0 in Hq.
    replace (2 * B * (- (C + 1) / (2 * B))) with (- (C + 1)) in Hq
      by (field; done).
    lra.
  - pose proof (quadratic_form_nonneg X Y (- B / A) Hl) as Hq.
    fold A B C in Hq.
    replace (A * (- B / A * (- B / A)) + 2 * B * (- B / A) + C)
      with ((A * C - B * B) / A) in Hq by (field; done).
    assert (0 < A) as HApos by lra.
    apply (Rmult_le_compat_r A) in Hq; [|lra].
    replace ((A * C - B * B) / A * A) with (A * C - B * B) in Hq
      by (field; done).
    lra.
Qed.

(** The eigenvalues of a symmetric 2x2 matrix with non-negative diagonal
    and determinant, as [eigvals] and [np.sort] give them. *)
Lemma sorted_eigvals_psd (a b d : R) :
  0 <= a → 0 <= d → b * b <= a * d →
  ∃ l2 l1, np_sort (eigvals ((a, b), (b, d))) = [l2; l1] ∧
    0 <= l2 ∧ l2 <= l1 ∧
    is_eigenvalue ((a, b), (b, d)) l2 ∧ is_eigenvalue ((a, b), (b, d)) l1 ∧
    l1 + l2 = a + d ∧ l1 * l2 = a * d - b * b.
Proof.
  intros Ha Hd Hdet. unfold eigvals.
  set (disc := (a - d) * (a - d) + 4 * b * b).
  assert (0 <= disc) as Hdisc.
  { pose proof (Rle_0_sqr (a - d)) as H1. pose proof (Rle_0_sqr b) as H2.
    unfold Rsqr, disc in *. lra. }
  pose proof (sqrt_pos disc) as HS.
  pose proof (sqrt_sqrt disc Hdisc) as HSS.
  set (s := sqrt disc) in *.
  assert (s <= a + d) as Hle.
  { destruct (Rle_dec s (a + d)) as [|Hn]; [done|].
    assert ((a + d) * (a + d) < s * s) by nra. unfold disc in HSS. nra. }
  rewrite np_sort_two.
  rewrite Rmin_right, Rmax_left by lra.
  eexists _, _. split; [done|].
  unfold is_eigenvalue.
  assert (s * s = (a + d) * (a + d) - 4 * (a * d - b * b)) as Hs2
    by (rewrite HSS; unfold disc; ring).
  repeat split; lra.
Qed.

Lemma np_cov_psd (x y : list R) :
  length x = length y → (2 <= length x)%nat →
  ∃ a b d, np_cov (x, y) = ((a, b), (b, d)) ∧ 0 <= a ∧ 0 <= d ∧ b * b <= a * d.
Proof.
  intros Hl HN. unfold np_cov. simpl.
  set (X := center x). set (Y := center y).
  assert (length X = length Y) as HXY by (unfold X, Y, center; by rewrite !length_fmap).
  assert (0 < INR (length x) - 1) as Hf.
  { apply le_INR in HN. simpl in HN. lra. }
  set (f := INR (length x) - 1) in *.
  pose proof (dot_self_nonneg X) as HA.
  pose proof (dot_self_nonneg Y) as HC.
  pose proof (cauchy_schwarz X Y HXY) as HCS.
  assert (0 < / f) as Hinv by (by apply Rinv_0_lt_compat).
  exists (dot X X / f), (dot X Y / f), (dot Y Y / f).
  rewrite (dot_comm Y X). split; [done|].
  unfold Rdiv. repeat split; [nra | nra |].
  replace (dot X Y * / f * (dot X Y * / f)) with (dot X Y * dot X Y * (/ f * / f)) by ring.
  replace (dot X X * / f * (dot Y Y * / f)) with (dot X X * dot Y Y * (/ f * / f)) by ring.
  apply Rmult_le_compat_r; [nra | done].
Qed.

(** [eigvalcov] on a [2 x N] array with [N >= 2]. *)
Lemma eigvalcov_spec (x y : list R) :
  length x = length y → (2 <= length x)%nat →
  ∃ l2 l1, eigvalcov (x, y) = Ok [l2; l1] ∧ 0 <= l2 ∧ l2 <= l1 ∧
    is_eigenvalue (np_cov (x, y)) l2 ∧ is_eigenvalue (np_cov (x, y)) l1 ∧
    l1 + l2 = (np_cov (x, y)).1.1 + (np_cov (x, y)).2.2 ∧
    l1 * l2 = (np_cov (x, y)).1.1 * (np_cov (x, y)).2.2
              - (np_cov (x, y)).1.2 * (np_cov (x, y)).2.1.
Proof.
  intros Hl HN. rewrite eigvalcov_ok by done.
  destruct (np_cov_psd x y Hl HN) as (a & b & d & -> & Ha & Hd & Hdet).
  destruct (sorted_eigvals_psd a b d Ha Hd Hdet) as (l2 & l1 & -> & H).
  by exists l2, l1.
Qed.

Lemma Rsum_zip_fmap (f g : R → R) (x y : list R) :
  Rsum (zip_with Rmult (f <$> x) (g <$> y))
  = Rsum (zip_with (λ u v, f u * g v) x y).
Proof. by rewrite zip_with_fmap_l, zip_with_fmap_r. Qed.

(** The entries of [np.cov], written out. *)
Lemma np_cov_entries (x y : list R) :
  length x = length y →
  let N := INR (length x) in
  let mx := Rsum x / N in
  let my := Rsum y / N in
  (np_cov (x, y)).1.1 = Rsum ((λ u, (u - mx) * (u - mx)) <$> x) / (N - 1) ∧
  (np_cov (x, y)).1.2 = Rsum (zip_with (λ u v, (u - mx) * (v - my)) x y) / (N - 1) ∧
  (np_cov (x, y)).2.1 = Rsum (zip_with (λ u v, (u - mx) * (v - my)) x y) / (N - 1) ∧
  (np_cov (x, y)).2.2 = Rsum ((λ v, (v - my) * (v - my)) <$> y) / (N - 1).
Proof.
  intros Hl N mx my. unfold np_cov. cbn [fst snd].
  rewrite (dot_comm (center y) (center x)).
  unfold dot, center, mean. rewrite !Rsum_zip_fmap, <- Hl. fold N mx my.
  rewrite !zip_with_diag. done.
Qed.

End CauchySchwarz.

(** ** The grid search *)

Section GridSearchProps.

Variable rotate : list R → list R → R → list R * list R.
Variable lag : list R → list R → Z → list R * list R.
Variable unsplit : list R → list R → R → Z → list R * list R.
Variable chop : list R → list R → Window → list R * list R.

Local Abbreviation unsplit_window := (unsplit_window lag unsplit chop).
Local Abbreviation rotated_window := (rotated_window rotate lag unsplit chop).
Local Abbreviation cell_window := (cell_window rotate lag unsplit chop).

Lemma inner_body_ok kw window lags tx ty ii lam1 lam2 jj nl nd val1 val2 lagv :
  mat_spec lags nl nd (λ j _, lagv j) →
  mat_spec lam1 nl nd val1 → mat_spec lam2 nl nd val2 →
  (jj < nl)%nat → (ii < nd)%nat →
  measurable (unsplit_window kw window tx ty (lagv jj)) →
  ∃ lam1' lam2',
    inner_body lag unsplit chop kw window lags tx ty ii (lam1, lam2) jj
      = Ok (lam1', lam2') ∧
    mat_spec lam1' nl nd
      (upd val1 jj ii (nth 1 (eigs (unsplit_window kw window tx ty (lagv jj))) 0%R)) ∧
    mat_spec lam2' nl nd
      (upd val2 jj ii (nth 0 (eigs (unsplit_window kw window tx ty (lagv jj))) 0%R)).
Proof.
  intros Hlags H1 H2 Hjj Hii [Hlen HN]. unfold inner_body, get2.
  pose proof (mat_spec_cell _ _ _ _ jj ii Hlags Hjj Hii) as Hc.
  unfold cell in Hc. rewrite Hc. cbn [mbind result_bind].
  unfold unsplit_window in *.
  destruct (lag tx ty (- lagv jj)) as [ux uy].
  destruct (srccorr unsplit kw ux uy) as [sx sy].
  destruct (chop sx sy window) as [cx cy] eqn:Hchop. cbn [fst snd] in Hlen, HN.
  unfold vstack. rewrite decide_True by done. cbn [mbind result_bind].
  rewrite eigvalcov_ok by done. cbn [mbind result_bind].
  destruct (eigs_length (cx, cy)) as (v2 & v1 & -> & _).
  cbn [unpack2 mbind result_bind].
  destruct (set2_spec lam2 nl nd val2 jj ii v2 H2 Hjj Hii) as (lam2' & -> & H2').
  cbn [mbind result_bind].
  destruct (set2_spec lam1 nl nd val1 jj ii v1 H1 Hjj Hii) as (lam1' & -> & H1').
  cbn [mbind result_bind]. exists lam1', lam2'. split; [done|]. split; assumption.
Qed.

(** The inner loop fills column [ii]. *)
Lemma inner_loop_ok kw window lags tx ty ii lam1 lam2 nl nd val1 val2 lagv :
  mat_spec lags nl nd (λ j _, lagv j) →
  mat_spec lam1 nl nd val1 → mat_spec lam2 nl nd val2 →
  (ii < nd)%nat →
  (∀ jj, (jj < nl)%nat → measurable (unsplit_window kw window tx ty (lagv jj))) →
  ∃ lam1' lam2',
    for_each (inner_body lag unsplit chop kw window lags tx ty ii)
      (seq 0 nl) (lam1, lam2) = Ok (lam1', lam2') ∧
    mat_spec lam1' nl nd (λ j i,
      if decide (i = ii) then nth 1 (eigs (unsplit_window kw window tx ty (lagv j))) 0%R
      else val1 j i) ∧
    mat_spec lam2' nl nd (λ j i,
      if decide (i = ii) then nth 0 (eigs (unsplit_window kw window tx ty (lagv j))) 0%R
      else val2 j i).
Proof.
  intros Hlags H1 H2 Hii Hlen.
  set (E k := λ j : nat, nth k (eigs (unsplit_window kw window tx ty (lagv j))) 0%R).
  destruct (for_each_seq_inv
    (inner_body lag unsplit chop kw window lags tx ty ii)
    (λ k s, mat_spec s.1 nl nd (λ j i,
               if decide (i = ii ∧ (j < k)%nat) then E 1%nat j else val1 j i) ∧
            mat_spec s.2 nl nd (λ j i,
               if decide (i = ii ∧ (j < k)%nat) then E 0%nat j else val2 j i))
    nl (lam1, lam2)) as ([lam1' lam2'] & Hrun & Hs1 & Hs2).
  - simpl. split; (eapply mat_spec_ext; [eassumption|]); intros j i _ _;
      rewrite decide_False; [done | lia | done | lia].
  - intros k [a1 a2] Hk [Ha1 Ha2]. simpl in *.
    destruct (inner_body_ok kw window lags tx ty ii a1 a2 k nl nd _ _ lagv
                Hlags Ha1 Ha2 Hk Hii (Hlen k Hk)) as (b1 & b2 & Hb & Hb1 & Hb2).
    exists (b1, b2). split; [done|]. simpl.
    split; (eapply mat_spec_ext; [eassumption|]); intros j i _ _; unfold upd, E;
      repeat case_decide; try done; try lia; destruct_and?; subst; try done; lia.
  - exists lam1', lam2'. split; [done|]. simpl in *.
    split; (eapply mat_spec_ext; [eassumption|]); intros j i Hj _; unfold E;
      repeat case_decide; try done; destruct_and?; try lia; tauto.
Qed.

(** The outer loop fills every column. *)
Lemma outer_loop_ok kw window degs lags x y nl nd degv lagv :
  mat_spec degs nl nd (λ _ i, degv i) →
  mat_spec lags nl nd (λ j _, lagv j) →
  (0 < nl)%nat ∨ nd = 0%nat →
  (∀ jj ii, (jj < nl)%nat → (ii < nd)%nat →
     measurable (rotated_window kw window x y (degv ii) (lagv jj))) →
  ∃ lam1 lam2,
    for_each (outer_body rotate lag unsplit chop kw window degs lags (nl, nd) x y)
      (seq 0 nd) (zeros nl nd, zeros nl nd) = Ok (lam1, lam2) ∧
    mat_spec lam1 nl nd (λ j i,
      nth 1 (eigs (rotated_window kw window x y (degv i) (lagv j))) 0%R) ∧
    mat_spec lam2 nl nd (λ j i,
      nth 0 (eigs (rotated_window kw window x y (degv i) (lagv j))) 0%R).
Proof.
  intros Hdegs Hlags Hne Hlen.
  set (E k := λ j i : nat,
    nth k (eigs (rotated_window kw window x y (degv i) (lagv j))) 0%R).
  destruct (for_each_seq_inv
    (outer_body rotate lag unsplit chop kw window degs lags (nl, nd) x y)
    (λ c s, mat_spec s.1 nl nd (λ j i, if decide (i < c)%nat then E 1%nat j i else 0%R) ∧
            mat_spec s.2 nl nd (λ j i, if decide (i < c)%nat then E 0%nat j i else 0%R))
    nd (zeros nl nd, zeros nl nd)) as ([lam1 lam2] & Hrun & Hs1 & Hs2).
  - split; (eapply mat_spec_ext; [apply zeros_spec|]); intros j i _ _;
      simpl; try case_decide; first [lia | done].
  - intros c [a1 a2] Hc [Ha1 Ha2]. simpl in *.
    assert (0 < nl)%nat as Hnl by lia.
    unfold outer_body, get2.
    pose proof (mat_spec_cell _ _ _ _ 0%nat c Hdegs Hnl Hc) as Hd.
    unfold cell in Hd. rewrite Hd. simpl.
    assert (∀ jj, (jj < nl)%nat →
      measurable (rotated_window kw window x y (degv c) (lagv jj))) as Hlenc
      by (intros jj Hjj; by apply Hlen).
    unfold E, rotated_window in *.
    destruct (rotate x y (degv c)) as [tx ty] eqn:Hrot.
    destruct (inner_loop_ok kw window lags tx ty c a1 a2 nl nd _ _ lagv
                Hlags Ha1 Ha2 Hc Hlenc) as (b1 & b2 & Hb & Hb1 & Hb2).
    exists (b1, b2). split; [done|]. simpl.
    split; (eapply mat_spec_ext; [eassumption|]); intros j i _ _; simpl;
      repeat case_decide; subst; try done; try lia; by rewrite Hrot.
  - exists lam1, lam2. split; [done|]. simpl in *.
    split; (eapply mat_spec_ext; [eassumption|]); intros j i _ Hi; simpl;
      by rewrite decide_True by done.
Qed.

(** The run of [grideigval]: it returns when there is a candidate delay (or no
    candidate angle) and the eigensolver accepts the windowed pair of every
    cell, and then each output is described cell by cell. *)
Lemma grideigval_run x y kw :
  let lags_in := resolve_lags x kw in
  let degs_in := resolve_degs kw in
  let nl := length lags_in in
  let nd := length degs_in in
  (0 < nl)%nat ∨ nd = 0%nat →
  (∀ jj ii, (jj < nl)%nat → (ii < nd)%nat →
     measurable (cell_window x y kw (nth ii degs_in 0%R) (nth jj lags_in 0%Z))) →
  ∃ g, grideigval rotate lag unsplit chop x y kw = Ok g ∧
    g_window g = resolve_window x kw ∧
    mat_spec (g_degs g) nl nd (λ _ i, nth i degs_in 0%R) ∧
    mat_spec (g_lags g) nl nd (λ j _, nth j lags_in 0%Z) ∧
    mat_spec (g_lam1 g) nl nd (λ j i,
      nth 1 (eigs (cell_window x y kw (nth i degs_in 0%R) (nth j lags_in 0%Z))) 0%R) ∧
    mat_spec (g_lam2 g) nl nd (λ j i,
      nth 0 (eigs (cell_window x y kw (nth i degs_in 0%R) (nth j lags_in 0%Z))) 0%R).
Proof.
  intros lags_in degs_in nl nd Hne Hlen. unfold grideigval.
  fold lags_in degs_in. fold nl nd.
  destruct (meshgrid_spec degs_in lags_in 0%R 0%Z) as [Hdegs Hlags].
  fold nl nd in Hdegs, Hlags.
  destruct (meshgrid degs_in lags_in) as [degs lags]. simpl in Hdegs, Hlags.
  unfold cell_window in *.
  destruct (rcv_correct unsplit x y kw) as [x' y'].
  destruct (outer_loop_ok kw (resolve_window x kw) degs lags x' y' nl nd _ _
              Hdegs Hlags Hne Hlen) as (lam1 & lam2 & Hrun & H1 & H2).
  simpl. rewrite Hrun. simpl. eexists. split; [done|]. simpl. done.
Qed.

(** Without a candidate delay the first read of [degs[0,ii]] is out of
    bounds. *)
Lemma grideigval_no_lags x y kw :
  resolve_lags x kw = [] → resolve_degs kw ≠ [] →
  grideigval rotate lag unsplit chop x y kw = Raise IndexError.
Proof.
  intros Hl Hd. unfold grideigval. rewrite Hl.
  destruct (resolve_degs kw) as [|d ds]; [done|]. simpl.
  by destruct (rcv_correct unsplit x y kw) as [x' y'].
Qed.

(** What one iteration of the inner loop does: it stores the eigenvalues of a
    window the eigensolver accepts, it raises the [ValueError] of [np.vstack]
    for channels of different lengths, and the [LinAlgError] of
    [np.linalg.eigvals] for fewer than two samples. *)
Lemma inner_body_cases kw window lags tx ty ii lam1 lam2 jj nl nd lagv :
  mat_spec lags nl nd (λ j _, lagv j) →
  has_shape lam1 nl nd → has_shape lam2 nl nd →
  (jj < nl)%nat → (ii < nd)%nat →
  (measurable (unsplit_window kw window tx ty (lagv jj)) ∧
   ∃ t, inner_body lag unsplit chop kw window lags tx ty ii (lam1, lam2) jj = Ok t ∧
        has_shape t.1 nl nd ∧ has_shape t.2 nl nd) ∨
  (length (unsplit_window kw window tx ty (lagv jj)).1
     ≠ length (unsplit_window kw window tx ty (lagv jj)).2 ∧
   inner_body lag unsplit chop kw window lags tx ty ii (lam1, lam2) jj
     = Raise ValueError) ∨
  (length (unsplit_window kw window tx ty (lagv jj)).1
     = length (unsplit_window kw window tx ty (lagv jj)).2 ∧
   (length (unsplit_window kw window tx ty (lagv jj)).1 < 2)%nat ∧
   inner_body lag unsplit chop kw window lags tx ty ii (lam1, lam2) jj
     = Raise LinAlgError).
Proof.
  intros Hlags H1 H2 Hjj Hii.
  destruct (decide (length (unsplit_window kw window tx ty (lagv jj)).1
                    = length (unsplit_window kw window tx ty (lagv jj)).2))
    as [Heq|Hne].
  - destruct (decide (2 <= length (unsplit_window kw window tx ty (lagv jj)).1)%nat)
      as [HN|HN].
    + left. split; [done|].
      destruct (inner_body_ok kw window lags tx ty ii lam1 lam2
                  jj nl nd _ _ lagv Hlags
                  (has_shape_mat_spec _ _ _ 0%R H1) (has_shape_mat_spec _ _ _ 0%R H2)
                  Hjj Hii (conj Heq HN)) as (b1 & b2 & Hb & Hb1 & Hb2).
      exists (b1, b2). split; [done|]. split; by eapply mat_spec_shape.
    + right. right. split; [done|]. split; [lia|]. unfold inner_body, get2.
      pose proof (mat_spec_cell _ _ _ _ jj ii Hlags Hjj Hii) as Hc.
      unfold cell in Hc. rewrite Hc. cbn [mbind result_bind].
      unfold unsplit_window in Heq, HN.
      destruct (lag tx ty (- lagv jj)) as [ux uy].
      destruct (srccorr unsplit kw ux uy) as [sx sy].
      destruct (chop sx sy window) as [cx cy]. simpl in Heq, HN.
      unfold vstack. rewrite decide_True by done. cbn [mbind result_bind].
      rewrite eigvalcov_short by (simpl; lia). done.
  - right. left. split; [done|]. unfold inner_body, get2.
    pose proof (mat_spec_cell _ _ _ _ jj ii Hlags Hjj Hii) as Hc.
    unfold cell in Hc. rewrite Hc. cbn [mbind result_bind].
    unfold unsplit_window in Hne.
    destruct (lag tx ty (- lagv jj)) as [ux uy].
    destruct (srccorr unsplit kw ux uy) as [sx sy].
    destruct (chop sx sy window) as [cx cy]. simpl in Hne.
    unfold vstack. by rewrite decide_False.
Qed.

(** The outcome of the inner loop at column [ii]. *)
Lemma inner_loop_cases kw window lags tx ty ii lam1 lam2 nl nd lagv :
  mat_spec lags nl nd (λ j _, lagv j) →
  has_shape lam1 nl nd → has_shape lam2 nl nd → (ii < nd)%nat →
  ((∀ jj, (jj < nl)%nat → measurable (unsplit_window kw window tx ty (lagv jj))) ∧
   ∃ t, for_each (inner_body lag unsplit chop kw window lags tx ty ii)
          (seq 0 nl) (lam1, lam2) = Ok t ∧
        has_shape t.1 nl nd ∧ has_shape t.2 nl nd) ∨
  ((∃ jj, (jj < nl)%nat ∧
      length (unsplit_window kw window tx ty (lagv jj)).1
        ≠ length (unsplit_window kw window tx ty (lagv jj)).2) ∧
   for_each (inner_body lag unsplit chop kw window lags tx ty ii)
     (seq 0 nl) (lam1, lam2) = Raise ValueError) ∨
  ((∃ jj, (jj < nl)%nat ∧
      length (unsplit_window kw window tx ty (lagv jj)).1
        = length (unsplit_window kw window tx ty (lagv jj)).2 ∧
      (length (unsplit_window kw window tx ty (lagv jj)).1 < 2)%nat) ∧
   for_each (inner_body lag unsplit chop kw window lags tx ty ii)
     (seq 0 nl) (lam1, lam2) = Raise LinAlgError).
Proof.
  intros Hlags H1 H2 Hii.
  destruct (for_each_seq_cases
    (inner_body lag unsplit chop kw window lags tx ty ii)
    (λ t, has_shape t.1 nl nd ∧ has_shape t.2 nl nd)
    (λ jj, measurable (unsplit_window kw window tx ty (lagv jj)))
    nl (lam1, lam2)) as [(t & Hrun & Ht & Hall)|(k & [a1 a2] & e & Hk & [Ha1 Ha2] & Hb & Hrun)].
  - done.
  - intros k [a1 a2] t' Hk [Ha1 Ha2] Hb.
    destruct (inner_body_cases kw window lags tx ty ii a1 a2 k nl nd lagv
                Hlags Ha1 Ha2 Hk Hii)
      as [(Hm & t & Ht & Hs)|[(_ & Hr)|(_ & _ & Hr)]]; rewrite Hb in *; [|done|done].
    injection Ht as <-. done.
  - left. split; [done|]. by exists t.
  - simpl in Ha1, Ha2.
    destruct (inner_body_cases kw window lags tx ty ii a1 a2 k nl nd lagv
                Hlags Ha1 Ha2 Hk Hii)
      as [(_ & t & Ht & _)|[(Hne & Hr)|(Heq & HN & Hr)]]; rewrite Hb in *; [done| |].
    + injection Hr as ->. right. left. split; [by exists k | done].
    + injection Hr as ->. right. right. split; [by exists k | done].
Qed.

(** The outcome of one iteration of the outer loop. *)
Lemma outer_body_cases kw window degs lags x y ii lam1 lam2 nl nd degv lagv :
  mat_spec degs nl nd (λ _ i, degv i) → mat_spec lags nl nd (λ j _, lagv j) →
  has_shape lam1 nl nd → has_shape lam2 nl nd →
  (0 < nl)%nat → (ii < nd)%nat →
  ((∀ jj, (jj < nl)%nat →
      measurable (rotated_window kw window x y (degv ii) (lagv jj))) ∧
   ∃ t, outer_body rotate lag unsplit chop kw window degs lags (nl, nd) x y
          (lam1, lam2) ii = Ok t ∧
        has_shape t.1 nl nd ∧ has_shape t.2 nl nd) ∨
  ((∃ jj, (jj < nl)%nat ∧
      length (rotated_window kw window x y (degv ii) (lagv jj)).1
        ≠ length (rotated_window kw window x y (degv ii) (lagv jj)).2) ∧
   outer_body rotate lag unsplit chop kw window degs lags (nl, nd) x y
     (lam1, lam2) ii = Raise ValueError) ∨
  ((∃ jj, (jj < nl)%nat ∧
      length (rotated_window kw window x y (degv ii) (lagv jj)).1
        = length (rotated_window kw window x y (degv ii) (lagv jj)).2 ∧
      (length (rotated_window kw window x y (degv ii) (lagv jj)).1 < 2)%nat) ∧
   outer_body rotate lag unsplit chop kw window degs lags (nl, nd) x y
     (lam1, lam2) ii = Raise LinAlgError).
Proof.
  intros Hdegs Hlags H1 H2 Hnl Hii. unfold outer_body, get2.
  pose proof (mat_spec_cell _ _ _ _ 0%nat ii Hdegs Hnl Hii) as Hd.
  unfold cell in Hd. rewrite Hd. cbn [mbind result_bind].
  unfold rotated_window.
  destruct (rotate x y (degv ii)) as [tx ty]. cbn [fst].
  exact (inner_loop_cases kw window lags tx ty ii lam1 lam2 nl nd lagv
           Hlags H1 H2 Hii).
Qed.

(** The outcome of [grideigval] with at least one candidate delay. *)
Lemma grideigval_cases x y kw :
  (0 < length (resolve_lags x kw))%nat →
  ((∀ jj ii, (jj < length (resolve_lags x kw))%nat →
             (ii < length (resolve_degs kw))%nat →
      measurable (cell_window x y kw (nth ii (resolve_degs kw) 0%R)
                    (nth jj (resolve_lags x kw) 0%Z))) ∧
   ∃ g, grideigval rotate lag unsplit chop x y kw = Ok g) ∨
  ((∃ jj ii, (jj < length (resolve_lags x kw))%nat ∧
             (ii < length (resolve_degs kw))%nat ∧
      length (cell_window x y kw (nth ii (resolve_degs kw) 0%R)
                (nth jj (resolve_lags x kw) 0%Z)).1
      ≠ length (cell_window x y kw (nth ii (resolve_degs kw) 0%R)
                  (nth jj (resolve_lags x kw) 0%Z)).2) ∧
   grideigval rotate lag unsplit chop x y kw = Raise ValueError) ∨
  ((∃ jj ii, (jj < length (resolve_lags x kw))%nat ∧
             (ii < length (resolve_degs kw))%nat ∧
      length (cell_window x y kw (nth ii (resolve_degs kw) 0%R)
                (nth jj (resolve_lags x kw) 0%Z)).1
      = length (cell_window x y kw (nth ii (resolve_degs kw) 0%R)
                  (nth jj (resolve_lags x kw) 0%Z)).2 ∧
      (length (cell_window x y kw (nth ii (resolve_degs kw) 0%R)
                 (nth jj (resolve_lags x kw) 0%Z)).1 < 2)%nat) ∧
   grideigval rotate lag unsplit chop x y kw = Raise LinAlgError).
Proof.
  intros Hnl. unfold grideigval.
  destruct (meshgrid_spec (resolve_degs kw) (resolve_lags x kw) 0%R 0%Z)
    as [Hdegs Hlags].
  destruct (meshgrid (resolve_degs kw) (resolve_lags x kw)) as [degs lags].
  simpl in Hdegs, Hlags. unfold cell_window.
  destruct (rcv_correct unsplit x y kw) as [x' y']. cbn [fst snd].
  set (nl := length (resolve_lags x kw)) in *.
  set (nd := length (resolve_degs kw)) in *.
  set (degv := λ i, nth i (resolve_degs kw) 0%R) in *.
  set (lagv := λ j, nth j (resolve_lags x kw) 0%Z) in *.
  pose proof (λ k a1 a2, outer_body_cases kw (resolve_window x kw) degs lags x' y'
                k a1 a2 nl nd degv lagv Hdegs Hlags) as Hbody.
  destruct (for_each_seq_cases
    (outer_body rotate lag unsplit chop kw (resolve_window x kw) degs lags
       (nl, nd) x' y')
    (λ t, has_shape t.1 nl nd ∧ has_shape t.2 nl nd)
    (λ ii, ∀ jj, (jj < nl)%nat →
       measurable (rotated_window kw (resolve_window x kw) x' y' (degv ii) (lagv jj)))
    nd (zeros nl nd, zeros nl nd))
    as [([t1 t2] & Hrun & Ht & Hall)|(k & [a1 a2] & e & Hk & [Ha1 Ha2] & Hb & Hrun)].
  - split; eapply mat_spec_shape, zeros_spec.
  - intros k [a1 a2] t' Hk [Ha1 Ha2] Hb.
    destruct (Hbody k a1 a2 Ha1 Ha2 Hnl Hk)
      as [(Hm & t & Ht & Hs)|[(_ & Hr)|(_ & Hr)]]; rewrite Hb in *; [|done|done].
    injection Ht as <-. done.
  - left. split.
    + intros jj ii Hjj Hii. by apply (Hall ii Hii jj Hjj).
    + rewrite Hrun. cbn [mbind result_bind]. by eexists.
  - cbn [fst snd] in Ha1, Ha2.
    destruct (Hbody k a1 a2 Ha1 Ha2 Hnl Hk)
      as [(_ & t & Ht & _)|[((jj & Hjj & Hne) & Hr)|((jj & Hjj & Heq & HN) & Hr)]];
      rewrite Hb in *; [done| |].
    + injection Hr as ->. right. left. rewrite Hrun. split; [|done].
      by exists jj, k.
    + injection Hr as ->. right. right. rewrite Hrun. split; [|done].
      by exists jj, k.
Qed.

(** A grid search that returned has measured the window of every cell. *)
Lemma grideigval_returned x y kw g :
  grideigval rotate lag unsplit chop x y kw = Ok g →
  ∀ jj ii, (jj < length (resolve_lags x kw))%nat →
           (ii < length (resolve_degs kw))%nat →
    measurable (cell_window x y kw (nth ii (resolve_degs kw) 0%R)
                  (nth jj (resolve_lags x kw) 0%Z)).
Proof.
  intros Hrun jj ii Hjj Hii.
  destruct (grideigval_cases x y kw) as [[Hall _]|[[_ Hr]|[_ Hr]]];
    [lia | by apply Hall | by rewrite Hr in Hrun | by rewrite Hr in Hrun].
Qed.

Lemma lookup_nth_iff {A} (l : list A) i v d :
  l !! i = Some v ↔ (i < length l)%nat ∧ nth i l d = v.
Proof.
  split.
  - intros H. split; [by eapply lookup_lt_Some | by apply nth_lookup_Some].
  - intros [Hi <-]. by apply lookup_nth_lt.
Qed.

Lemma cell_Some_lt {A} (a : list (list A)) nr nc i j v :
  has_shape a nr nc → cell a i j = Some v → (i < nr)%nat ∧ (j < nc)%nat.
Proof.
  intros [Hl Hr] Hc. unfold cell in Hc.
  destruct (a !! i) as [row|] eqn:Hrow; [|done]. simpl in Hc.
  split; [rewrite <- Hl; by eapply lookup_lt_Some|].
  rewrite Forall_lookup in Hr. rewrite <- (Hr i row Hrow). by eapply lookup_lt_Some.
Qed.



(** C2: for a [2 x N] input with [N >= 2], [eigvalcov] returns the two
    eigenvalues of the sample covariance matrix in ascending order, the
    smaller [l2] first and the larger [l1] second.  The matrix is written out:
    [A] and [D] are the variances of the two channels and [B] their
    covariance, normalised by [N - 1]; [l2] and [l1] are the roots of its
    characteristic polynomial, with sum [A + D] and product [A D - B²].
    Consequently every cell of the surfaces [grideigval] returns satisfies
    [lam2 <= lam1]. *)
Theorem eigvalcov_sorted (tx ty x y : list R) (kw : kwargs) (g : grid) :
  let N := INR (length tx) in
  let mx := (Rsum tx / N)%R in
  let my := (Rsum ty / N)%R in
  let A := (Rsum ((λ u, (u - mx) * (u - mx)) <$> tx) / (N - 1))%R in
  let B := (Rsum (zip_with (λ u v, (u - mx) * (v - my)) tx ty) / (N - 1))%R in
  let D := (Rsum ((λ v, (v - my) * (v - my)) <$> ty) / (N - 1))%R in
  length tx = length ty → (2 <= length tx)%nat →
  grideigval rotate lag unsplit chop x y kw = Ok g →
  (∃ l2 l1, eigvalcov (tx, ty) = Ok [l2; l1] ∧ (l2 <= l1)%R ∧
     (l2 * l2 - (A + D) * l2 + (A * D - B * B) = 0)%R ∧
     (l1 * l1 - (A + D) * l1 + (A * D - B * B) = 0)%R ∧
     (l1 + l2 = A + D)%R ∧ (l1 * l2 = A * D - B * B)%R) ∧
  (∀ jj ii v1 v2,
     cell (g_lam1 g) jj ii = Some v1 → cell (g_lam2 g) jj ii = Some v2 →
     (v2 <= v1)%R).
Proof.
  intros N mx my A B D Hxy HN Hrun. split.
  - destruct (eigvalcov_spec tx ty Hxy HN)
      as (l2 & l1 & -> & _ & Hle & He2 & He1 & Hsum & Hprod).
    destruct (np_cov_entries tx ty Hxy) as (HA & HB & HB' & HD).
    fold N mx my in HA, HB, HB', HD. fold A in HA. fold B in HB, HB'. fold D in HD.
    unfold is_eigenvalue in He2, He1.
    destruct (np_cov (tx, ty)) as [[a b] [c d]]. cbn [fst snd] in *. subst a b c d.
    exists l2, l1. repeat split; done.
  - assert ((0 < length (resolve_lags x kw))%nat ∨ length (resolve_degs kw) = 0%nat)
      as Hne.
    { destruct (resolve_lags x kw) as [|l0 ls] eqn:Hl; [|left; simpl; lia].
      destruct (resolve_degs kw) as [|d0 ds] eqn:Hd; [by right|].
      rewrite grideigval_no_lags in Hrun; [done | done | by rewrite Hd]. }
    assert (∀ jj ii, (jj < length (resolve_lags x kw))%nat →
                     (ii < length (resolve_degs kw))%nat →
              measurable (cell_window x y kw (nth ii (resolve_degs kw) 0%R)
                            (nth jj (resolve_lags x kw) 0%Z))) as Hwin
      by (by apply grideigval_returned with g).
    destruct (grideigval_run x y kw Hne Hwin) as (g' & Hg & _ & _ & _ & H1 & H2).
    rewrite Hrun in Hg. injection Hg as <-.
    intros jj ii v1 v2 Hc1 Hc2.
    destruct (cell_Some_lt _ _ _ _ _ _ (mat_spec_shape _ _ _ _ H1) Hc1) as [Hjj Hii].
    rewrite (mat_spec_cell _ _ _ _ jj ii H1 Hjj Hii) in Hc1.
    rewrite (mat_spec_cell _ _ _ _ jj ii H2 Hjj Hii) in Hc2.
    destruct (eigs_length (cell_window x y kw (nth ii (resolve_degs kw) 0%R)
                             (nth jj (resolve_lags x kw) 0%Z)))
      as (u2 & u1 & Hv & Hle).
    rewrite Hv in Hc1, Hc2. cbn [nth] in Hc1, Hc2.
    injection Hc1 as <-. injection Hc2 as <-. done.
Qed.

End GridSearchProps.

(** [test_lag] of [testing/core_tests.py]. *)
Example test_lag :
  core.lag [0; 1; 2]%R [3; 4; 5]%R 2 = ([2]%R, [3]%R) ∧
  core.lag [0; 1; 2]%R [3; 4; 5]%R (-2) = ([0]%R, [5]%R).
Proof. split; reflexivity. Qed.

Lemma small_windows jj ii l d :
  resolve_lags x_small kw_small !! jj = Some l →
  resolve_degs kw_small !! ii = Some d →
  measurable (cell_window core.rotate core.lag core.unsplit core.chop
                x_small y_small kw_small d l).
Proof.
  intros Hl Hd.
  destruct ii as [|ii]; [|done]. injection Hd as <-.
  destruct jj as [|[|jj]]; [| |done]; injection Hl as <-;
    unfold measurable; simpl; lia.
Qed.



Lemma eigvalcov_sorted_witness :
  ∃ g, grideigval core.rotate core.lag core.unsplit core.chop
         x_small y_small kw_small = Ok g ∧
    let N := INR (length x_small) in
    let mx := (Rsum x_small / N)%R in
    let my := (Rsum y_small / N)%R in
    let A := (Rsum ((λ u, (u - mx) * (u - mx)) <$> x_small) / (N - 1))%R in
    let B := (Rsum (zip_with (λ u v, (u - mx) * (v - my)) x_small y_small)
              / (N - 1))%R in
    let D := (Rsum ((λ v, (v - my) * (v - my)) <$> y_small) / (N - 1))%R in
    (∃ l2 l1, eigvalcov (x_small, y_small) = Ok [l2; l1] ∧ (l2 <= l1)%R ∧
       (l2 * l2 - (A + D) * l2 + (A * D - B * B) = 0)%R ∧
       (l1 * l1 - (A + D) * l1 + (A * D - B * B) = 0)%R ∧
       (l1 + l2 = A + D)%R ∧ (l1 * l2 = A * D - B * B)%R) ∧
    (∀ jj ii v1 v2,
       cell (g_lam1 g) jj ii = Some v1 → cell (g_lam2 g) jj ii = Some v2 →
       (v2 <= v1)%R).
Proof.
  destruct (grideigval_run core.rotate core.lag core.unsplit core.chop
              x_small y_small kw_small) as (g & Hg & _).
  - left. simpl. lia.
  - intros jj ii Hjj Hii.
    apply (small_windows jj ii); by apply lookup_nth_lt.
  - exists g. split; [done|].
    apply (eigvalcov_sorted core.rotate core.lag core.unsplit core.chop
             x_small y_small x_small y_small kw_small g);
      [reflexivity | simpl; lia | exact Hg].
Defined.


(** C2, as the claim states it, fails by rounding: the eigenvalues are not
    always [>= 0].  The channels [0, 4, 8] and [0, 3, 6] are linearly
    polarised; every step of [np.cov] is exact on them and gives the matrix
    [[16, 12], [12, 9]], whose eigenvalues are 0 and 25.  In exact arithmetic
    [eigvalcov] returns [0, 25]; on binary64 numbers the smaller eigenvalue
    comes out as [-2^-49], about [-1.8e-15]. *)
Lemma eigvalcov_negative_in_binary64 :
  b64.np_cov ([0; 4; 8]%float, [0; 3; 6]%float)
    = ((16, 12), (12, 9))%float ∧
  b64.eigvalcov ([0; 4; 8]%float, [0; 3; 6]%float)
    = Some [(- 0x1p-49)%float; 25%float] ∧
  (- 0x1p-49 <? 0)%float = true ∧
  eigvalcov ([0; 4; 8]%R, [0; 3; 6]%R) = Ok [0%R; 25%R].
Proof.
  split; [by vm_compute|]. split; [by vm_compute|]. split; [by vm_compute|].
  destruct (eigvalcov_spec [0; 4; 8]%R [0; 3; 6]%R)
    as (l2 & l1 & -> & H0 & Hle & _ & _ & Hsum & Hprod); [done | simpl; lia |].
  destruct (np_cov_entries [0; 4; 8]%R [0; 3; 6]%R) as (HA & HB & HB' & HD);
    [done|].
  rewrite HA, HD in Hsum. rewrite HA, HB, HB', HD in Hprod.
  cbn [length Rsum foldr fmap list_fmap zip_with INR] in Hsum, Hprod.
  assert (l1 + l2 = 25)%R as Hs by (rewrite Hsum; field).
  assert (l1 * l2 = 0)%R as Hp by (rewrite Hprod; field).
  assert (l2 = 0%R) as ->.
  { apply Rmult_integral in Hp as [Hz|Hz]; [lra | done]. }
  do 3 f_equal. lra.
Qed.

(** ** Configurations that are not checked *)

Lemma fmap_const_nil {A B} (l : list A) :
  (λ _ : A, @nil B) <$> l = replicate (length l) [].
Proof. induction l as [|a l IH]; simpl; [done | by f_equal]. Qed.

Lemma grideigval_no_degs rotate lag unsplit chop x y kw :
  resolve_degs kw = [] →
  grideigval rotate lag unsplit chop x y kw
  = Ok (mkGrid (replicate (length (resolve_lags x kw)) [])
               (replicate (length (resolve_lags x kw)) [])
               (replicate (length (resolve_lags x kw)) [])
               (replicate (length (resolve_lags x kw)) [])
               (resolve_window x kw)).
Proof.
  intros Hd. unfold grideigval, meshgrid. rewrite Hd. simpl.
  destruct (rcv_correct unsplit x y kw) as [x' y']. simpl.
  unfold zeros. simpl. by rewrite (fmap_const_nil (resolve_lags x kw)).
Qed.

(** C4, as the claim states it, fails: a configuration without any candidate
    angle is invalid, and [grideigval] returns empty surfaces for it instead
    of raising. *)
Lemma grideigval_accepts_empty_grid :
  invalid_config x_small y_small kw_nodegs ∧
  grideigval core.rotate core.lag core.unsplit core.chop x_small y_small kw_nodegs
  = Ok (mkGrid [[]; []] [[]; []] [[]; []] [[]; []] (mkWindow 3 0 None)).
Proof.
  split.
  - right. right. right. reflexivity.
  - by rewrite grideigval_no_degs.
Qed.

(** C4, amended: [grideigval] does not validate its configuration before the
    scan.  Without any candidate angle it returns, whatever the channel
    lengths and the window are, surfaces with one empty row per candidate
    delay (no cell is evaluated and nothing is raised); without any candidate
    delay but with a candidate angle it raises an index error at the first
    angle, before any cell is evaluated. *)
Theorem grideigval_no_validation
    (rotate : list R → list R → R → list R * list R)
    (lag : list R → list R → Z → list R * list R)
    (unsplit : list R → list R → R → Z → list R * list R)
    (chop : list R → list R → Window → list R * list R)
    (x y : list R) (kw : kwargs) :
  (resolve_degs kw = [] →
   ∃ g, grideigval rotate lag unsplit chop x y kw = Ok g ∧
     g_window g = resolve_window x kw ∧
     has_shape (g_lam1 g) (length (resolve_lags x kw)) 0 ∧
     has_shape (g_lam2 g) (length (resolve_lags x kw)) 0) ∧
  (resolve_lags x kw = [] → resolve_degs kw ≠ [] →
   grideigval rotate lag unsplit chop x y kw = Raise IndexError).
Proof.
  split.
  - intros Hd. eexists. split; [by apply grideigval_no_degs|]. simpl.
    split; [done|].
    split; (split; [apply length_replicate|]); by apply Forall_replicate.
  - apply grideigval_no_lags.
Qed.

Lemma grideigval_no_validation_witness :
  (∃ g, grideigval core.rotate core.lag core.unsplit core.chop
          x_small y_small kw_nodegs = Ok g ∧
     g_window g = resolve_window x_small kw_nodegs ∧
     has_shape (g_lam1 g) (length (resolve_lags x_small kw_nodegs)) 0 ∧
     has_shape (g_lam2 g) (length (resolve_lags x_small kw_nodegs)) 0) ∧
  grideigval core.rotate core.lag core.unsplit core.chop
    x_small y_small kw_nolags = Raise IndexError.
Proof.
  split.
  - apply (grideigval_no_validation core.rotate core.lag core.unsplit core.chop
             x_small y_small kw_nodegs).
    reflexivity.
  - apply (grideigval_no_validation core.rotate core.lag core.unsplit core.chop
             x_small y_small kw_nolags).
    + reflexivity.
    + discriminate.
Defined.

(** ** Defaults of the grid search *)

Lemma np_rint_comp (q q' : Q) : (q == q')%Q → np_rint q = np_rint q'.
Proof.
  intros He. unfold np_rint. rewrite (Qfloor_comp _ _ He).
  assert (q - inject_Z (Qfloor q') == q' - inject_Z (Qfloor q'))%Q as Hm
    by (by rewrite He).
  by rewrite (Qcompare_comp _ _ Hm _ _ (Qeq_refl (1 # 2))).
Qed.

Lemma np_rint_nonneg (q : Q) : (0 <= q)%Q → (0 <= np_rint q)%Z.
Proof.
  intros Hq. unfold np_rint.
  pose proof (Qfloor_resp_le _ _ Hq) as Hf. change (Qfloor 0) with 0%Z in Hf.
  destruct (q - inject_Z (Qfloor q) ?= 1 # 2)%Q; [destruct (Z.even _)| |]; lia.
Qed.

Lemma linspace_nonneg (stop : Q) (num : nat) :
  (0 <= stop)%Q → (2 <= num)%nat → Forall (λ q, 0 <= q)%Q (linspace 0 stop num).
Proof.
  intros Hs Hn. unfold linspace. apply Forall_fmap, Forall_forall.
  intros k _. simpl. rewrite Qplus_0_l.
  apply Qmult_le_0_compat.
  - change 0%Q with (inject_Z 0). rewrite <- Zle_Qle. lia.
  - unfold Qdiv. apply Qmult_le_0_compat; [lra|].
    apply Qinv_le_0_compat. change 0%Q with (inject_Z 0). rewrite <- Zle_Qle. lia.
Qed.

Lemma maxlag_spec (size : Z) :
  (0 <= size)%Z →
  (maxlag size mod 2 = 0)%Z ∧ (size / 10 <= maxlag size <= size / 10 + 1)%Z ∧
  (0 <= maxlag size)%Z.
Proof.
  intros Hs. unfold maxlag.
  assert (0 <= size / 10)%Z by (apply Z.div_pos; lia).
  destruct (Z.eqb_spec ((size / 10) mod 2) 0) as [He|Hne].
  - lia.
  - assert ((size / 10) mod 2 = 1)%Z as H1
      by (pose proof (Z.mod_pos_bound (size / 10) 2); lia).
    rewrite Z.add_mod, H1 by lia. split; [done | lia].
Qed.

Lemma elem_of_np_unique (l : list Z) (v : Z) : v ∈ np_unique l ↔ v ∈ l.
Proof.
  unfold np_unique. rewrite merge_sort_Permutation. apply elem_of_remove_dups.
Qed.

Lemma StronglySorted_le_NoDup_lt (l : list Z) :
  StronglySorted Z.le l → NoDup l → StronglySorted Z.lt l.
Proof.
  induction 1 as [|a l Hs IH Ha]; intros Hnd; [constructor|].
  apply NoDup_cons in Hnd as [Hnotin Hnd].
  constructor; [by apply IH|].
  apply Forall_forall. intros b Hb.
  rewrite Forall_forall in Ha. specialize (Ha b Hb).
  assert (a ≠ b) by (intros ->; done). lia.
Qed.

Lemma np_unique_sorted (l : list Z) : StronglySorted Z.lt (np_unique l).
Proof.
  apply StronglySorted_le_NoDup_lt.
  - apply (StronglySorted_merge_sort Z.le); apply _.
  - unfold np_unique. rewrite merge_sort_Permutation. apply NoDup_remove_dups.
Qed.

Lemma default_lags_unfold (size : Z) :
  default_lags size = np_unique (default_lags_raw size).
Proof. reflexivity. Qed.

(** The default delays of the code are the ones of the specification with
    [maxlag] as the end of the range. *)
Lemma default_lags_spec_lags (size : Z) :
  default_lags size = spec_lags (inject_Z (maxlag size)).
Proof.
  unfold default_lags, spec_lags, default_lags_raw, linspace. f_equal.
  rewrite <- !list_fmap_compose. apply list_fmap_ext. intros _ k _. simpl.
  f_equal. apply np_rint_comp. field. discriminate.
Qed.

(** C7, as the claim states it, fails: for 130 samples the range of the
    specification ends at [130 / 10 = 13] and gives delays up to 12, while
    the code makes the end of the range even and gives delays up to 14. *)
Lemma default_lags_differ_at_130 :
  claimed_default_lags 130 = [0; 2; 4; 6; 8; 10; 12]%Z ∧
  default_lags 130 = [0; 2; 4; 6; 8; 10; 12; 14]%Z ∧
  default_lags 130 ≠ claimed_default_lags 130.
Proof.
  assert (claimed_default_lags 130 = [0; 2; 4; 6; 8; 10; 12]%Z) as H1
    by (vm_compute; reflexivity).
  assert (default_lags 130 = [0; 2; 4; 6; 8; 10; 12; 14]%Z) as H2
    by (vm_compute; reflexivity).
  rewrite H1, H2. repeat split. discriminate.
Qed.

(** C7, amended: when the caller omits the option, the grid search uses these
    defaults derived from the trace length [N]: the angle candidates are every
    3 degrees over [-90, 90); the delay candidates are 30 values spaced
    linearly from 0 to [maxlag], where [maxlag] is [N / 10] truncated to an
    integer and increased by one if odd, each doubled-half-rounded to an even
    integer and deduplicated (hence non-negative, even, strictly ascending);
    the window has [N / 2] samples (truncated), one more if that is even, so
    an odd count, with zero offset and no taper. *)
Theorem grideigval_defaults (x : list R) (kw : kwargs) :
  let N := Z.of_nat (length x) in
  (kw_degs kw = None →
     resolve_degs kw = IZR <$> default_degs ∧
     default_degs = (λ k, -90 + 3 * Z.of_nat k)%Z <$> seq 0 60) ∧
  (kw_lags kw = None →
     resolve_lags x kw = default_lags N ∧
     default_lags N = spec_lags (inject_Z (maxlag N)) ∧
     (maxlag N mod 2 = 0)%Z ∧ (N / 10 <= maxlag N <= N / 10 + 1)%Z ∧
     Forall (λ l, (0 <= l)%Z ∧ (l mod 2 = 0)%Z) (default_lags N) ∧
     StronglySorted Z.lt (default_lags N)) ∧
  (kw_window kw = None →
     resolve_window x kw = default_window N ∧
     (width (default_window N) mod 2 = 1)%Z ∧
     (N / 2 <= width (default_window N) <= N / 2 + 1)%Z ∧
     offset (default_window N) = 0%Z ∧ tukey (default_window N) = None).
Proof.
  intros N. assert (0 <= N)%Z as HN by (unfold N; lia).
  split; [|split].
  - intros Hd. unfold resolve_degs. rewrite Hd. split; [done|].
    vm_compute. reflexivity.
  - intros Hl. unfold resolve_lags. rewrite Hl. fold N.
    destruct (maxlag_spec N HN) as (Heven & Hrange & Hpos).
    split; [done|]. split; [apply default_lags_spec_lags|].
    split; [done|]. split; [done|]. split; [|apply np_unique_sorted].
    apply Forall_forall. intros l Hin.
    rewrite default_lags_unfold, elem_of_np_unique in Hin.
    unfold default_lags_raw in Hin.
    apply list_elem_of_fmap in Hin as (q & -> & Hq).
    assert (0 <= q)%Q as Hq0.
    { eapply (proj1 (Forall_forall _ _)); [|exact Hq].
      apply linspace_nonneg; [|lia].
      apply Qmult_le_0_compat; [done|].
      change 0%Q with (inject_Z 0). rewrite <- Zle_Qle. lia. }
    pose proof (np_rint_nonneg q Hq0). split; [lia|].
    rewrite Z.mul_comm. apply Z.mod_mul. lia.
  - intros Hw. unfold resolve_window. rewrite Hw. fold N.
    unfold default_window. simpl.
    assert (0 <= N / 2)%Z by (apply Z.div_pos; lia).
    pose proof (Z.mod_pos_bound (N / 2) 2 ltac:(lia)).
    destruct (Z.eqb_spec ((N / 2) mod 2) 1) as [He|Hne].
    + repeat split; lia.
    + assert ((N / 2) mod 2 = 0)%Z as Hm0 by lia.
      rewrite Z.add_mod, Hm0 by lia. repeat split; lia.
Qed.

Lemma grideigval_defaults_witness :
  (resolve_degs kw_none = IZR <$> default_degs ∧
   default_degs = (λ k, -90 + 3 * Z.of_nat k)%Z <$> seq 0 60) ∧
  (resolve_lags x_small kw_none = default_lags 6 ∧
   default_lags 6 = [0]%Z) ∧
  (resolve_window x_small kw_none = default_window 6 ∧
   width (default_window 6) = 3%Z).
Proof.
  destruct (grideigval_defaults x_small kw_none) as (Hd & Hl & Hw).
  split; [exact (Hd eq_refl)|].
  split; [split; [exact (proj1 (Hl eq_refl)) | vm_compute; reflexivity]|].
  split; [exact (proj1 (Hw eq_refl)) | reflexivity].
Defined.

(** ** Surfaces and their cells *)

Lemma cell_map2d_Some {A B C} (f : A → B → C) a b i j c :
  cell (map2d f a b) i j = Some c ↔
  ∃ u v, cell a i j = Some u ∧ cell b i j = Some v ∧ c = f u v.
Proof.
  unfold cell, map2d. rewrite lookup_zip_with.
  destruct (a !! i) as [ra|]; simpl.
  - destruct (b !! i) as [rb|]; simpl.
    + rewrite lookup_zip_with.
      destruct (ra !! j) as [u|]; simpl.
      * destruct (rb !! j) as [v|]; simpl.
        -- split; [intros [= <-]; by exists u, v|].
           by intros (u' & v' & [= <-] & [= <-] & ->).
        -- split; [done|]. by intros (? & ? & _ & ? & _).
      * split; [done|]. by intros (? & ? & ? & _).
    + split; [done|]. by intros (? & ? & _ & ? & _).
  - split; [done|]. by intros (? & ? & ? & _).
Qed.

Lemma elem_of_concat_cell {A} (a : list (list A)) (x : A) :
  x ∈ concat a ↔ ∃ i j, cell a i j = Some x.
Proof.
  rewrite list_elem_of_In, in_concat. unfold cell. split.
  - intros (row & Hrow & Hx).
    apply list_elem_of_In, list_elem_of_lookup in Hrow as [i Hi].
    apply list_elem_of_In, list_elem_of_lookup in Hx as [j Hj].
    exists i, j. by rewrite Hi.
  - intros (i & j & Hc). destruct (a !! i) as [row|] eqn:Hrow; [|done].
    exists row. split; apply list_elem_of_In, list_elem_of_lookup; eauto.
Qed.

Lemma elem_of_indexed {A} (a : list (list A)) i j (x : A) :
  ((i, j), x) ∈ indexed a ↔ cell a i j = Some x.
Proof.
  unfold indexed. rewrite list_elem_of_In, in_concat. unfold cell. split.
  - intros (l & Hl & Hx).
    apply list_elem_of_In, elem_of_lookup_imap in Hl as (i' & row & -> & Hrow).
    apply list_elem_of_In, elem_of_lookup_imap in Hx as (j' & y & [= -> -> ->] & Hy).
    by rewrite Hrow.
  - intros Hc. destruct (a !! i) as [row|] eqn:Hrow; [|done]. simpl in Hc.
    exists (imap (λ j v, ((i, j), v)) row). split; apply list_elem_of_In.
    + by apply (elem_of_lookup_imap_2 (λ i row, imap (λ j v, ((i, j), v)) row)).
    + by apply (elem_of_lookup_imap_2 (λ j v, ((i, j), v))).
Qed.

(** ** The order on extended reals *)

Lemma xle_refl (a : xR) : a ≠ NaN → xle a a.
Proof. destruct a; simpl; first [done | intros _; lra]. Qed.

Lemma xle_trans (a b c : xR) : xle a b → xle b c → xle a c.
Proof. destruct a, b, c; simpl; first [done | lra]. Qed.

Lemma xlt_xle (a b : xR) : xlt a b → xle a b.
Proof. destruct a, b; simpl; first [done | lra]. Qed.

Lemma not_xlt_xle (a b : xR) : a ≠ NaN → b ≠ NaN → ¬ xlt a b → xle b a.
Proof. destruct a, b; simpl; first [done | tauto | lra]. Qed.

Lemma is_nan_false (a : xR) : is_nan a = false ↔ a ≠ NaN.
Proof. by destruct a. Qed.

(** ** The optimum *)

Lemma argmax_fold_spec {K} (l : list (K * xR)) (best : option (K * xR)) :
  match best with Some b => b.2 ≠ NaN | None => True end →
  match fold_left argmax_step l best with
  | None => best = None ∧ ∀ kv, kv ∈ l → kv.2 = NaN
  | Some r =>
      r.2 ≠ NaN ∧ (best = Some r ∨ r ∈ l) ∧
      (∀ kv, kv ∈ l → kv.2 ≠ NaN → xle kv.2 r.2) ∧
      match best with Some b => xle b.2 r.2 | None => True end
  end.
Proof.
  revert best. induction l as [|kv l IH]; intros best Hb; simpl.
  - destruct best as [b|].
    + split; [done|]. split; [by left|]. split; [by intros ? ?%not_elem_of_nil|].
      by apply xle_refl.
    + split; [done|]. by intros ? ?%not_elem_of_nil.
  - unfold argmax_step at 2.
    destruct (is_nan kv.2) eqn:Hnan.
    + (* a nan is skipped *)
      specialize (IH best Hb).
      destruct (fold_left argmax_step l best) as [r|].
      * destruct IH as (Hr & Hin & Hmax & Hbr). split; [done|].
        split; [destruct Hin; [by left | right; by apply list_elem_of_further]|].
        split; [|done]. intros kv' [->|Hin']%elem_of_cons Hn.
        -- destruct (kv.2); done.
        -- by apply Hmax.
      * destruct IH as [-> Hall]. split; [done|].
        intros kv' [->|Hin']%elem_of_cons; [by destruct (kv.2) | by apply Hall].
    + apply is_nan_false in Hnan.
      destruct best as [b|].
      * destruct (decide (xlt b.2 kv.2)) as [Hlt|Hnlt].
        -- specialize (IH (Some kv) Hnan).
           destruct (fold_left argmax_step l (Some kv)) as [r|]; [|by destruct IH].
           destruct IH as (Hr & Hin & Hmax & Hkr). split; [done|].
           split; [right; destruct Hin as [[= ->]|Hin]; [by left | by right]|].
           split.
           ++ intros kv' [->|Hin']%elem_of_cons Hn; [done | by apply Hmax].
           ++ eapply xle_trans; [by apply xlt_xle | done].
        -- specialize (IH (Some b) Hb).
           destruct (fold_left argmax_step l (Some b)) as [r|]; [|by destruct IH].
           destruct IH as (Hr & Hin & Hmax & Hbr). split; [done|].
           split; [destruct Hin; [by left | right; by right]|].
           split; [|done].
           intros kv' [->|Hin']%elem_of_cons Hn; [|by apply Hmax].
           eapply xle_trans; [|done]. by apply not_xlt_xle.
      * specialize (IH (Some kv) Hnan).
        destruct (fold_left argmax_step l (Some kv)) as [r|]; [|by destruct IH].
        destruct IH as (Hr & Hin & Hmax & Hkr). split; [done|].
        split; [right; destruct Hin as [[= ->]|Hin]; [by left | by right]|].
        split; [|done].
        intros kv' [->|Hin']%elem_of_cons Hn; [done | by apply Hmax].
Qed.

Lemma xdiv_zero_zero : xdiv (Fin 0) (Fin 0) = NaN.
Proof. unfold xdiv. by rewrite !decide_True. Qed.

(** What the optimum-location step returns: a cell whose ratio is defined,
    not [lam1 = lam2 = 0], and at least the ratio of every cell whose ratio
    is defined. *)
Lemma max_idx_ratio_spec (lam1 lam2 : list (list R)) (i j : nat) :
  max_idx (ratio lam1 lam2) = Ok (i, j) →
  ∃ l1 l2,
    cell lam1 i j = Some l1 ∧ cell lam2 i j = Some l2 ∧
    cell (ratio lam1 lam2) i j = Some (xdiv (Fin l1) (Fin l2)) ∧
    xdiv (Fin l1) (Fin l2) ≠ NaN ∧ ¬ (l1 = 0%R ∧ l2 = 0%R) ∧
    ∀ i' j' r, cell (ratio lam1 lam2) i' j' = Some r → r ≠ NaN →
               xle r (xdiv (Fin l1) (Fin l2)).
Proof.
  unfold max_idx. intros Hmax.
  pose proof (argmax_fold_spec (indexed (ratio lam1 lam2)) None I) as Hspec.
  destruct (fold_left argmax_step (indexed (ratio lam1 lam2)) None)
    as [[ij r]|]; [|done].
  injection Hmax as ->. simpl in Hspec.
  destruct Hspec as (Hr & [Hin|Hin] & Hbest & _); [done|].
  apply elem_of_indexed in Hin.
  pose proof Hin as Hcell.
  apply cell_map2d_Some in Hin as (l1 & l2 & H1 & H2 & ->).
  exists l1, l2. repeat split; try done.
  - intros [-> ->]. by rewrite xdiv_zero_zero in Hr.
  - intros i' j' r' Hc' Hn'. apply elem_of_indexed in Hc'.
    by apply (Hbest ((i', j'), r')).
Qed.

(** C3: a cell without variance ([lam1 = lam2 = 0], whose ratio [0/0] is
    [nan]) is never the optimum, and no [nan] reaches the reported angle and
    delay.  Whenever the optimum-location step reports an angle and a delay,
    they are the grid values at a cell [(i, j)] whose ratio is not [nan] and
    is at least the ratio of every cell whose ratio is defined, and every
    cell with [lam1 = lam2 = 0] has a [nan] ratio and is another cell than
    [(i, j)]. *)
Theorem max_idx_skips_zero_variance (degs : list (list R)) (lags : list (list Z))
    (lam1 lam2 : list (list R)) (fast : R) (lag : Z) :
  locate_optimum degs lags lam1 lam2 = Ok (fast, lag) →
  ∃ i j l1 l2,
    max_idx (ratio lam1 lam2) = Ok (i, j) ∧
    cell degs i j = Some fast ∧ cell lags i j = Some lag ∧
    cell lam1 i j = Some l1 ∧ cell lam2 i j = Some l2 ∧
    cell (ratio lam1 lam2) i j = Some (xdiv (Fin l1) (Fin l2)) ∧
    xdiv (Fin l1) (Fin l2) ≠ NaN ∧ ¬ (l1 = 0%R ∧ l2 = 0%R) ∧
    (∀ i' j' r, cell (ratio lam1 lam2) i' j' = Some r → r ≠ NaN →
                xle r (xdiv (Fin l1) (Fin l2))) ∧
    (∀ i' j', cell lam1 i' j' = Some 0%R → cell lam2 i' j' = Some 0%R →
              cell (ratio lam1 lam2) i' j' = Some NaN ∧ (i', j') ≠ (i, j)).
Proof.
  unfold locate_optimum. intros Hopt.
  destruct (max_idx (ratio lam1 lam2)) as [[i j]|e] eqn:Hmax; [|done].
  cbn [mbind result_bind fst snd] in Hopt. unfold get2 in Hopt.
  fold (cell degs i j) in Hopt. fold (cell lags i j) in Hopt.
  destruct (cell degs i j) as [d|] eqn:Hd; [|done].
  destruct (cell lags i j) as [l|] eqn:Hl; [|done].
  cbn [mbind result_bind] in Hopt. injection Hopt as -> ->.
  destruct (max_idx_ratio_spec lam1 lam2 i j Hmax)
    as (l1 & l2 & H1 & H2 & Hc & Hn & Hnz & Hbest).
  exists i, j, l1, l2.
  do 9 (split; [done|]).
  intros i' j' H1' H2'. split.
  - apply cell_map2d_Some. exists 0%R, 0%R. by rewrite xdiv_zero_zero.
  - intros [= -> ->]. rewrite H1 in H1'. rewrite H2 in H2'.
    injection H1' as ->. injection H2' as ->. by apply Hnz.
Qed.

Lemma xdiv_fin (a b : R) : b ≠ 0%R → xdiv (Fin a) (Fin b) = Fin (a / b).
Proof. intros Hb. unfold xdiv. by rewrite decide_False. Qed.

Lemma max_idx_skips_zero_variance_witness :
  ∃ i j l1 l2,
    max_idx (ratio [[0; 4]]%R [[0; 2]]%R) = Ok (i, j) ∧
    cell [[-90; 0]]%R i j = Some 0%R ∧ cell [[2; 2]]%Z i j = Some 2%Z ∧
    cell [[0; 4]]%R i j = Some l1 ∧ cell [[0; 2]]%R i j = Some l2 ∧
    cell (ratio [[0; 4]]%R [[0; 2]]%R) i j = Some (xdiv (Fin l1) (Fin l2)) ∧
    xdiv (Fin l1) (Fin l2) ≠ NaN ∧ ¬ (l1 = 0%R ∧ l2 = 0%R) ∧
    (∀ i' j' r, cell (ratio [[0; 4]]%R [[0; 2]]%R) i' j' = Some r → r ≠ NaN →
                xle r (xdiv (Fin l1) (Fin l2))) ∧
    (∀ i' j', cell [[0; 4]]%R i' j' = Some 0%R → cell [[0; 2]]%R i' j' = Some 0%R →
              cell (ratio [[0; 4]]%R [[0; 2]]%R) i' j' = Some NaN ∧ (i', j') ≠ (i, j)).
Proof.
  apply (max_idx_skips_zero_variance [[-90; 0]]%R [[2; 2]]%Z [[0; 4]]%R [[0; 2]]%R 0 2).
  unfold locate_optimum, max_idx, ratio, map2d, indexed.
  cbn [zip_with imap concat app].
  rewrite xdiv_zero_zero, (xdiv_fin 4 2) by lra. reflexivity.
Defined.

(** ** The second signal-to-noise estimate *)

Lemma fold_xmaximum_fin (l : list xR) (a : R) :
  Forall is_finite l →
  ∃ M, fold_left xmaximum l (Fin a) = Fin M ∧ Fin M ∈ Fin a :: l ∧
       ∀ v, Fin v ∈ Fin a :: l → (v <= M)%R.
Proof.
  revert a. induction l as [|x l IH]; intros a Hfin; simpl.
  - exists a. split; [done|]. split; [by left|].
    intros v [[= ->]|?%not_elem_of_nil]%elem_of_cons; [lra | done].
  - apply Forall_cons in Hfin as [[b ->] Hfin]. simpl.
    destruct (decide (a < b)%R) as [Hlt|Hnlt].
    + destruct (IH b Hfin) as (M & -> & Hin & Hmax).
      exists M. split; [done|]. split; [by right|].
      intros v [[= ->]|Hv]%elem_of_cons; [|by apply Hmax].
      pose proof (Hmax b ltac:(by left)). lra.
    + destruct (IH a Hfin) as (M & -> & Hin & Hmax).
      exists M. split; [done|].
      split; [apply elem_of_cons in Hin as [->|Hin]; [by left | by do 2 right]|].
      intros v [[= ->]|[[= ->]|Hv]%elem_of_cons]%elem_of_cons.
      * apply Hmax. by left.
      * pose proof (Hmax a ltac:(by left)). lra.
      * apply Hmax. by right.
Qed.

Lemma np_max_fin (l : list xR) :
  l ≠ [] → Forall is_finite l →
  ∃ M, np_max l = Ok (Fin M) ∧ Fin M ∈ l ∧ ∀ v, Fin v ∈ l → (v <= M)%R.
Proof.
  destruct l as [|x l]; [done|]. intros _ [[a ->] Hfin]%Forall_cons. simpl.
  destruct (fold_xmaximum_fin l a Hfin) as (M & -> & Hin & Hmax). by exists M.
Qed.

(** Where [lam2] is positive, the estimate [(lam1 - lam2) / (2 lam2)] grows
    with the ratio [lam1 / lam2]. *)
Lemma snr_monotone (u v l1 l2 : R) :
  (0 < v)%R → (0 < l2)%R → (u / v <= l1 / l2)%R →
  ((u - v) / (2 * v) <= (l1 - l2) / (2 * l2))%R.
Proof.
  intros Hv Hl Hle.
  replace ((u - v) / (2 * v))%R with ((u / v - 1) / 2)%R by (field; lra).
  replace ((l1 - l2) / (2 * l2))%R with ((l1 / l2 - 1) / 2)%R by (field; lra).
  lra.
Qed.

(** C6: where the [lam2] surface is positive, the second signal-to-noise
    estimate [np.max((lam1 - lam2) / (2 lam2))] is the value of
    [(lam1 - lam2) / (2 lam2)] at the grid optimum: at any cell [(i, j)]
    whose ratio [lam1 / lam2] is at least the ratio of every cell. *)
Theorem snr_at_optimum (lam1 lam2 : list (list R)) (i j : nat) (l1 l2 : R) :
  (∀ i' j' v, cell lam2 i' j' = Some v → (0 < v)%R) →
  cell lam1 i j = Some l1 → cell lam2 i j = Some l2 →
  (∀ i' j' r, cell (ratio lam1 lam2) i' j' = Some r →
              xle r (xdiv (Fin l1) (Fin l2))) →
  snr lam1 lam2 = Ok (Fin ((l1 - l2) / (2 * l2))) ∧
  cell (snr_surface lam1 lam2) i j = Some (Fin ((l1 - l2) / (2 * l2))).
Proof.
  intros Hpos H1 H2 Hopt.
  pose proof (Hpos i j l2 H2) as Hl2.
  assert (cell (snr_surface lam1 lam2) i j = Some (Fin ((l1 - l2) / (2 * l2))))
    as Hcell.
  { apply cell_map2d_Some. exists l1, l2. repeat split; try done.
    rewrite xdiv_fin by lra. done. }
  split; [|done]. unfold snr.
  destruct (np_max_fin (concat (snr_surface lam1 lam2))) as (M & HM & Hin & Hmax).
  - intros Hnil.
    assert (Fin ((l1 - l2) / (2 * l2)) ∈ concat (snr_surface lam1 lam2)) as Hel
      by (apply elem_of_concat_cell; eauto).
    rewrite Hnil in Hel. by apply not_elem_of_nil in Hel.
  - apply Forall_forall. intros x (i' & j' & Hx)%elem_of_concat_cell.
    apply cell_map2d_Some in Hx as (u & v & _ & Hv & ->).
    pose proof (Hpos i' j' v Hv). rewrite xdiv_fin by lra. by eexists.
  - rewrite HM. do 2 f_equal. apply Rle_antisym.
    + apply elem_of_concat_cell in Hin as (i' & j' & Hx).
      apply cell_map2d_Some in Hx as (u & v & Hu & Hv & Hx).
      pose proof (Hpos i' j' v Hv) as Hv0.
      rewrite xdiv_fin in Hx by lra. injection Hx as ->.
      apply snr_monotone; [done | done |].
      specialize (Hopt i' j' (xdiv (Fin u) (Fin v))).
      rewrite !xdiv_fin in Hopt by lra. apply Hopt.
      apply cell_map2d_Some. exists u, v. repeat split; try done.
      rewrite xdiv_fin by lra. done.
    + apply Hmax. apply elem_of_concat_cell. eauto.
Qed.

Lemma snr_at_optimum_witness :
  snr [[2; 3]]%R [[1; 1]]%R = Ok (Fin ((3 - 1) / (2 * 1))) ∧
  cell (snr_surface [[2; 3]]%R [[1; 1]]%R) 0 1 = Some (Fin ((3 - 1) / (2 * 1))).
Proof.
  apply (snr_at_optimum [[2; 3]]%R [[1; 1]]%R 0 1 3 1).
  - intros [|i'] [|[|j']] v Hv; cbn in Hv; try done; injection Hv as <-; lra.
  - reflexivity.
  - reflexivity.
  - intros [|i'] [|[|j']] r Hr; cbn -[xdiv] in Hr; try done;
      rewrite xdiv_fin in Hr by lra; injection Hr as <-;
      rewrite xdiv_fin by lra; simpl; lra.
Defined.

(** ** The self-similarity diagnostic *)

Example np_roll_by_one :
  np_roll [1; 2; 3; 4]%Z 1 = [4; 1; 2; 3]%Z ∧ np_roll [1; 2; 3; 4]%Z 2 = [3; 4; 1; 2]%Z.
Proof. split; reflexivity. Qed.

Lemma Forall_fin_fmap (P : R → Prop) (l : list xR) :
  Forall (λ x, ∃ v, x = Fin v ∧ P v) l → ∃ p, l = Fin <$> p ∧ Forall P p.
Proof.
  induction 1 as [|x l (v & -> & Hv) _ (p & -> & Hp)].
  - by exists [].
  - exists (v :: p). split; [done | by constructor].
Qed.

Lemma Forall_rows_fin_fmap (P : R → Prop) (a : list (list xR)) :
  Forall (Forall (λ x, ∃ v, x = Fin v ∧ P v)) a →
  ∃ rr : list (list R), a = fmap (M:=list) Fin <$> rr ∧ Forall (Forall P) rr.
Proof.
  induction 1 as [|row a Hrow _ (rr & -> & Hrr)].
  - by exists [].
  - destruct (Forall_fin_fmap P row Hrow) as (r & -> & Hr).
    exists (r :: rr). split; [done | by constructor].
Qed.

Lemma has_shape_map2d {A B C} (f : A → B → C) a b nr nc :
  has_shape a nr nc → has_shape b nr nc → has_shape (map2d f a b) nr nc.
Proof.
  intros [Hla Hra] [Hlb Hrb]. unfold map2d. split.
  - rewrite length_zip_with. lia.
  - apply Forall_lookup. intros i row Hrow.
    rewrite lookup_zip_with in Hrow.
    destruct (a !! i) as [ra|] eqn:Ha; [|done].
    destruct (b !! i) as [rb|] eqn:Hb; [|done].
    injection Hrow as <-. rewrite length_zip_with.
    rewrite (proj1 (Forall_lookup _ _) Hra i ra Ha).
    rewrite (proj1 (Forall_lookup _ _) Hrb i rb Hb). lia.
Qed.

Lemma np_sum_fin (l : list R) : np_sum (Fin <$> l) = Fin (Rsum l).
Proof.
  unfold np_sum. induction l as [|v l IH]; [done|].
  rewrite fmap_cons. cbn [foldr]. by rewrite IH.
Qed.

Lemma zip_with_fin (f : R → R → R) (g : xR → xR → xR) (p q : list R) :
  (∀ a b, g (Fin a) (Fin b) = Fin (f a b)) →
  zip_with g (Fin <$> p) (Fin <$> q) = Fin <$> zip_with f p q.
Proof.
  intros Hg. revert q. induction p as [|a p IH]; intros [|b q]; try done.
  rewrite !fmap_cons. cbn [zip_with]. by rewrite Hg, IH.
Qed.

Lemma np_roll_fmap {A B} (f : A → B) (l : list A) (k : nat) :
  np_roll (f <$> l) k = f <$> np_roll l k.
Proof.
  unfold np_roll. by rewrite length_fmap, fmap_app, fmap_drop, fmap_take.
Qed.

Lemma np_roll_length {A} (l : list A) (k : nat) : length (np_roll l k) = length l.
Proof.
  unfold np_roll. rewrite length_app, length_drop, length_take. lia.
Qed.

Lemma np_roll_Forall {A} (P : A → Prop) (l : list A) (k : nat) :
  Forall P l → Forall P (np_roll l k).
Proof.
  intros H. unfold np_roll. apply Forall_app.
  split; [by apply Forall_drop | by apply Forall_take].
Qed.

Lemma colsum_fin (z : list R) (rr : list (list R)) :
  foldr (zip_with xadd) (Fin <$> z) (fmap (M:=list) Fin <$> rr)
  = Fin <$> foldr (zip_with Rplus) z rr.
Proof.
  induction rr as [|r rr IH]; [done|].
  rewrite fmap_cons. cbn [foldr]. rewrite IH. by apply zip_with_fin.
Qed.

Lemma zip_with_Rplus_pos (r acc : list R) :
  length r = length acc → Forall (λ v, 0 < v)%R r → Forall (λ v, 0 <= v)%R acc →
  Forall (λ v, 0 < v)%R (zip_with Rplus r acc).
Proof.
  revert acc. induction r as [|a r IH]; intros [|b acc] Hl Hr Hacc; simpl in *;
    try done.
  apply Forall_cons in Hr as [Ha Hr]. apply Forall_cons in Hacc as [Hb Hacc].
  constructor; [lra|]. apply IH; [lia | done | done].
Qed.

Lemma colsum_nonneg (nd : nat) (rr : list (list R)) :
  Forall (λ r, length r = nd) rr → Forall (Forall (λ v, 0 < v)%R) rr →
  length (foldr (zip_with Rplus) (replicate nd 0%R) rr) = nd ∧
  Forall (λ v, 0 <= v)%R (foldr (zip_with Rplus) (replicate nd 0%R) rr).
Proof.
  induction rr as [|r rr IH]; intros Hlen Hpos; simpl.
  - split; [apply length_replicate|]. apply Forall_replicate. lra.
  - apply Forall_cons in Hlen as [Hr Hlen]. apply Forall_cons in Hpos as [Hp Hpos].
    destruct (IH Hlen Hpos) as [Hl Hnn].
    split; [rewrite length_zip_with; lia|].
    eapply Forall_impl; [apply zip_with_Rplus_pos; [lia | done | done]|].
    simpl. intros. lra.
Qed.

Lemma colsum_pos (nd : nat) (rr : list (list R)) :
  rr ≠ [] →
  Forall (λ r, length r = nd) rr → Forall (Forall (λ v, 0 < v)%R) rr →
  length (foldr (zip_with Rplus) (replicate nd 0%R) rr) = nd ∧
  Forall (λ v, 0 < v)%R (foldr (zip_with Rplus) (replicate nd 0%R) rr).
Proof.
  destruct rr as [|r rr]; [done|]. intros _ Hlen Hpos. simpl.
  apply Forall_cons in Hlen as [Hr Hlen]. apply Forall_cons in Hpos as [Hp Hpos].
  destruct (colsum_nonneg nd rr Hlen Hpos) as [Hl Hnn].
  split; [rewrite length_zip_with; lia|].
  apply zip_with_Rplus_pos; [lia | done | done].
Qed.

Lemma Rsum_pos (l : list R) : l ≠ [] → Forall (λ v, 0 < v)%R l → (0 < Rsum l)%R.
Proof.
  destruct l as [|a l]; [done|]. intros _ [Ha Hl]%Forall_cons. simpl.
  assert (0 <= Rsum l)%R; [|lra].
  apply Rsum_nonneg. eapply Forall_impl; [done|]. simpl. intros. lra.
Qed.

Lemma zip_with_mult_pos (p q : list R) :
  Forall (λ v, 0 < v)%R p → Forall (λ v, 0 < v)%R q →
  Forall (λ v, 0 < v)%R (zip_with Rmult p q).
Proof.
  intros Hp. revert q. induction Hp as [|a p Ha _ IH]; intros [|b q] Hq; simpl;
    try done.
  apply Forall_cons in Hq as [Hb Hq]. constructor; [nra | by apply IH].
Qed.

Lemma fmap_sqr_nonneg (l : list R) :
  Forall (λ v, 0 <= v)%R ((λ d, d * d)%R <$> l).
Proof.
  apply Forall_fmap, Forall_forall. intros d _. simpl. nra.
Qed.

(** C10, as the claim states it, fails: a ratio surface can be positive in
    every cell without being finite.  Where [lam2] is 0 and [lam1] is not,
    the ratio is [+inf]; the angle profile then holds an infinity, both sums
    of NI are infinite and NI is [nan]. *)
Lemma ni_nan_on_infinite_ratio :
  (∀ i j r, cell (ratio [[1; 1]]%R [[0; 1]]%R) i j = Some r → xlt (Fin 0) r) ∧
  fastprofile [[1; 1]]%R [[0; 1]]%R = [PInf; Fin (1 / 1 + 0)] ∧
  ni [[0; 90]]%R (fastprofile [[1; 1]]%R [[0; 1]]%R) = NaN.
Proof.
  assert (ratio [[1; 1]]%R [[0; 1]]%R = [[PInf; Fin (1 / 1)]]) as Hratio.
  { unfold ratio, map2d. cbn [zip_with]. unfold xdiv.
    repeat case_decide; try lra.
    by rewrite (bool_decide_eq_true_2 (0 < 1)%R) by lra. }
  assert (fastprofile [[1; 1]]%R [[0; 1]]%R = [PInf; Fin (1 / 1 + 0)]) as Hprof.
  { unfold fastprofile. rewrite Hratio. reflexivity. }
  split; [|split; [done|]].
  - rewrite Hratio. intros [|i] [|[|j]] r; cbn; intros [= <-]; simpl; [done | lra].
  - rewrite Hprof. unfold ni.
    change (ncols [[0%R; 90%R]] / 2)%nat with 1%nat.
    change (np_roll [PInf; Fin (1 / 1 + 0)] 1) with [Fin (1 / 1 + 0); PInf].
    cbn [zip_with xsub xneg xadd fmap list_fmap xmul np_sum foldr].
    unfold xmul_inf. repeat case_decide; try lra. reflexivity.
Qed.

(** C10, amended: for a measurement whose ratio surface [lam1 / lam2] is
    positive and finite in every cell, the diagnostic NI is a finite,
    non-negative number: the angle
    profile (the column sums of the ratio) is positive in every entry, the
    denominator [Σ profile * rolled] is strictly positive and the numerator
    [Σ (profile - rolled)²] is non-negative.  A measurement has at least one
    candidate delay and one candidate angle: with an empty grid the
    construction stops at the optimum, before NI is computed. *)
Theorem ni_well_defined {A} (degs : list (list A)) (lam1 lam2 : list (list R))
    (nl nd : nat) :
  (0 < nl)%nat → (0 < nd)%nat →
  has_shape lam1 nl nd → has_shape lam2 nl nd →
  (∀ i j r, cell (ratio lam1 lam2) i j = Some r → ∃ v, r = Fin v ∧ (0 < v)%R) →
  ∃ (p : list R) (num den : R),
    fastprofile lam1 lam2 = Fin <$> p ∧ length p = nd ∧
    Forall (λ v, 0 < v)%R p ∧
    np_sum (zip_with xmul (fastprofile lam1 lam2)
              (np_roll (fastprofile lam1 lam2) (ncols degs / 2))) = Fin den ∧
    (0 < den)%R ∧
    np_sum ((λ d, xmul d d) <$>
              zip_with xsub (fastprofile lam1 lam2)
                (np_roll (fastprofile lam1 lam2) (ncols degs / 2))) = Fin num ∧
    (0 <= num)%R ∧
    ni degs (fastprofile lam1 lam2) = Fin (num / den) ∧ (0 <= num / den)%R.
Proof.
  intros Hnl Hnd Hs1 Hs2 Hpos.
  pose proof (has_shape_map2d (λ u v, xdiv (Fin u) (Fin v)) _ _ _ _ Hs1 Hs2)
    as [Hlen Hrows].
  fold (ratio lam1 lam2) in Hlen, Hrows.
  destruct (Forall_rows_fin_fmap (λ v, 0 < v)%R (ratio lam1 lam2)) as (rr & Hrr & Hrrpos).
  { apply Forall_lookup. intros i row Hrow. apply Forall_lookup. intros j x Hx.
    apply (Hpos i j). unfold cell. by rewrite Hrow. }
  assert (length rr = nl) as Hrrlen by (rewrite Hrr, length_fmap in Hlen; done).
  assert (Forall (λ r, length r = nd) rr) as Hrrrows.
  { rewrite Hrr in Hrows. apply Forall_fmap in Hrows.
    eapply Forall_impl; [exact Hrows|]. simpl. intros r Hr.
    by rewrite length_fmap in Hr. }
  assert (rr ≠ []) as Hne by (intros ->; simpl in Hrrlen; lia).
  destruct (colsum_pos nd rr Hne Hrrrows Hrrpos) as [Hplen Hppos].
  set (p := foldr (zip_with Rplus) (replicate nd 0%R) rr) in *.
  assert (fastprofile lam1 lam2 = Fin <$> p) as Hprof.
  { unfold fastprofile, sum_axis0. rewrite Hrr.
    assert (ncols (fmap (M:=list) Fin <$> rr) = nd) as ->.
    { destruct rr as [|r rr']; [done|]. simpl. rewrite length_fmap.
      by apply Forall_cons in Hrrrows as [-> _]. }
    replace (replicate nd (Fin 0)) with (Fin <$> replicate nd 0%R)
      by apply fmap_replicate.
    apply colsum_fin. }
  set (q := np_roll p (ncols degs / 2)).
  assert (Forall (λ v, 0 < v)%R q) as Hqpos by (by apply np_roll_Forall).
  assert (length q = nd) as Hqlen by (unfold q; by rewrite np_roll_length).
  assert (p ≠ []) as Hpne by (intros Hp; rewrite Hp in Hplen; simpl in Hplen; lia).
  set (den := Rsum (zip_with Rmult p q)).
  set (num := Rsum ((λ d, d * d)%R <$> zip_with Rminus p q)).
  assert (0 < den)%R as Hden.
  { apply Rsum_pos; [|by apply zip_with_mult_pos].
    intros Hz. apply (f_equal length) in Hz. rewrite length_zip_with in Hz.
    simpl in Hz. lia. }
  assert (0 <= num)%R as Hnum by (apply Rsum_nonneg, fmap_sqr_nonneg).
  assert (np_sum (zip_with xmul (fastprofile lam1 lam2)
            (np_roll (fastprofile lam1 lam2) (ncols degs / 2))) = Fin den) as Hd.
  { rewrite Hprof, np_roll_fmap. fold q.
    rewrite (zip_with_fin Rmult xmul) by done. apply np_sum_fin. }
  assert (np_sum ((λ d, xmul d d) <$>
            zip_with xsub (fastprofile lam1 lam2)
              (np_roll (fastprofile lam1 lam2) (ncols degs / 2))) = Fin num) as Hn.
  { rewrite Hprof, np_roll_fmap. fold q.
    rewrite (zip_with_fin Rminus xsub) by done.
    rewrite <- list_fmap_compose.
    rewrite (list_fmap_ext _ (Fin ∘ (λ d, d * d)%R) (zip_with Rminus p q))
      by done.
    rewrite list_fmap_compose. apply np_sum_fin. }
  exists p, num, den. repeat split; try done.
  - unfold ni. rewrite Hd, Hn. apply xdiv_fin. lra.
  - apply Rmult_le_pos; [done|]. left. by apply Rinv_0_lt_compat.
Qed.

Lemma ni_well_defined_witness :
  ∃ (p : list R) (num den : R),
    fastprofile [[2; 3]]%R [[1; 1]]%R = Fin <$> p ∧ length p = 2%nat ∧
    Forall (λ v, 0 < v)%R p ∧
    np_sum (zip_with xmul (fastprofile [[2; 3]]%R [[1; 1]]%R)
              (np_roll (fastprofile [[2; 3]]%R [[1; 1]]%R)
                 (ncols [[0; 90]]%R / 2))) = Fin den ∧
    (0 < den)%R ∧
    np_sum ((λ d, xmul d d) <$>
              zip_with xsub (fastprofile [[2; 3]]%R [[1; 1]]%R)
                (np_roll (fastprofile [[2; 3]]%R [[1; 1]]%R)
                   (ncols [[0; 90]]%R / 2))) = Fin num ∧
    (0 <= num)%R ∧
    ni [[0; 90]]%R (fastprofile [[2; 3]]%R [[1; 1]]%R) = Fin (num / den) ∧
    (0 <= num / den)%R.
Proof.
  apply (ni_well_defined [[0; 90]]%R [[2; 3]]%R [[1; 1]]%R 1 2).
  - lia.
  - lia.
  - split; [done|]. by repeat constructor.
  - split; [done|]. by repeat constructor.
  - intros [|i] [|[|j]] r Hr; cbn -[xdiv] in Hr; try done;
      rewrite xdiv_fin in Hr by lra; injection Hr as <-;
      eexists; (split; [done|]); lra.
Defined.

(** ** The confidence threshold *)

Lemma Rpower_neg_two (x : R) : (0 < x)%R → Rpower x (- 2 / 1) = (/ (x * x))%R.
Proof.
  intros Hx. replace (- 2 / 1)%R with (- INR 2)%R by (simpl; lra).
  rewrite Rpower_Ropp, Rpower_pow by done. simpl. by rewrite Rmult_1_r.
Qed.

Lemma f_ppf2_valid (q dfd : R) :
  (0 < dfd)%R → (0 < q < 1)%R →
  f_ppf2 q dfd = Fin (dfd / 2 * (Rpower (1 - q) (- 2 / dfd) - 1)).
Proof. intros Hd Hq. unfold f_ppf2. by rewrite !decide_True. Qed.

Lemma div_by_ndf_fin (k : R) (ndf : scalar) :
  (scalar_val ndf - k)%R ≠ 0%R →
  div_by_ndf k ndf = Ok (Fin (k / (scalar_val ndf - k))).
Proof.
  intros Hne. destruct ndf as [v|v]; cbn [div_by_ndf scalar_val] in *.
  - by rewrite xdiv_fin.
  - by rewrite decide_False.
Qed.

(** C5, as the claim states it, fails: with [ndf = 1 <= 2] and
    [alpha = 0.05] the 95% quantile of F(2, 1) is 199.5, the factor
    [k / (ndf - k)] is [-2], and [ftest] returns the finite threshold
    [lam2min * (1 - 399) = -398] for a surface whose minimum is 1, whether
    [ndf] is a numpy scalar or a Python number. *)
Lemma ftest_finite_below_two :
  ftest [[1]]%R (NpFloat 1) (1 / 20) = Ok (Fin (-398)) ∧
  ftest [[1]]%R (PyFloat 1) (1 / 20) = Ok (Fin (-398)).
Proof.
  split; unfold ftest; change (np_min (concat [[1%R]])) with (Ok (A:=R) 1%R);
    cbn [mbind result_bind scalar_val];
    rewrite f_ppf2_valid by lra;
    replace (1 - (1 - 1 / 20))%R with (1 / 20)%R by lra;
    rewrite Rpower_neg_two by lra;
    rewrite div_by_ndf_fin by (cbn [scalar_val]; lra);
    cbn [mbind result_bind scalar_val xmul xadd]; do 2 f_equal; field.
Qed.

Lemma xmul_pinf_not_finite (F : xR) : ¬ is_finite (xmul PInf F).
Proof.
  intros [r Hr]. destruct F as [f| | |]; simpl in Hr; try done.
  unfold xmul_inf in Hr. repeat case_decide; done.
Qed.

Lemma xadd_not_finite (a b : xR) : ¬ is_finite b → ¬ is_finite (xadd a b).
Proof.
  intros Hb [r Hr]. destruct a, b; simpl in Hr; try done. apply Hb. by eexists.
Qed.

Lemma xmul_not_finite (a b : xR) : ¬ is_finite b → ¬ is_finite (xmul a b).
Proof.
  intros Hb [r Hr]. destruct a as [x| | |], b as [y| | |]; simpl in Hr; try done;
    try (apply Hb; by eexists);
    unfold xmul_inf in Hr; repeat case_decide; done.
Qed.

Lemma f_ppf2_pos (q dfd : R) :
  (0 < dfd)%R → (0 < q < 1)%R → ∃ F, f_ppf2 q dfd = Fin F ∧ (0 < F)%R.
Proof.
  intros Hd Hq. rewrite f_ppf2_valid by done.
  eexists. split; [done|].
  assert (1 < Rpower (1 - q) (- 2 / dfd))%R as Hp.
  { unfold Rpower.
    assert (ln (1 - q) < 0)%R as Hln.
    { rewrite <- ln_1. apply ln_increasing; lra. }
    assert (0 < - 2 / dfd * ln (1 - q))%R as Hexp.
    { replace (- 2 / dfd * ln (1 - q))%R with (2 / dfd * - ln (1 - q))%R
        by (field; lra).
      apply Rmult_lt_0_compat; [|lra].
      apply Rdiv_lt_0_compat; lra. }
    pose proof (exp_ineq1 (- 2 / dfd * ln (1 - q)) ltac:(lra)). lra. }
  apply Rmult_lt_0_compat; lra.
Qed.

(** C5, amended: what [ftest] does for [ndf <= 2].  At [ndf = 2] the
    division [k / (ndf - k)] is a division by zero: for a Python number it
    raises [ZeroDivisionError], for a numpy scalar (what [eigval.ndf]
    returns) it gives an infinity and the threshold is not finite (an
    infinity or [nan]).  For [ndf <= 0] the F quantile is undefined and the
    threshold is [nan].  For [0 < ndf < 2] and [0 < alpha < 1] the threshold
    is the finite value [lam2min * (1 + (2 / (ndf - 2)) * F)] with [F > 0]
    and a negative factor [2 / (ndf - 2)]. *)
Theorem ftest_degenerate (lam2 : list (list R)) (lam2min : R) (ndf : scalar)
    (alpha : R) :
  np_min (concat lam2) = Ok lam2min →
  (ndf = PyFloat 2 → ftest lam2 ndf alpha = Raise ZeroDivisionError) ∧
  (ndf = NpFloat 2 → ∃ t, ftest lam2 ndf alpha = Ok t ∧ ¬ is_finite t) ∧
  ((scalar_val ndf <= 0)%R → ftest lam2 ndf alpha = Ok NaN) ∧
  ((0 < scalar_val ndf < 2)%R → (0 < alpha < 1)%R →
     ∃ F, (0 < F)%R ∧ (2 / (scalar_val ndf - 2) < 0)%R ∧
       ftest lam2 ndf alpha
       = Ok (Fin (lam2min * (1 + 2 / (scalar_val ndf - 2) * F)))).
Proof.
  intros Hmin. unfold ftest. rewrite Hmin. cbn [mbind result_bind].
  split; [|split; [|split]].
  - intros ->. cbn [div_by_ndf]. by rewrite decide_True by lra.
  - intros ->. cbn [div_by_ndf scalar_val mbind result_bind].
    eexists. split; [done|].
    replace (2 - 2)%R with 0%R by lra.
    assert (xdiv (Fin 2) (Fin 0) = PInf) as ->.
    { unfold xdiv. rewrite decide_True by done. rewrite decide_False by lra.
      by rewrite bool_decide_eq_true_2 by lra. }
    apply xmul_not_finite, xadd_not_finite, xmul_pinf_not_finite.
  - intros Hle. rewrite div_by_ndf_fin by lra. cbn [mbind result_bind].
    unfold f_ppf2. by rewrite decide_False by lra.
  - intros Hndf Halpha.
    destruct (f_ppf2_pos (1 - alpha) (scalar_val ndf)) as (F & -> & HF);
      [lra | lra |].
    exists F. split; [done|].
    split.
    + apply Ropp_lt_cancel. rewrite Ropp_0.
      replace (- (2 / (scalar_val ndf - 2)))%R with (2 / (2 - scalar_val ndf))%R
        by (field; lra).
      apply Rdiv_lt_0_compat; lra.
    + rewrite div_by_ndf_fin by lra. done.
Qed.

Lemma ftest_degenerate_witness :
  ftest [[1]]%R (PyFloat 2) (1 / 20) = Raise ZeroDivisionError ∧
  (∃ t, ftest [[1]]%R (NpFloat 2) (1 / 20) = Ok t ∧ ¬ is_finite t) ∧
  ftest [[1]]%R (NpFloat 0) (1 / 20) = Ok NaN ∧
  (∃ F, (0 < F)%R ∧ (2 / (1 - 2) < 0)%R ∧
     ftest [[1]]%R (PyFloat 1) (1 / 20) = Ok (Fin (1 * (1 + 2 / (1 - 2) * F)))).
Proof.
  split; [|split; [|split]].
  - apply (ftest_degenerate [[1]]%R 1 (PyFloat 2) (1 / 20)); reflexivity.
  - apply (ftest_degenerate [[1]]%R 1 (NpFloat 2) (1 / 20)); reflexivity.
  - apply (ftest_degenerate [[1]]%R 1 (NpFloat 0) (1 / 20));
      [reflexivity | cbn [scalar_val]; lra].
  - apply (ftest_degenerate [[1]]%R 1 (PyFloat 1) (1 / 20));
      [reflexivity | cbn [scalar_val]; lra | lra].
Defined.

(** ** The degrees of freedom *)

Lemma ndf_weights_spec (n : nat) :
  (0 < n)%nat →
  (a ← set1 (replicate n 1%R) 0 (1 / 2)%R; set_last a (1 / 2)%R)
  = Ok (bin_weight n <$> seq 0 n).
Proof.
  intros Hn. unfold set_last, set1.
  rewrite decide_True by (rewrite length_replicate; lia).
  cbn [mbind result_bind].
  rewrite decide_False by (rewrite length_insert, length_replicate; lia).
  rewrite decide_True by (rewrite !length_insert, length_replicate; lia).
  f_equal. rewrite length_insert, length_replicate.
  apply list_eq. intros k.
  rewrite list_lookup_fmap.
  destruct (decide (k < n)%nat) as [Hk|Hk].
  - rewrite lookup_seq_lt by done. simpl. unfold bin_weight.
    destruct (decide (k = n - 1)%nat) as [->|Hne1].
    + rewrite list_lookup_insert_eq by (rewrite length_insert, length_replicate; lia).
      by rewrite decide_True by (by right).
    + rewrite list_lookup_insert_ne by done.
      destruct (decide (k = 0)%nat) as [->|Hne0].
      * rewrite list_lookup_insert_eq by (rewrite length_replicate; lia).
        by rewrite decide_True by (by left).
      * rewrite list_lookup_insert_ne by done.
        rewrite lookup_replicate_2 by done.
        by rewrite decide_False by lia.
  - rewrite lookup_seq_ge by lia. simpl.
    apply lookup_ge_None_2. rewrite !length_insert, length_replicate. lia.
Qed.

Lemma bin_power_nonneg (y : list R) (k : nat) : (0 <= bin_power y k)%R.
Proof. unfold bin_power. nra. Qed.

Lemma amp_pow2 (y : list R) (k : nat) :
  (np_absolute (dft_re y k, dft_im y k) ^ 2 = bin_power y k)%R.
Proof.
  unfold np_absolute. simpl. rewrite Rmult_1_r.
  apply sqrt_sqrt, bin_power_nonneg.
Qed.

Lemma amp_pow4 (y : list R) (k : nat) :
  (np_absolute (dft_re y k, dft_im y k) ^ 4 = bin_power y k * bin_power y k)%R.
Proof.
  replace (np_absolute (dft_re y k, dft_im y k) ^ 4)%R
    with ((np_absolute (dft_re y k, dft_im y k) ^ 2)
          * (np_absolute (dft_re y k, dft_im y k) ^ 2))%R by ring.
  by rewrite amp_pow2.
Qed.





(** * Further properties of the code *)

(** ** The grid search: what a returned grid is, and how it fails *)

Section GridSearchMore.

Variable rotate : list R → list R → R → list R * list R.
Variable lag : list R → list R → Z → list R * list R.
Variable unsplit : list R → list R → R → Z → list R * list R.
Variable chop : list R → list R → Window → list R * list R.

Local Abbreviation unsplit_window := (unsplit_window lag unsplit chop).
Local Abbreviation rotated_window := (rotated_window rotate lag unsplit chop).
Local Abbreviation cell_window := (cell_window rotate lag unsplit chop).

(** X1: whatever [grideigval] returns is oriented as documented: the two
    coordinate grids and the two surfaces all have one row per candidate
    delay and one column per candidate angle, the angle grid holds the angle
    of its column and the delay grid the delay of its row, the window is the
    resolved one, and a grid with a candidate angle has a candidate delay. *)
Theorem grideigval_grid_orientation (x y : list R) (kw : kwargs) (g : grid) :
  grideigval rotate lag unsplit chop x y kw = Ok g →
  g_window g = resolve_window x kw ∧
  has_shape (g_degs g) (length (resolve_lags x kw)) (length (resolve_degs kw)) ∧
  has_shape (g_lags g) (length (resolve_lags x kw)) (length (resolve_degs kw)) ∧
  has_shape (g_lam1 g) (length (resolve_lags x kw)) (length (resolve_degs kw)) ∧
  has_shape (g_lam2 g) (length (resolve_lags x kw)) (length (resolve_degs kw)) ∧
  (∀ jj ii, (jj < length (resolve_lags x kw))%nat →
            (ii < length (resolve_degs kw))%nat →
     cell (g_degs g) jj ii = resolve_degs kw !! ii ∧
     cell (g_lags g) jj ii = resolve_lags x kw !! jj) ∧
  (resolve_degs kw ≠ [] → resolve_lags x kw ≠ []).
Proof.
  intros Hrun.
  assert (resolve_degs kw ≠ [] → resolve_lags x kw ≠ []) as Hne.
  { intros Hd Hl. by rewrite (grideigval_no_lags _ _ _ _ x y kw Hl Hd) in Hrun. }
  destruct (grideigval_run rotate lag unsplit chop x y kw)
    as (g' & Hg & Hw & Hd & Hl & H1 & H2).
  { destruct (resolve_degs kw) as [|d ds]; [by right|]. left.
    destruct (resolve_lags x kw); [by destruct Hne | simpl; lia]. }
  { by apply (grideigval_returned rotate lag unsplit chop x y kw g). }
  rewrite Hrun in Hg. injection Hg as <-.
  split; [done|]. do 4 (split; [by eapply mat_spec_shape|]).
  split; [|done]. intros jj ii Hjj Hii.
  rewrite (mat_spec_cell _ _ _ _ jj ii Hd Hjj Hii).
  rewrite (mat_spec_cell _ _ _ _ jj ii Hl Hjj Hii).
  split; symmetry; by apply lookup_nth_lt.
Qed.

(** X2: with at least one candidate delay no index of the grid search is out
    of bounds.  It either returns, and then the windowed channels of every
    cell had the same length and at least two samples; or it raises the
    [ValueError] of stacking, and then some cell has windowed channels of
    different lengths; or it raises the [LinAlgError] of the eigensolver, and
    then some cell has equally long windowed channels of fewer than two
    samples. *)
Theorem grideigval_index_safe (x y : list R) (kw : kwargs) :
  (0 < length (resolve_lags x kw))%nat →
  ((∃ g, grideigval rotate lag unsplit chop x y kw = Ok g) ∧
   ∀ jj ii l d,
     resolve_lags x kw !! jj = Some l → resolve_degs kw !! ii = Some d →
     length (cell_window x y kw d l).1 = length (cell_window x y kw d l).2 ∧
     (2 <= length (cell_window x y kw d l).1)%nat) ∨
  (grideigval rotate lag unsplit chop x y kw = Raise ValueError ∧
   ∃ jj ii l d,
     resolve_lags x kw !! jj = Some l ∧ resolve_degs kw !! ii = Some d ∧
     length (cell_window x y kw d l).1 ≠ length (cell_window x y kw d l).2) ∨
  (grideigval rotate lag unsplit chop x y kw = Raise LinAlgError ∧
   ∃ jj ii l d,
     resolve_lags x kw !! jj = Some l ∧ resolve_degs kw !! ii = Some d ∧
     length (cell_window x y kw d l).1 = length (cell_window x y kw d l).2 ∧
     (length (cell_window x y kw d l).1 < 2)%nat).
Proof.
  intros Hnl.
  destruct (grideigval_cases rotate lag unsplit chop x y kw Hnl)
    as [[Hall Hg]|[[(jj & ii & Hjj & Hii & Hne) Hr]|[(jj & ii & Hjj & Hii & Heq & HN) Hr]]].
  - left. split; [done|].
    intros jj ii l d [Hjj <-]%(lookup_nth_iff _ _ _ 0%Z) [Hii <-]%(lookup_nth_iff _ _ _ 0%R).
    by apply Hall.
  - right. left. split; [done|]. eexists jj, ii, _, _.
    split; [by apply lookup_nth_lt|]. split; [by apply lookup_nth_lt|]. done.
  - right. right. split; [done|]. eexists jj, ii, _, _.
    split; [by apply lookup_nth_lt|]. split; [by apply lookup_nth_lt|]. done.
Qed.

End GridSearchMore.

Lemma grideigval_grid_orientation_witness :
  ∃ g, grideigval core.rotate core.lag core.unsplit core.chop
         x_small y_small kw_small = Ok g ∧
    g_window g = resolve_window x_small kw_small ∧
    has_shape (g_degs g) 2 1 ∧ has_shape (g_lags g) 2 1 ∧
    has_shape (g_lam1 g) 2 1 ∧ has_shape (g_lam2 g) 2 1.
Proof.
  destruct (grideigval_run core.rotate core.lag core.unsplit core.chop
              x_small y_small kw_small) as (g & Hg & _).
  - left. simpl. lia.
  - intros jj ii Hjj Hii.
    apply (small_windows jj ii); by apply lookup_nth_lt.
  - exists g. split; [done|].
    destruct (grideigval_grid_orientation core.rotate core.lag core.unsplit
                core.chop x_small y_small kw_small g Hg)
      as (Hw & Hd & Hl & H1 & H2 & _).
    done.
Defined.

Lemma grideigval_index_safe_witness :
  ((∃ g, grideigval core.rotate core.lag core.unsplit core.chop
           x_small y_small kw_small = Ok g) ∧
   ∀ jj ii l d,
     resolve_lags x_small kw_small !! jj = Some l →
     resolve_degs kw_small !! ii = Some d →
     length (cell_window core.rotate core.lag core.unsplit core.chop
               x_small y_small kw_small d l).1
     = length (cell_window core.rotate core.lag core.unsplit core.chop
                 x_small y_small kw_small d l).2 ∧
     (2 <= length (cell_window core.rotate core.lag core.unsplit core.chop
                     x_small y_small kw_small d l).1)%nat) ∨
  (grideigval core.rotate core.lag core.unsplit core.chop
     x_small y_small kw_small = Raise ValueError ∧
   ∃ jj ii l d,
     resolve_lags x_small kw_small !! jj = Some l ∧
     resolve_degs kw_small !! ii = Some d ∧
     length (cell_window core.rotate core.lag core.unsplit core.chop
               x_small y_small kw_small d l).1
     ≠ length (cell_window core.rotate core.lag core.unsplit core.chop
                 x_small y_small kw_small d l).2) ∨
  (grideigval core.rotate core.lag core.unsplit core.chop
     x_small y_small kw_small = Raise LinAlgError ∧
   ∃ jj ii l d,
     resolve_lags x_small kw_small !! jj = Some l ∧
     resolve_degs kw_small !! ii = Some d ∧
     length (cell_window core.rotate core.lag core.unsplit core.chop
               x_small y_small kw_small d l).1
     = length (cell_window core.rotate core.lag core.unsplit core.chop
                 x_small y_small kw_small d l).2 ∧
     (length (cell_window core.rotate core.lag core.unsplit core.chop
                x_small y_small kw_small d l).1 < 2)%nat).
Proof.
  apply (grideigval_index_safe core.rotate core.lag core.unsplit core.chop
           x_small y_small kw_small).
  simpl. lia.
Defined.

(** ** The default grid *)

Lemma np_rint_Z (z : Z) : np_rint (inject_Z z) = z.
Proof.
  unfold np_rint. rewrite Qfloor_Z.
  destruct (Qcompare_spec (inject_Z z - inject_Z z) (1 # 2)) as [He|Hl|Hg];
    [lra | done | lra].
Qed.

Lemma np_rint_le_Z (q : Q) (z : Z) : (q <= inject_Z z)%Q → (np_rint q <= z)%Z.
Proof.
  intros Hq. unfold np_rint.
  pose proof (Qfloor_resp_le _ _ Hq) as Hf. rewrite Qfloor_Z in Hf.
  destruct (Qcompare_spec (q - inject_Z (Qfloor q)) (1 # 2)) as [He|Hl|Hg];
    [destruct (Z.even (Qfloor q)); [lia|]| lia |];
    (destruct (decide (Qfloor q = z)) as [Hz|Hz]; [|lia]);
    rewrite Hz in *; lra.
Qed.

Lemma elem_of_linspace (q start stop : Q) (num : nat) :
  q ∈ linspace start stop num ↔
  ∃ k, (k < num)%nat ∧
    q = (start + inject_Z (Z.of_nat k)
                 * ((stop - start) / inject_Z (Z.of_nat num - 1)))%Q.
Proof.
  unfold linspace. rewrite list_elem_of_fmap. split.
  - intros (k & -> & Hk%elem_of_seq). exists k. split; [lia | done].
  - intros (k & Hk & ->). exists k. split; [done|]. apply elem_of_seq. lia.
Qed.

Lemma elem_of_default_lags (size l : Z) :
  l ∈ default_lags size ↔
  ∃ k, (k < 30)%nat ∧
    l = (2 * np_rint (0 + inject_Z (Z.of_nat k)
           * (((1 # 2) * inject_Z (maxlag size) - 0) / inject_Z 29)))%Z.
Proof.
  rewrite default_lags_unfold, elem_of_np_unique. unfold default_lags_raw.
  rewrite list_elem_of_fmap. split.
  - intros (q & -> & (k & Hk & ->)%elem_of_linspace). by exists k.
  - intros (k & Hk & ->). eexists. split; [done|].
    apply elem_of_linspace. by exists k.
Qed.

Lemma StronglySorted_lt_head (l : list Z) (m : Z) :
  StronglySorted Z.lt l → m ∈ l → (∀ v, v ∈ l → (m <= v)%Z) → head l = Some m.
Proof.
  intros Hs Hm Hmin. destruct l as [|a l]; [by apply elem_of_nil in Hm|].
  simpl. f_equal. apply StronglySorted_inv in Hs as [_ Ha].
  apply elem_of_cons in Hm as [->|Hm]; [done|].
  rewrite Forall_forall in Ha. specialize (Ha m Hm).
  specialize (Hmin a ltac:(by left)). lia.
Qed.

Lemma StronglySorted_lt_last (l : list Z) (m : Z) :
  StronglySorted Z.lt l → m ∈ l → (∀ v, v ∈ l → (v <= m)%Z) → last l = Some m.
Proof.
  induction l as [|a l IH]; intros Hs Hm Hmax; [by apply elem_of_nil in Hm|].
  apply StronglySorted_inv in Hs as [Hs Ha].
  destruct l as [|b l].
  - apply list_elem_of_singleton in Hm as ->. done.
  - change (last (a :: b :: l)) with (last (b :: l)).
    apply IH; [done | |].
    + apply elem_of_cons in Hm as [->|Hm]; [|done].
      rewrite Forall_forall in Ha. specialize (Ha b ltac:(by left)).
      specialize (Hmax b ltac:(by right; left)). lia.
    + intros v Hv. apply Hmax. by right.
Qed.

Lemma remove_dups_length_le (l : list Z) :
  (length (remove_dups l) <= length l)%nat.
Proof.
  induction l as [|a l IH]; simpl; [done|].
  destruct (decide_rel elem_of a l); simpl; lia.
Qed.

(** X3: the range of the default delays.  When the caller gives no delays,
    the candidates start at 0 and end at [maxlag] (a tenth of the trace
    length, rounded down, made even), every candidate lies between the two,
    and there are at most 30 of them. *)
Theorem default_lags_range (x : list R) (kw : kwargs) :
  kw_lags kw = None →
  head (resolve_lags x kw) = Some 0%Z ∧
  last (resolve_lags x kw) = Some (maxlag (Z.of_nat (length x))) ∧
  Forall (λ l, (0 <= l <= maxlag (Z.of_nat (length x)))%Z) (resolve_lags x kw) ∧
  (1 <= length (resolve_lags x kw) <= 30)%nat.
Proof.
  intros Hkw. unfold resolve_lags. rewrite Hkw. cbn [default].
  set (N := Z.of_nat (length x)).
  assert (0 <= N)%Z as HN by (unfold N; lia).
  destruct (maxlag_spec N HN) as (Heven & _ & Hpos).
  apply Z.div_exact in Heven; [|lia].
  remember (maxlag N / 2)%Z as m eqn:Hm2. clear Hm2.
  assert (0%Z ∈ default_lags N) as H0.
  { apply elem_of_default_lags. exists 0%nat. split; [lia|].
    rewrite (np_rint_comp _ (inject_Z 0)); [by rewrite np_rint_Z|].
    simpl. ring. }
  assert (maxlag N ∈ default_lags N) as Hm.
  { apply elem_of_default_lags. exists 29%nat. split; [lia|].
    rewrite (np_rint_comp _ (inject_Z m)); [rewrite np_rint_Z; lia|].
    rewrite Heven, inject_Z_mult. change (Z.of_nat 29) with 29%Z. field. }
  assert (∀ l, l ∈ default_lags N → (0 <= l <= maxlag N)%Z) as Hb.
  { intros l (k & Hk & ->)%elem_of_default_lags.
    rewrite Heven. rewrite inject_Z_mult.
    assert (0 <= inject_Z m)%Q as Hm0
      by (change 0%Q with (inject_Z 0); rewrite <- Zle_Qle; lia).
    assert (0 <= inject_Z (Z.of_nat k))%Q as Hk0
      by (change 0%Q with (inject_Z 0); rewrite <- Zle_Qle; lia).
    assert (0 <= inject_Z 29 - inject_Z (Z.of_nat k))%Q as Hk29.
    { rewrite <- (Qplus_opp_r (inject_Z (Z.of_nat k))).
      apply Qplus_le_l. rewrite <- Zle_Qle. lia. }
    set (q := (0 + inject_Z (Z.of_nat k)
                 * (((1 # 2) * (inject_Z 2 * inject_Z m) - 0) / inject_Z 29))%Q).
    assert (q == inject_Z (Z.of_nat k) * (inject_Z m * / inject_Z 29))%Q as Hq
      by (unfold q; field).
    assert (0 <= q)%Q as Hq0.
    { rewrite Hq. apply Qmult_le_0_compat; [done|].
      apply Qmult_le_0_compat; [done | done]. }
    assert (q <= inject_Z m)%Q as Hqh.
    { assert (inject_Z m - q
              == inject_Z m * / inject_Z 29 * (inject_Z 29 - inject_Z (Z.of_nat k)))%Q
        as He by (rewrite Hq; field).
      assert (0 <= inject_Z m - q)%Q; [|lra].
      rewrite He. apply Qmult_le_0_compat; [|done].
      apply Qmult_le_0_compat; [done | done]. }
    pose proof (np_rint_nonneg q Hq0). pose proof (np_rint_le_Z q _ Hqh).
    fold q. lia. }
  pose proof (np_unique_sorted (default_lags_raw N)) as Hs.
  rewrite <- default_lags_unfold in Hs.
  split; [apply StronglySorted_lt_head; [done | done | intros v Hv; by apply Hb]|].
  split; [apply StronglySorted_lt_last; [done | done | intros v Hv; by apply Hb]|].
  split; [apply Forall_forall; intros l Hl; by apply Hb|].
  split.
  - destruct (default_lags N); [by apply elem_of_nil in H0 | simpl; lia].
  - rewrite default_lags_unfold. unfold np_unique.
    rewrite merge_sort_Permutation.
    etrans; [apply remove_dups_length_le|].
    unfold default_lags_raw, linspace. by rewrite !length_fmap, length_seq.
Qed.

Lemma default_lags_range_witness :
  head (resolve_lags x_small kw_none) = Some 0%Z ∧
  last (resolve_lags x_small kw_none) = Some (maxlag (Z.of_nat (length x_small))) ∧
  Forall (λ l, (0 <= l <= maxlag (Z.of_nat (length x_small)))%Z)
    (resolve_lags x_small kw_none) ∧
  (1 <= length (resolve_lags x_small kw_none) <= 30)%nat.
Proof. apply (default_lags_range x_small kw_none). reflexivity. Defined.

(** X4: a trace shorter than ten samples searched with the default delays has
    the single candidate delay 0. *)
Theorem default_lags_short_trace (x : list R) (kw : kwargs) :
  kw_lags kw = None → (length x < 10)%nat → resolve_lags x kw = [0%Z].
Proof.
  intros Hkw Hlen. unfold resolve_lags. rewrite Hkw. cbn [default].
  rewrite default_lags_unfold. unfold default_lags_raw.
  assert (maxlag (Z.of_nat (length x)) = 0%Z) as ->.
  { unfold maxlag. rewrite Z.div_small by lia. reflexivity. }
  vm_compute. reflexivity.
Qed.

Lemma default_lags_short_trace_witness : resolve_lags x_small kw_none = [0%Z].
Proof.
  apply (default_lags_short_trace x_small kw_none); [reflexivity | simpl; lia].
Defined.

(** X5: the default window of a non-empty trace fits the trace: its width is
    odd, at least one sample and at most the trace length, and it is centred
    (offset 0, no taper). *)
Theorem default_window_fits (x : list R) (kw : kwargs) :
  kw_window kw = None → x ≠ [] →
  (width (resolve_window x kw) mod 2 = 1)%Z ∧
  (1 <= width (resolve_window x kw) <= Z.of_nat (length x))%Z ∧
  offset (resolve_window x kw) = 0%Z ∧
  tukey (resolve_window x kw) = None.
Proof.
  intros Hkw Hne. unfold resolve_window. rewrite Hkw. cbn [default].
  unfold default_window. cbn [width offset tukey].
  assert (1 <= Z.of_nat (length x))%Z as HN by (destruct x; [done | simpl; lia]).
  set (N := Z.of_nat (length x)) in *.
  destruct (Z.eqb_spec ((N / 2) mod 2) 1) as [He|Hn].
  - repeat split; try done; Z.to_euclidean_division_equations; lia.
  - repeat split; try done; Z.to_euclidean_division_equations; lia.
Qed.

Lemma default_window_fits_witness :
  (width (resolve_window x_small kw_none) mod 2 = 1)%Z ∧
  (1 <= width (resolve_window x_small kw_none) <= Z.of_nat (length x_small))%Z ∧
  offset (resolve_window x_small kw_none) = 0%Z ∧
  tukey (resolve_window x_small kw_none) = None.
Proof.
  apply (default_window_fits x_small kw_none); [reflexivity | discriminate].
Defined.

(** ** The covariance eigensolver: symmetries and degenerate inputs *)

Section EigenSolverMore.
Open Scope R_scope.

Lemma Rsum_fmap_scale (c : R) (l : list R) :
  Rsum ((λ v, c * v) <$> l) = c * Rsum l.
Proof.
  induction l as [|a l IH]; [simpl; lra|].
  rewrite fmap_cons. cbn [Rsum foldr]. unfold Rsum in IH. rewrite IH. lra.
Qed.

Lemma Rsum_fmap_shift (c : R) (l : list R) :
  Rsum ((λ v, v + c) <$> l) = Rsum l + INR (length l) * c.
Proof.
  induction l as [|a l IH]; [simpl; lra|].
  rewrite fmap_cons. cbn [Rsum foldr]. unfold Rsum in IH. rewrite IH.
  change (length (a :: l)) with (S (length l)). rewrite S_INR. lra.
Qed.

Lemma center_shift (c : R) (l : list R) : center ((λ v, v + c) <$> l) = center l.
Proof.
  destruct l as [|a l]; [done|]. unfold center.
  rewrite <- list_fmap_compose. apply list_fmap_ext. intros _ v _. cbn [compose].
  unfold mean. rewrite Rsum_fmap_shift, length_fmap.
  assert (INR (length (a :: l)) <> 0) as Hn.
  { change (length (a :: l)) with (S (length l)). rewrite S_INR.
    pose proof (pos_INR (length l)). lra. }
  field. done.
Qed.

Lemma center_scale (c : R) (l : list R) :
  center ((λ v, c * v) <$> l) = (λ v, c * v) <$> center l.
Proof.
  unfold center. rewrite <- !list_fmap_compose. apply list_fmap_ext.
  intros _ v _. cbn [compose].
  unfold mean. rewrite Rsum_fmap_scale, length_fmap. unfold Rdiv. ring.
Qed.

Lemma dot_scale_r (c : R) (X Y : list R) :
  dot X ((λ v, c * v) <$> Y) = c * dot X Y.
Proof.
  unfold dot. revert Y. induction X as [|a X IH]; intros [|b Y];
    try (simpl; lra).
  rewrite fmap_cons. cbn [zip_with Rsum foldr].
  specialize (IH Y). unfold Rsum in IH. rewrite IH. lra.
Qed.

Lemma dot_zero_l (X Y : list R) : Forall (λ v, v = 0) X → dot X Y = 0.
Proof.
  unfold dot. intros HX. revert Y.
  induction HX as [|a X -> _ IH]; intros [|b Y]; try (simpl; lra).
  cbn [zip_with Rsum foldr]. specialize (IH Y). unfold Rsum in IH.
  rewrite IH. lra.
Qed.

Lemma eigvals_swap (a b c d : R) :
  eigvals ((d, c), (b, a)) = eigvals ((a, b), (c, d)).
Proof.
  unfold eigvals.
  replace ((d - a) * (d - a) + 4 * c * b) with ((a - d) * (a - d) + 4 * b * c)
    by ring.
  replace (d + a) with (a + d) by ring. done.
Qed.

(** X6: the eigenvalues do not depend on constant offsets of the channels. *)
Theorem eigvalcov_offset_invariant (x y : list R) (c d : R) :
  eigvalcov ((λ v, v + c) <$> x, (λ v, v + d) <$> y) = eigvalcov (x, y).
Proof.
  unfold eigvalcov, np_cov. cbn [fst snd].
  by rewrite !center_shift, !length_fmap.
Qed.

(** X7: the eigenvalues do not depend on the order of the two channels. *)
Theorem eigvalcov_swap (x y : list R) :
  length x = length y → eigvalcov (y, x) = eigvalcov (x, y).
Proof.
  intros Hl. unfold eigvalcov, np_cov. cbn [fst snd]. rewrite Hl.
  rewrite eigvals_swap. by rewrite (dot_comm (center y) (center x)).
Qed.

Lemma eigvalcov_swap_witness :
  eigvalcov (y_small, x_small) = eigvalcov (x_small, y_small).
Proof. apply (eigvalcov_swap x_small y_small). reflexivity. Defined.

End EigenSolverMore.

(** ** The degrees of freedom: range, scaling and degenerate traces *)

Section DegreesOfFreedomMore.
Open Scope R_scope.

Variable detrend : list R → list R.
Variable chop1 : list R → Window → list R.

(** The value of [ndf] on a trace that is not empty after the windowing. *)
Lemma ndf_value (y : list R) (window : option Window) (detrend_flag : bool) :
  ndf_input detrend chop1 y window detrend_flag ≠ [] →
  ndf detrend chop1 y window detrend_flag
  = Ok (xmul (Fin 2)
          (xsub (xdiv (Fin (2 * spectral_E2 (ndf_input detrend chop1 y window
                                               detrend_flag) ^ 2))
                      (Fin (spectral_E4 (ndf_input detrend chop1 y window
                                           detrend_flag))))
                (Fin 1))).
Proof.
  set (y' := ndf_input detrend chop1 y window detrend_flag). intros Hne.
  unfold ndf. fold y'.
  assert (0 < length y')%nat as Hn by (destruct y'; [done | simpl; lia]).
  assert (np_fft y' = Ok ((λ k, (dft_re y' k, dft_im y' k)) <$> seq 0 (length y')))
    as -> by (unfold np_fft; by destruct y').
  cbn [mbind result_bind]. rewrite length_fmap, length_seq.
  pose proof (ndf_weights_spec (length y') Hn) as Hw.
  destruct (set1 (replicate (length y') 1) 0 (1 / 2)) as [a0|e]; [|done].
  cbn [mbind result_bind] in *. rewrite Hw. cbn [mbind result_bind].
  rewrite <- !list_fmap_compose.
  rewrite !zip_with_fmap_l, !zip_with_fmap_r, !zip_with_diag.
  do 6 f_equal.
  - do 2 f_equal. unfold spectral_E2. f_equal.
    apply list_fmap_ext. intros _ k _. cbn [compose].
    by rewrite amp_pow2.
  - unfold spectral_E4. f_equal.
    apply list_fmap_ext. intros _ k _. cbn [compose].
    by rewrite amp_pow4.
Qed.

Lemma ndf_empty (y : list R) (window : option Window) (detrend_flag : bool) :
  ndf_input detrend chop1 y window detrend_flag = [] →
  ndf detrend chop1 y window detrend_flag = Raise ValueError.
Proof. intros He. unfold ndf. by rewrite He. Qed.

Lemma bin_weight_pos (n k : nat) : 0 < bin_weight n k.
Proof. unfold bin_weight. case_decide; lra. Qed.

Lemma weighted_power_nonneg (y : list R) (k : nat) : 0 <= weighted_power y k.
Proof.
  unfold weighted_power. pose proof (bin_weight_pos (length y) k).
  pose proof (bin_power_nonneg y k). nra.
Qed.

Lemma spectral_E2_weighted (y : list R) :
  spectral_E2 y = Rsum (weighted_power y <$> seq 0 (length y)).
Proof. done. Qed.

Lemma spectral_E4_weighted (y : list R) :
  spectral_E4 y
  = 4 / 3 * Rsum ((λ v, v * v) <$> (weighted_power y <$> seq 0 (length y))).
Proof.
  unfold spectral_E4. rewrite <- Rsum_fmap_scale, <- !list_fmap_compose.
  f_equal. apply list_fmap_ext. intros _ k _. cbn [compose].
  unfold weighted_power. field.
Qed.

Lemma Rsum_squares_le (l : list R) :
  Forall (λ v, 0 <= v) l → Rsum ((λ v, v * v) <$> l) <= Rsum l * Rsum l.
Proof.
  induction 1 as [|a l Ha Hl IH]; [simpl; lra|].
  rewrite fmap_cons. cbn [Rsum foldr].
  pose proof (Rsum_nonneg l Hl) as HS. unfold Rsum in *. nra.
Qed.

Lemma dot_ones (l : list R) : dot l (replicate (length l) 1) = Rsum l.
Proof.
  unfold dot. induction l as [|a l IH]; [done|].
  cbn [length replicate zip_with Rsum foldr]. unfold Rsum in IH. rewrite IH. lra.
Qed.

Lemma dot_ones_ones (n : nat) : dot (replicate n 1) (replicate n 1) = INR n.
Proof.
  unfold dot. induction n as [|n IH]; [done|].
  rewrite S_INR. cbn [replicate zip_with Rsum foldr]. unfold Rsum in IH.
  rewrite IH. lra.
Qed.

Lemma dot_self (l : list R) : dot l l = Rsum ((λ v, v * v) <$> l).
Proof. unfold dot. by rewrite zip_with_diag. Qed.

Lemma Rsum_square_le (l : list R) :
  Rsum l * Rsum l <= INR (length l) * Rsum ((λ v, v * v) <$> l).
Proof.
  pose proof (cauchy_schwarz l (replicate (length l) 1)) as Hcs.
  rewrite length_replicate in Hcs. specialize (Hcs eq_refl).
  rewrite dot_ones, dot_ones_ones, dot_self in Hcs. lra.
Qed.

Lemma xdiv_zero_not_finite (a : R) : ¬ is_finite (xdiv (Fin a) (Fin 0)).
Proof.
  intros [r Hr]. unfold xdiv in Hr. rewrite decide_True in Hr by done.
  destruct (decide (a = 0)); [done|]. by destruct (bool_decide (0 < a)).
Qed.

Lemma ndf_shape_not_finite (X : xR) :
  ¬ is_finite X → ¬ is_finite (xmul (Fin 2) (xsub X (Fin 1))).
Proof.
  intros HX [r Hr]. destruct X as [x| | |]; cbn in Hr; try done.
  - apply HX. by eexists.
  - unfold xmul_inf in Hr. repeat case_decide; try done; lra.
  - unfold xmul_inf in Hr. repeat case_decide; try done; lra.
Qed.

(** X10: whenever [ndf] returns a finite number, it is at least 1 and at most
    [3 n - 2] for a trace of [n] samples (after the windowing). *)
Theorem ndf_range (y : list R) (window : option Window) (detrend_flag : bool)
    (v : R) :
  ndf detrend chop1 y window detrend_flag = Ok (Fin v) →
  1 <= v
  <= 3 * INR (length (ndf_input detrend chop1 y window detrend_flag)) - 2.
Proof.
  intros Hndf.
  destruct (decide (ndf_input detrend chop1 y window detrend_flag = [])) as [He|Hne].
  { by rewrite ndf_empty in Hndf. }
  rewrite ndf_value in Hndf by done.
  set (y' := ndf_input detrend chop1 y window detrend_flag) in *.
  set (U := weighted_power y' <$> seq 0 (length y')).
  assert (Forall (λ u, 0 <= u) U) as HU.
  { apply Forall_fmap, Forall_forall. intros k _. apply weighted_power_nonneg. }
  assert (length U = length y') as HlU by (unfold U; by rewrite length_fmap, length_seq).
  pose proof (Rsum_squares_le U HU) as Hlo.
  pose proof (Rsum_square_le U) as Hhi. rewrite HlU in Hhi.
  pose proof (spectral_E4_weighted y') as HE4. fold U in HE4.
  pose proof (spectral_E2_weighted y') as HE2. fold U in HE2.
  set (E2 := spectral_E2 y') in *. set (E4 := spectral_E4 y') in *.
  set (Q := Rsum ((λ v, v * v) <$> U)) in *.
  assert (0 <= Q) as HQ by (apply Rsum_nonneg, fmap_sqr_nonneg).
  destruct (decide (E4 = 0)) as [Hz|Hnz].
  - exfalso. rewrite Hz in Hndf.
    apply (ndf_shape_not_finite (xdiv (Fin (2 * E2 ^ 2)) (Fin 0)));
      [apply xdiv_zero_not_finite | exists v; congruence].
  - rewrite xdiv_fin in Hndf by done. cbn [xsub xneg xadd xmul] in Hndf.
    injection Hndf as <-.
    assert (0 < Q) as HQpos by lra.

    assert (1 <= Rsum U * Rsum U / Q) as H1.
    { apply (Rmult_le_reg_r Q); [done|].
      replace (Rsum U * Rsum U / Q * Q) with (Rsum U * Rsum U) by (field; lra). lra. }
    assert (Rsum U * Rsum U / Q <= INR (length y')) as H2.
    { apply (Rmult_le_reg_r Q); [done|].
      replace (Rsum U * Rsum U / Q * Q) with (Rsum U * Rsum U) by (field; lra). lra. }
    set (T := Rsum U * Rsum U / Q) in *.
    assert (2 * (2 * (E2 * (E2 * 1)) / E4 + - (1)) = 3 * T - 2) as ->
      by (unfold T; rewrite HE4, HE2; field; lra).
    lra.
Qed.

End DegreesOfFreedomMore.

Section DegreesOfFreedomScaling.
Open Scope R_scope.

Lemma Rsum_imap_scale (f g : nat → R → R) (c : R) (l : list R) :
  (∀ j v, f j v = c * g j v) → Rsum (imap f l) = c * Rsum (imap g l).
Proof.
  revert f g. induction l as [|a l IH]; intros f g Hfg; [simpl; lra|].
  rewrite !imap_cons. cbn [Rsum foldr].
  specialize (IH (f ∘ S) (g ∘ S) (λ j v, Hfg (S j) v)). unfold Rsum in IH.
  rewrite IH, Hfg. lra.
Qed.

Lemma Rsum_imap_zero (f : nat → R → R) (l : list R) :
  Forall (λ v, ∀ j, f j v = 0) l → Rsum (imap f l) = 0.
Proof.
  revert f. induction l as [|a l IH]; intros f Hf; [done|].
  apply Forall_cons in Hf as [Ha Hl].
  rewrite imap_cons. cbn [Rsum foldr].
  specialize (IH (f ∘ S)). unfold Rsum in IH. rewrite IH, Ha; [lra|].
  eapply Forall_impl; [exact Hl|]. intros v Hv j. apply Hv.
Qed.

Lemma Rsum_fmap_zero {A} (f : A → R) (l : list A) :
  (∀ k, f k = 0) → Rsum (f <$> l) = 0.
Proof.
  intros Hf. induction l as [|a l IH]; [done|].
  rewrite fmap_cons. cbn [Rsum foldr]. unfold Rsum in IH. rewrite IH, Hf. lra.
Qed.

Lemma dft_re_scale (c : R) (y : list R) (k : nat) :
  dft_re ((λ v, c * v) <$> y) k = c * dft_re y k.
Proof.
  unfold dft_re. rewrite imap_fmap, length_fmap.
  apply Rsum_imap_scale. intros j v. cbn [compose]. ring.
Qed.

Lemma dft_im_scale (c : R) (y : list R) (k : nat) :
  dft_im ((λ v, c * v) <$> y) k = c * dft_im y k.
Proof.
  unfold dft_im. rewrite imap_fmap, length_fmap.
  apply Rsum_imap_scale. intros j v. cbn [compose]. ring.
Qed.

Lemma bin_power_scale (c : R) (y : list R) (k : nat) :
  bin_power ((λ v, c * v) <$> y) k = c * c * bin_power y k.
Proof. unfold bin_power. rewrite dft_re_scale, dft_im_scale. ring. Qed.

Lemma bin_power_silent (y : list R) (k : nat) :
  Forall (λ v, v = 0) y → bin_power y k = 0.
Proof.
  intros Hy. unfold bin_power, dft_re, dft_im.
  rewrite !Rsum_imap_zero; [ring | |];
    (eapply Forall_impl; [exact Hy|]; intros v -> j; ring).
Qed.

Lemma spectral_E2_scale (c : R) (y : list R) :
  spectral_E2 ((λ v, c * v) <$> y) = c * c * spectral_E2 y.
Proof.
  unfold spectral_E2. rewrite length_fmap, <- Rsum_fmap_scale.
  rewrite <- list_fmap_compose. f_equal. apply list_fmap_ext.
  intros _ k _. cbn [compose]. rewrite bin_power_scale. ring.
Qed.

Lemma spectral_E4_scale (c : R) (y : list R) :
  spectral_E4 ((λ v, c * v) <$> y) = (c * c) * (c * c) * spectral_E4 y.
Proof.
  unfold spectral_E4. rewrite length_fmap, <- Rsum_fmap_scale.
  rewrite <- list_fmap_compose. f_equal. apply list_fmap_ext.
  intros _ k _. cbn [compose]. rewrite bin_power_scale. field.
Qed.

Lemma xdiv_scale (k a b : R) :
  0 < k → xdiv (Fin (k * a)) (Fin (k * b)) = xdiv (Fin a) (Fin b).
Proof.
  intros Hk. unfold xdiv.
  destruct (decide (b = 0)) as [->|Hb].
  - rewrite Rmult_0_r, decide_True by done.
    destruct (decide (a = 0)) as [->|Ha].
    + by rewrite Rmult_0_r, decide_True.
    + rewrite decide_False by nra. f_equal.
      apply bool_decide_ext. split; intros; nra.
  - rewrite decide_False by nra. f_equal. field. lra.
Qed.

Variable detrend : list R → list R.
Variable chop1 : list R → Window → list R.

(** X11: [ndf] does not depend on the amplitude of the trace: a trace and
    any non-zero multiple of it have the same degrees of freedom (and two
    empty traces are refused alike). *)
Theorem ndf_scale_invariant (y : list R) (c : R) :
  c ≠ 0 →
  ndf detrend chop1 ((λ v, c * v) <$> y) None false
  = ndf detrend chop1 y None false.
Proof.
  intros Hc. destruct y as [|a y]; [done|].
  rewrite !ndf_value by done. cbn [ndf_input].
  rewrite spectral_E2_scale, spectral_E4_scale.
  set (E2 := spectral_E2 (a :: y)). set (E4 := spectral_E4 (a :: y)).
  assert (0 < c * c * (c * c)) as Hk by (assert (0 < c * c) by nra; nra).
  assert (2 * (c * c * E2) ^ 2 = c * c * (c * c) * (2 * E2 ^ 2)) as -> by ring.
  by rewrite xdiv_scale.
Qed.

(** X12: a silent trace (every sample 0) has a vanishing spectrum, and [ndf]
    returns [nan] for it without raising. *)
Theorem ndf_silent_trace (y : list R) :
  y ≠ [] → Forall (λ v, v = 0) y →
  ndf detrend chop1 y None false = Ok NaN.
Proof.
  intros Hne Hy. rewrite ndf_value by done. cbn [ndf_input].
  assert (spectral_E2 y = 0) as ->.
  { unfold spectral_E2. apply Rsum_fmap_zero. intros k.
    rewrite bin_power_silent by done. ring. }
  assert (spectral_E4 y = 0) as ->.
  { unfold spectral_E4. apply Rsum_fmap_zero. intros k.
    rewrite bin_power_silent by done. field. }
  assert (2 * 0 ^ 2 = 0) as -> by ring.
  by rewrite xdiv_zero_zero.
Qed.

Lemma ndf_singleton_value (a : R) :
  a ≠ 0 → ndf detrend chop1 [a] None false = Ok (Fin 1).
Proof.
  intros Ha. rewrite ndf_value by done. cbn [ndf_input].
  assert (bin_power [a] 0 = a * a) as Hp.
  { unfold bin_power, dft_re, dft_im. cbn [imap Rsum foldr length].
    replace (2 * PI * INR 0 * INR 0 / INR 1) with 0 by (simpl; field).
    rewrite cos_0, sin_0. ring. }
  assert (spectral_E2 [a] = 1 / 2 * (a * a)) as ->.
  { unfold spectral_E2. cbn [length seq fmap list_fmap Rsum foldr].
    rewrite Hp. unfold bin_weight. rewrite decide_True by (by left). ring. }
  assert (spectral_E4 [a] = 1 / 3 * ((a * a) * (a * a))) as ->.
  { unfold spectral_E4. cbn [length seq fmap list_fmap Rsum foldr].
    rewrite Hp. unfold bin_weight. rewrite decide_True by (by left). field. }
  assert (a * a <> 0) as Haa by nra.
  rewrite xdiv_fin by nra. cbn [xsub xneg xadd xmul].
  do 2 f_equal. field. done.
Qed.

(** X13: the lower end of the range is attained: a trace of a single
    non-zero sample has exactly one degree of freedom. *)
Theorem ndf_single_sample (a : R) :
  a ≠ 0 → ndf detrend chop1 [a] None false = Ok (Fin 1).
Proof. apply ndf_singleton_value. Qed.

End DegreesOfFreedomScaling.

Lemma ndf_scale_invariant_witness :
  ndf (λ y : list R, y) core.chop1 ((λ v, 2 * v)%R <$> x_small) None false
  = ndf (λ y : list R, y) core.chop1 x_small None false.
Proof.
  apply (ndf_scale_invariant (λ y : list R, y) core.chop1 x_small 2). lra.
Defined.

Lemma ndf_silent_trace_witness :
  ndf (λ y : list R, y) core.chop1 [0; 0; 0]%R None false = Ok NaN.
Proof.
  apply (ndf_silent_trace (λ y : list R, y) core.chop1 [0; 0; 0]%R);
    [discriminate | by repeat constructor].
Defined.

Lemma ndf_single_sample_witness :
  ndf (λ y : list R, y) core.chop1 [2%R] None false = Ok (Fin 1).
Proof. apply (ndf_single_sample (λ y : list R, y) core.chop1 2). lra. Defined.

Lemma ndf_range_witness :
  (1 <= 1
   <= 3 * INR (length (ndf_input (λ y : list R, y) core.chop1 [2%R] None false)) - 2)%R.
Proof.
  apply (ndf_range (λ y : list R, y) core.chop1 [2%R] None false 1).
  apply ndf_singleton_value. lra.
Defined.

(** ** The confidence threshold above two degrees of freedom *)

Section ConfidenceMore.
Open Scope R_scope.

Lemma fold_left_Rmin_spec (l : list R) (a : R) :
  fold_left Rmin l a ∈ a :: l ∧ ∀ v, v ∈ a :: l → fold_left Rmin l a <= v.
Proof.
  revert a. induction l as [|b l IH]; intros a; simpl.
  - split; [by left|]. intros v [->|?%elem_of_nil]%elem_of_cons; [lra | done].
  - destruct (IH (Rmin a b)) as [Hin Hle]. split.
    + apply elem_of_cons in Hin as [->|Hin]; [|by do 2 right].
      unfold Rmin. destruct (Rle_dec a b); [by left | by right; left].
    + intros v Hv.
      pose proof (Hle (Rmin a b) ltac:(by left)) as Hm.
      pose proof (Rmin_l a b). pose proof (Rmin_r a b).
      apply elem_of_cons in Hv as [->|[->|Hv]%elem_of_cons]; [lra | lra |].
      apply Hle. by right.
Qed.

Lemma np_min_spec (l : list R) (m : R) :
  np_min l = Ok m → m ∈ l ∧ ∀ v, v ∈ l → m <= v.
Proof.
  destruct l as [|a l]; [done|]. intros [= <-]. apply fold_left_Rmin_spec.
Qed.

(** The quantile grows with the probability. *)
Lemma f_ppf2_monotone (q1 q2 dfd : R) :
  0 < dfd → 0 < q1 → q1 <= q2 → q2 < 1 →
  ∃ F1 F2, f_ppf2 q1 dfd = Fin F1 ∧ f_ppf2 q2 dfd = Fin F2 ∧ 0 < F1 <= F2.
Proof.
  intros Hd H1 H12 H2.
  destruct (f_ppf2_pos q1 dfd Hd ltac:(lra)) as (F1 & HF1 & HF1pos).
  rewrite f_ppf2_valid in HF1 by lra. injection HF1 as HF1.
  exists F1, (dfd / 2 * (Rpower (1 - q2) (- 2 / dfd) - 1)).
  rewrite !f_ppf2_valid by lra. rewrite HF1.
  split; [done|]. split; [done|]. split; [done|].
  rewrite <- HF1.
  assert (Rpower (1 - q1) (- 2 / dfd) <= Rpower (1 - q2) (- 2 / dfd)) as Hp.
  { destruct (Req_dec q1 q2) as [->|Hne]; [lra|].
    left. unfold Rpower. apply exp_increasing.
    assert (ln (1 - q2) < ln (1 - q1)) as Hln by (apply ln_increasing; lra).
    assert (0 < 2 / dfd) as He by (apply Rdiv_lt_0_compat; lra).
    replace (- 2 / dfd * ln (1 - q1)) with (- (2 / dfd * ln (1 - q1)))
      by (field; lra).
    replace (- 2 / dfd * ln (1 - q2)) with (- (2 / dfd * ln (1 - q2)))
      by (field; lra).
    nra. }
  assert (0 < dfd / 2) by lra. nra.
Qed.

(** X14: above two degrees of freedom the threshold is ordered as a
    confidence bound should be.  For a surface with a non-negative minimum,
    [ndf > 2] and levels [0 < alpha1 <= alpha2 < 1], both thresholds are
    finite, the threshold is at least the minimum of the surface (itself at
    most every cell), and the smaller [alpha] gives the larger threshold. *)
Theorem ftest_threshold_order (lam2 : list (list R)) (lam2min : R)
    (ndf : scalar) (alpha1 alpha2 : R) :
  np_min (concat lam2) = Ok lam2min → 0 <= lam2min → 2 < scalar_val ndf →
  0 < alpha1 → alpha1 <= alpha2 → alpha2 < 1 →
  ∃ t1 t2,
    ftest lam2 ndf alpha1 = Ok (Fin t1) ∧ ftest lam2 ndf alpha2 = Ok (Fin t2) ∧
    lam2min <= t2 <= t1 ∧
    ∀ i j v, cell lam2 i j = Some v → lam2min <= v.
Proof.
  intros Hmin H0 Hndf Ha1 Ha12 Ha2.
  destruct (f_ppf2_monotone (1 - alpha2) (1 - alpha1) (scalar_val ndf))
    as (F2 & F1 & HF2 & HF1 & HF2pos & HF21); [lra | lra | lra | lra |].
  unfold ftest. rewrite Hmin. cbn [mbind result_bind].
  rewrite HF1, HF2. rewrite div_by_ndf_fin by lra.
  cbn [mbind result_bind xmul xadd].
  eexists _, _. split; [done|]. split; [done|].
  assert (0 < 2 / (scalar_val ndf - 2)) as Hk by (apply Rdiv_lt_0_compat; lra).
  assert (0 <= 2 / (scalar_val ndf - 2) * F2 <= 2 / (scalar_val ndf - 2) * F1)
    as [Hb1 Hb2]
    by (split; [apply Rmult_le_pos | apply Rmult_le_compat_l]; lra).
  split.
  { split.
    - rewrite <- (Rmult_1_r lam2min) at 1. apply Rmult_le_compat_l; lra.
    - apply Rmult_le_compat_l; lra. }
  intros i j v Hc. apply (np_min_spec _ _ Hmin).
  apply elem_of_concat_cell. eauto.
Qed.

Lemma ftest_threshold_order_witness :
  ∃ t1 t2,
    ftest [[1; 2]] (NpFloat 4) (1 / 100) = Ok (Fin t1) ∧
    ftest [[1; 2]] (NpFloat 4) (1 / 20) = Ok (Fin t2) ∧
    1 <= t2 <= t1 ∧
    ∀ i j v, cell [[1; 2]] i j = Some v → 1 <= v.
Proof.
  apply (ftest_threshold_order [[1; 2]] 1 (NpFloat 4) (1 / 100) (1 / 20));
    try (cbn [scalar_val]; lra).
  cbn [concat app np_min fold_left]. f_equal. apply Rmin_left. lra.
Defined.

End ConfidenceMore.

(** ** The configuration of a measurement *)

Section ConfigurationMore.

Lemma np_rint_near (q : Q) :
  (q - (1 # 2) <= inject_Z (np_rint q) ∧ inject_Z (np_rint q) <= q + (1 # 2))%Q.
Proof.
  unfold np_rint.
  pose proof (Qfloor_le q) as Hlo. pose proof (Qlt_floor q) as Hhi.
  rewrite inject_Z_plus in Hhi. change (inject_Z 1) with 1%Q in Hhi.
  destruct (Qcompare_spec (q - inject_Z (Qfloor q)) (1 # 2)) as [He|Hl|Hg];
    [destruct (Z.even (Qfloor q))| |];
    rewrite ?inject_Z_plus; change (inject_Z 1) with 1%Q; lra.
Qed.

Lemma half_lag_time (t delta : Q) :
  (0 < delta)%Q → ((1 # 2) * t / delta * (2 * delta) == t)%Q.
Proof. intros Hd. field. lra. Qed.

(** X15: the candidate delays an [EigenM] derives from the times [tlags] are
    even sample counts in strictly ascending order, and the conversion loses
    at most one sample: every count stands for a requested time no further
    than [delta] from the time [lags * delta] reported for it, and every
    requested time has such a count. *)
Theorem lags_from_tlags_snap (tlags : list Q) (delta : Q) :
  (0 < delta)%Q →
  StronglySorted Z.lt (lags_from_tlags tlags delta) ∧
  (∀ l, l ∈ lags_from_tlags tlags delta →
     Z.even l = true ∧
     ∃ t, t ∈ tlags ∧ (t - delta <= tlag_of_lag l delta <= t + delta)%Q) ∧
  (∀ t, t ∈ tlags →
     ∃ l, l ∈ lags_from_tlags tlags delta ∧
          (t - delta <= tlag_of_lag l delta <= t + delta)%Q).
Proof.
  intros Hd. unfold lags_from_tlags.
  assert (∀ t, (t - delta <= tlag_of_lag (2 * np_rint ((1 # 2) * t / delta)) delta
                <= t + delta)%Q) as Hnear.
  { intros t. unfold tlag_of_lag.
    destruct (np_rint_near ((1 # 2) * t / delta)) as [Hlo Hhi].
    pose proof (half_lag_time t delta Hd) as Ht.
    rewrite inject_Z_mult. change (inject_Z 2) with 2%Q.
    set (r := inject_Z (np_rint ((1 # 2) * t / delta))) in *.
    set (q := ((1 # 2) * t / delta)%Q) in *.
    assert (2 * r * delta == t + (r - q) * (2 * delta))%Q as -> by (rewrite <- Ht; ring).
    split; nra. }
  split; [apply np_unique_sorted|]. split.
  - intros l Hl. apply elem_of_np_unique, list_elem_of_fmap in Hl as (t & -> & Ht).
    split; [by rewrite Z.even_mul|]. by exists t.
  - intros t Ht. exists (2 * np_rint ((1 # 2) * t / delta))%Z. split; [|done].
    apply elem_of_np_unique, list_elem_of_fmap. by exists t.
Qed.

Lemma lags_from_tlags_snap_witness :
  StronglySorted Z.lt (lags_from_tlags [0; 1 # 10; 3 # 10]%Q (1 # 20)) ∧
  (∀ l, l ∈ lags_from_tlags [0; 1 # 10; 3 # 10]%Q (1 # 20) →
     Z.even l = true ∧
     ∃ t, t ∈ [0; 1 # 10; 3 # 10]%Q ∧
          (t - (1 # 20) <= tlag_of_lag l (1 # 20) <= t + (1 # 20))%Q) ∧
  (∀ t, t ∈ [0; 1 # 10; 3 # 10]%Q →
     ∃ l, l ∈ lags_from_tlags [0; 1 # 10; 3 # 10]%Q (1 # 20) ∧
          (t - (1 # 20) <= tlag_of_lag l (1 # 20) <= t + (1 # 20))%Q).
Proof.
  apply (lags_from_tlags_snap [0; 1 # 10; 3 # 10]%Q (1 # 20)). reflexivity.
Defined.

End ConfigurationMore.

(** ** The eigensolver under a change of amplitude or of frame *)

Section EigenSolverFrames.
Open Scope R_scope.

(** Two ordered pairs with the same sum and the same product are equal. *)
Lemma sorted_pair_unique (a2 a1 b2 b1 : R) :
  a2 <= a1 → b2 <= b1 → a1 + a2 = b1 + b2 → a1 * a2 = b1 * b2 →
  a2 = b2 ∧ a1 = b1.
Proof.
  intros Ha Hb Hs Hp.
  assert (a1 - a2 = b1 - b2) as Hd.
  { apply Rsqr_inj; [lra | lra |]. unfold Rsqr.
    replace ((a1 - a2) * (a1 - a2)) with ((a1 + a2) * (a1 + a2) - 4 * (a1 * a2))
      by ring.
    rewrite Hs, Hp. ring. }
  lra.
Qed.

Lemma dot_scale_l (c : R) (X Y : list R) :
  dot ((λ v, c * v) <$> X) Y = c * dot X Y.
Proof. by rewrite dot_comm, dot_scale_r, dot_comm. Qed.

Lemma Rsum_zip_lin (p q : R) (x y : list R) :
  length x = length y →
  Rsum (zip_with (λ a b, p * a + q * b) x y) = p * Rsum x + q * Rsum y.
Proof.
  revert y. induction x as [|a x IH]; intros [|b y] Hl; try done.
  - simpl. lra.
  - cbn [zip_with Rsum foldr]. injection Hl as Hl. specialize (IH y Hl).
    unfold Rsum in IH. rewrite IH. lra.
Qed.

Lemma center_zip_lin (p q : R) (x y : list R) :
  length x = length y →
  center (zip_with (λ a b, p * a + q * b) x y)
  = zip_with (λ a b, p * a + q * b) (center x) (center y).
Proof.
  intros Hl. unfold center.
  rewrite zip_with_fmap_l, zip_with_fmap_r.
  unfold mean. rewrite Rsum_zip_lin by done.
  rewrite length_zip_with, <- Hl, Nat.min_id.
  set (mx := Rsum x / INR (length x)). set (my := Rsum y / INR (length x)).
  assert ((p * Rsum x + q * Rsum y) / INR (length x) = p * mx + q * my) as ->
    by (unfold mx, my, Rdiv; ring).
  clearbody mx my. clear Hl. revert y.
  induction x as [|a x IH]; intros [|b y]; try done.
  cbn [zip_with fmap list_fmap]. f_equal; [ring | apply IH].
Qed.

Lemma dot_zip_lin (p q r t : R) (X Y : list R) :
  length X = length Y →
  dot (zip_with (λ a b, p * a + q * b) X Y) (zip_with (λ a b, r * a + t * b) X Y)
  = p * r * dot X X + (p * t + q * r) * dot X Y + q * t * dot Y Y.
Proof.
  unfold dot. revert Y. induction X as [|a X IH]; intros [|b Y] Hl; try done.
  - simpl. lra.
  - cbn [zip_with Rsum foldr]. injection Hl as Hl. specialize (IH Y Hl).
    unfold Rsum in IH. rewrite IH. ring.
Qed.

(** X17: multiplying both channels by [k] multiplies both eigenvalues by
    [k²], so that the ratio [lam1 / lam2] of a cell does not depend on the
    amplitude of the traces. *)
Theorem eigvalcov_amplitude (x y : list R) (k : R) :
  length x = length y → (2 <= length x)%nat →
  eigvalcov ((λ v, k * v) <$> x, (λ v, k * v) <$> y)
  = fmap (M:=list) (λ v, k * k * v) <$> eigvalcov (x, y).
Proof.
  intros Hl HN.
  destruct (eigvalcov_spec x y Hl HN) as
    (l2 & l1 & -> & H0 & Hle & _ & _ & Hsum & Hprod).
  destruct (eigvalcov_spec ((λ v, k * v) <$> x) ((λ v, k * v) <$> y)) as
    (m2 & m1 & -> & _ & Hle' & _ & _ & Hsum' & Hprod');
    [by rewrite !length_fmap | by rewrite length_fmap |].
  unfold np_cov in Hsum, Hprod, Hsum', Hprod'.
  cbn [fst snd] in Hsum, Hprod, Hsum', Hprod'.
  rewrite !center_scale, length_fmap in Hsum', Hprod'.
  rewrite !dot_scale_l, !dot_scale_r in Hsum'.
  rewrite !dot_scale_l, !dot_scale_r in Hprod'.
  set (f := INR (length x) - 1) in *.
  set (A := dot (center x) (center x)) in *.
  set (B := dot (center x) (center y)) in *.
  set (B' := dot (center y) (center x)) in *.
  set (D := dot (center y) (center y)) in *.
  assert (0 <= k * k) as Hk by nra.
  destruct (sorted_pair_unique m2 m1 (k * k * l2) (k * k * l1)) as [-> ->];
    [done | nra | | | done].
  - rewrite Hsum'.
    replace (k * k * l1 + k * k * l2) with (k * k * (l1 + l2)) by ring.
    rewrite Hsum. unfold Rdiv. ring.
  - rewrite Hprod'.
    replace (k * k * l1 * (k * k * l2)) with (k * k * k * k * (l1 * l2)) by ring.
    rewrite Hprod. unfold Rdiv. ring.
Qed.

Lemma eigvalcov_amplitude_witness :
  eigvalcov ((λ v, 3 * v) <$> x_small, (λ v, 3 * v) <$> y_small)
  = fmap (M:=list) (λ v, 3 * 3 * v) <$> eigvalcov (x_small, y_small).
Proof.
  apply (eigvalcov_amplitude x_small y_small 3); [reflexivity | simpl; lia].
Defined.

(** X18: the eigenvalues do not depend on the frame: turning the pair by any
    angle, [c] its cosine and [s] its sine, leaves both unchanged.  Without
    a delay and a correction, every candidate angle of the search therefore
    measures the same two eigenvalues. *)
Theorem eigvalcov_frame_invariant (x y : list R) (c s : R) :
  length x = length y → (2 <= length x)%nat → c * c + s * s = 1 →
  eigvalcov (zip_with (λ a b, c * a + s * b) x y,
             zip_with (λ a b, (- s) * a + c * b) x y)
  = eigvalcov (x, y).
Proof.
  intros Hl HN Hcs.
  assert (length (center x) = length (center y)) as Hlc
    by (unfold center; by rewrite !length_fmap).
  destruct (eigvalcov_spec x y Hl HN) as
    (l2 & l1 & -> & H0 & Hle & _ & _ & Hsum & Hprod).
  destruct (eigvalcov_spec (zip_with (λ a b, c * a + s * b) x y)
                           (zip_with (λ a b, (- s) * a + c * b) x y)) as
    (m2 & m1 & -> & _ & Hle' & _ & _ & Hsum' & Hprod').
  { rewrite !length_zip_with. lia. }
  { rewrite length_zip_with. lia. }
  unfold np_cov in Hsum, Hprod, Hsum', Hprod'.
  cbn [fst snd] in Hsum, Hprod, Hsum', Hprod'.
  rewrite !center_zip_lin in Hsum', Hprod' by done.
  repeat (rewrite dot_zip_lin in Hsum' by done).
  repeat (rewrite dot_zip_lin in Hprod' by done).
  rewrite length_zip_with, <- Hl, Nat.min_id in Hsum', Hprod'.
  rewrite (dot_comm (center y) (center x)) in Hprod.
  set (f := INR (length x) - 1) in *.
  set (A := dot (center x) (center x)) in *.
  set (B := dot (center x) (center y)) in *.
  set (D := dot (center y) (center y)) in *.
  assert (s * s = 1 - c * c) as Hs2 by lra.
  destruct (sorted_pair_unique m2 m1 l2 l1) as [-> ->]; [done | done | | | done].
  - rewrite Hsum', Hsum. unfold Rdiv.
    replace ((c * c * A + (c * s + s * c) * B + s * s * D) * / f
             + (- s * - s * A + (- s * c + c * - s) * B + c * c * D) * / f)
      with ((c * c + s * s) * (A * / f + D * / f)) by ring.
    rewrite Hcs. ring.
  - rewrite Hprod', Hprod. unfold Rdiv.
    transitivity ((c * c + s * s) * (c * c + s * s)
                  * (A * / f * (D * / f) - B * / f * (B * / f)));
      [ring | rewrite Hcs; ring].
Qed.

Lemma eigvalcov_frame_invariant_witness :
  eigvalcov (zip_with (λ a b, 3 / 5 * a + 4 / 5 * b) x_small y_small,
             zip_with (λ a b, (- (4 / 5)) * a + 3 / 5 * b) x_small y_small)
  = eigvalcov (x_small, y_small).
Proof.
  apply (eigvalcov_frame_invariant x_small y_small (3 / 5) (4 / 5));
    [reflexivity | simpl; lia | lra].
Defined.

End EigenSolverFrames.

(** ** The profiles and the diagnostic NI *)

Section ProfilesMore.
Open Scope R_scope.

Lemma Rsum_sqr_zero (l : list R) :
  Rsum ((λ d, d * d) <$> l) = 0 ↔ Forall (λ v, v = 0) l.
Proof.
  induction l as [|a l IH].
  - split; [by constructor | done].
  - rewrite fmap_cons. cbn [Rsum foldr].
    pose proof (Rsum_nonneg _ (fmap_sqr_nonneg l)) as Hnn. unfold Rsum in Hnn, IH.
    split.
    + intros Hs. assert (a * a = 0) as Ha by nra.
      constructor; [nra|]. apply IH. lra.
    + intros [-> Hl]%Forall_cons. apply IH in Hl. lra.
Qed.

Lemma zip_with_Rminus_zero (p q : list R) :
  length p = length q →
  Forall (λ v, v = 0) (zip_with Rminus p q) ↔ p = q.
Proof.
  revert q. induction p as [|a p IH]; intros [|b q] Hl; try done.
  injection Hl as Hl. cbn [zip_with]. rewrite Forall_cons, (IH q Hl). split.
  - intros [Hab ->]. f_equal. lra.
  - intros [= -> ->]. split; [lra | done].
Qed.

Lemma sqdiff_scale (k : R) (p q : list R) :
  Rsum ((λ d, d * d) <$> zip_with Rminus ((λ v, k * v) <$> p) ((λ v, k * v) <$> q))
  = k * k * Rsum ((λ d, d * d) <$> zip_with Rminus p q).
Proof.
  revert q. induction p as [|a p IH]; intros [|b q]; try (simpl; lra).
  rewrite !fmap_cons. cbn [zip_with]. rewrite !fmap_cons. cbn [Rsum foldr].
  specialize (IH q). unfold Rsum in IH. rewrite IH. ring.
Qed.

(** NI of a finite, positive profile, in real numbers. *)
Lemma ni_fin {A} (degs : list (list A)) (p : list R) :
  p ≠ [] → Forall (λ v, 0 < v) p →
  ni degs (Fin <$> p)
  = Fin (Rsum ((λ d, d * d) <$> zip_with Rminus p (np_roll p (ncols degs / 2)))
         / dot p (np_roll p (ncols degs / 2)))
  ∧ 0 < dot p (np_roll p (ncols degs / 2)).
Proof.
  intros Hne Hpos. set (q := np_roll p (ncols degs / 2)).
  assert (Forall (λ v, 0 < v) q) as Hqpos by (by apply np_roll_Forall).
  assert (length q = length p) as Hqlen by apply np_roll_length.
  assert (0 < dot p q) as Hden.
  { apply Rsum_pos; [|by apply zip_with_mult_pos].
    intros Hz. apply (f_equal length) in Hz. rewrite length_zip_with in Hz.
    destruct p; [done|]. simpl in Hz, Hqlen. rewrite Hqlen in Hz. simpl in Hz. lia. }
  split; [|done]. unfold ni. rewrite np_roll_fmap. fold q.
  rewrite (zip_with_fin Rmult xmul) by done.
  rewrite (zip_with_fin Rminus xsub) by done.
  rewrite <- list_fmap_compose.
  rewrite (list_fmap_ext _ (Fin ∘ (λ d, d * d)) (zip_with Rminus p q)) by done.
  rewrite list_fmap_compose, !np_sum_fin. apply xdiv_fin.
  apply Rgt_not_eq. exact Hden.
Qed.

(** X19: NI is zero exactly for a profile that repeats after half the range
    of candidate angles: one that the roll by half its columns leaves
    unchanged. *)
Theorem ni_zero_iff_half_periodic {A} (degs : list (list A)) (p : list R) :
  p ≠ [] → Forall (λ v, 0 < v) p →
  ni degs (Fin <$> p) = Fin 0 ↔ np_roll p (ncols degs / 2) = p.
Proof.
  intros Hne Hpos. destruct (ni_fin degs p Hne Hpos) as [-> Hden].
  set (q := np_roll p (ncols degs / 2)) in *.
  assert (length p = length q) as Hlen by (symmetry; apply np_roll_length).
  pose proof (Rsum_nonneg _ (fmap_sqr_nonneg (zip_with Rminus p q))) as Hnn.
  split.
  - intros [= Hz]. symmetry. apply zip_with_Rminus_zero; [done|].
    apply Rsum_sqr_zero.
    set (num := Rsum ((λ d, d * d) <$> zip_with Rminus p q)) in *.
    destruct (Req_dec num 0) as [|Hnz]; [done|].
    assert (0 < num / dot p q) by (apply Rdiv_lt_0_compat; lra). lra.
  - intros Hq. f_equal.
    assert (Rsum ((λ d, d * d) <$> zip_with Rminus p q) = 0) as ->.
    { apply Rsum_sqr_zero, zip_with_Rminus_zero; done. }
    unfold Rdiv. ring.
Qed.

Lemma ni_zero_iff_half_periodic_witness :
  ni [[0; 45; 90; 135]] (Fin <$> [2; 3; 2; 3]) = Fin 0
  ↔ np_roll [2; 3; 2; 3] (ncols [[0; 45; 90; 135]] / 2) = [2; 3; 2; 3].
Proof.
  apply (ni_zero_iff_half_periodic [[0; 45; 90; 135]] [2; 3; 2; 3]); [done|].
  repeat constructor; lra.
Defined.

(** X20: NI does not depend on the scale of the profile: multiplying every
    entry by [k > 0] leaves it unchanged. *)
Theorem ni_scale_invariant {A} (degs : list (list A)) (p : list R) (k : R) :
  p ≠ [] → Forall (λ v, 0 < v) p → 0 < k →
  ni degs (Fin <$> ((λ v, k * v) <$> p)) = ni degs (Fin <$> p).
Proof.
  intros Hne Hpos Hk.
  destruct (ni_fin degs p Hne Hpos) as [-> Hden].
  destruct (ni_fin degs ((λ v, k * v) <$> p)) as [-> _].
  { by destruct p. }
  { apply Forall_fmap. eapply Forall_impl; [done|]. simpl. intros. nra. }
  rewrite np_roll_fmap, sqdiff_scale, dot_scale_l, dot_scale_r.
  f_equal. field. lra.
Qed.

Lemma ni_scale_invariant_witness :
  ni [[0; 90]] (Fin <$> ((λ v, 4 * v) <$> [2; 3])) = ni [[0; 90]] (Fin <$> [2; 3]).
Proof.
  apply (ni_scale_invariant [[0; 90]] [2; 3] 4); [done | | lra].
  repeat constructor; lra.
Defined.

Lemma Rsum_zip_plus (r acc : list R) :
  length r = length acc → Rsum (zip_with Rplus r acc) = Rsum r + Rsum acc.
Proof.
  revert acc. induction r as [|a r IH]; intros [|b acc] Hl; try done.
  - simpl. lra.
  - cbn [zip_with Rsum foldr]. injection Hl as Hl. specialize (IH acc Hl).
    unfold Rsum in IH. rewrite IH. lra.
Qed.

Lemma Rsum_replicate_zero (n : nat) : Rsum (replicate n 0) = 0.
Proof.
  induction n as [|n IH]; [done|].
  cbn [replicate Rsum foldr]. unfold Rsum in IH. rewrite IH. lra.
Qed.

Lemma colsum_total (nd : nat) (rr : list (list R)) :
  Forall (λ r, length r = nd) rr →
  length (foldr (zip_with Rplus) (replicate nd 0) rr) = nd ∧
  Rsum (foldr (zip_with Rplus) (replicate nd 0) rr) = Rsum (Rsum <$> rr).
Proof.
  induction 1 as [|r rr Hr _ [IHl IHs]].
  - simpl. split; [apply length_replicate | apply Rsum_replicate_zero].
  - rewrite fmap_cons. cbn [foldr]. split.
    + rewrite length_zip_with. lia.
    + rewrite Rsum_zip_plus by lia. rewrite IHs. done.
Qed.

Lemma colsum_ge (nd : nat) (rr : list (list R)) :
  Forall (λ r, length r = nd) rr → Forall (Forall (λ v, 1 <= v)) rr →
  Forall (λ v, INR (length rr) <= v) (foldr (zip_with Rplus) (replicate nd 0) rr).
Proof.
  intros Hlen Hge. induction rr as [|r rr IH].
  - simpl. apply Forall_replicate. lra.
  - apply Forall_cons in Hlen as [Hr Hlen]. apply Forall_cons in Hge as [Hg Hge].
    specialize (IH Hlen Hge).
    destruct (colsum_total nd rr Hlen) as [Hl _].
    change (length (r :: rr)) with (S (length rr)). rewrite S_INR.
    cbn [foldr]. revert Hl IH.
    generalize (foldr (zip_with Rplus) (replicate nd 0) rr). intros acc Hl Hacc.
    subst nd. clear Hlen Hge. revert acc Hl Hacc.
    induction Hg as [|a r Ha _ IHr]; intros [|b acc] Hl Hacc; try done.
    apply Forall_cons in Hacc as [Hb Hacc]. cbn [zip_with].
    constructor; [lra|]. apply IHr; [by injection Hl | done].
Qed.

Lemma Rsum_ge (l : list R) : Forall (λ v, 1 <= v) l → INR (length l) <= Rsum l.
Proof.
  induction 1 as [|a l Ha _ IH]; [simpl; lra|].
  change (length (a :: l)) with (S (length l)). rewrite S_INR.
  cbn [Rsum foldr]. unfold Rsum in IH. lra.
Qed.

(** X21: the two profiles of a measurement.  On surfaces of [nl] delays by
    [nd] angles with [0 < lam2 <= lam1] in every cell, the angle profile has
    one finite entry for each angle, each at least [nl], the delay profile
    one finite entry for each delay, each at least [nd], and both profiles
    have the same total. *)
Theorem profiles_total (lam1 lam2 : list (list R)) (nl nd : nat) :
  (0 < nl)%nat →
  has_shape lam1 nl nd → has_shape lam2 nl nd →
  (∀ i j u v, cell lam1 i j = Some u → cell lam2 i j = Some v → 0 < v <= u) →
  ∃ pf pl : list R,
    fastprofile lam1 lam2 = Fin <$> pf ∧ lagprofile lam1 lam2 = Fin <$> pl ∧
    length pf = nd ∧ length pl = nl ∧
    Forall (λ v, INR nl <= v) pf ∧ Forall (λ v, INR nd <= v) pl ∧
    np_sum (fastprofile lam1 lam2) = np_sum (lagprofile lam1 lam2).
Proof.
  intros Hnl Hs1 Hs2 Hcells.
  pose proof (has_shape_map2d (λ u v, xdiv (Fin u) (Fin v)) _ _ _ _ Hs1 Hs2)
    as [Hlen Hrows].
  fold (ratio lam1 lam2) in Hlen, Hrows.
  destruct (Forall_rows_fin_fmap (λ v, 1 <= v) (ratio lam1 lam2))
    as (rr & Hrr & Hrrge).
  { apply Forall_lookup. intros i row Hrow. apply Forall_lookup. intros j r Hr.
    assert (cell (ratio lam1 lam2) i j = Some r) as Hc
      by (unfold cell; by rewrite Hrow).
    apply cell_map2d_Some in Hc as (u & v & Hu & Hv & ->).
    destruct (Hcells i j u v Hu Hv) as [Hv0 Hvu].
    exists (u / v). rewrite xdiv_fin by lra. split; [done|].
    apply (Rmult_le_reg_r v); [done|].
    replace (u / v * v) with u by (field; lra). lra. }
  assert (length rr = nl) as Hrrlen by (rewrite Hrr, length_fmap in Hlen; done).
  assert (Forall (λ r, length r = nd) rr) as Hrrrows.
  { rewrite Hrr in Hrows. apply Forall_fmap in Hrows.
    eapply Forall_impl; [exact Hrows|]. simpl. intros r Hr.
    by rewrite length_fmap in Hr. }
  destruct (colsum_total nd rr Hrrrows) as [Hpflen Htotal].
  pose proof (colsum_ge nd rr Hrrrows Hrrge) as Hpfge. rewrite Hrrlen in Hpfge.
  set (pf := foldr (zip_with Rplus) (replicate nd 0) rr) in *.
  assert (fastprofile lam1 lam2 = Fin <$> pf) as Hfast.
  { unfold fastprofile, sum_axis0. rewrite Hrr.
    assert (ncols (fmap (M:=list) Fin <$> rr) = nd) as ->.
    { destruct rr as [|r rr']; [simpl in Hrrlen; lia|]. simpl.
      rewrite length_fmap. by apply Forall_cons in Hrrrows as [-> _]. }
    replace (replicate nd (Fin 0)) with (Fin <$> replicate nd 0)
      by apply fmap_replicate.
    apply colsum_fin. }
  assert (lagprofile lam1 lam2 = Fin <$> (Rsum <$> rr)) as Hlag.
  { unfold lagprofile, sum_axis1. rewrite Hrr, <- !list_fmap_compose.
    apply list_fmap_ext. intros _ r _. cbn [compose]. apply np_sum_fin. }
  exists pf, (Rsum <$> rr).
  split; [done|]. split; [done|]. split; [done|].
  split; [by rewrite length_fmap|]. split; [done|]. split.
  - apply Forall_fmap, Forall_forall. intros r Hr. cbn [compose].
    rewrite Forall_forall in Hrrrows, Hrrge.
    rewrite <- (Hrrrows r Hr). apply Rsum_ge. by apply Hrrge.
  - by rewrite Hfast, Hlag, !np_sum_fin, Htotal.
Qed.

Lemma profiles_total_witness :
  ∃ pf pl : list R,
    fastprofile [[2; 3]; [4; 1]] [[1; 1]; [2; 1]] = Fin <$> pf ∧
    lagprofile [[2; 3]; [4; 1]] [[1; 1]; [2; 1]] = Fin <$> pl ∧
    length pf = 2%nat ∧ length pl = 2%nat ∧
    Forall (λ v, INR 2 <= v) pf ∧ Forall (λ v, INR 2 <= v) pl ∧
    np_sum (fastprofile [[2; 3]; [4; 1]] [[1; 1]; [2; 1]])
    = np_sum (lagprofile [[2; 3]; [4; 1]] [[1; 1]; [2; 1]]).
Proof.
  apply (profiles_total [[2; 3]; [4; 1]] [[1; 1]; [2; 1]] 2 2).
  - lia.
  - split; [done | by repeat constructor].
  - split; [done | by repeat constructor].
  - intros [|[|i]] [|[|j]] u v; cbn; intros [= <-] [= <-]; lra.
Defined.

End ProfilesMore.

(** ** The signal-to-noise estimate on ordered eigenvalues *)

Section SignalToNoiseMore.
Open Scope R_scope.

Lemma has_shape_cell {A} (a : list (list A)) (nr nc i j : nat) :
  has_shape a nr nc → (i < nr)%nat → (j < nc)%nat → ∃ v, cell a i j = Some v.
Proof.
  intros [Hl Hr] Hi Hj. unfold cell.
  destruct (lookup_lt_is_Some_2 a i ltac:(lia)) as [row Hrow]. rewrite Hrow.
  rewrite Forall_lookup in Hr. specialize (Hr i row Hrow).
  destruct (lookup_lt_is_Some_2 row j ltac:(lia)) as [v Hv]. by exists v.
Qed.

(** X22: on surfaces of at least one cell with [0 < lam2 <= lam1] in every
    cell, as the eigensolver orders them, the estimate
    [np.max((lam1 - lam2) / (2 lam2))] is a finite number that is not
    negative, no cell exceeds it, and it is zero exactly when the two
    eigenvalues are equal in every cell. *)
Theorem snr_nonneg (lam1 lam2 : list (list R)) (nl nd : nat) :
  (0 < nl)%nat → (0 < nd)%nat →
  has_shape lam1 nl nd → has_shape lam2 nl nd →
  (∀ i j u v, cell lam1 i j = Some u → cell lam2 i j = Some v → 0 < v <= u) →
  ∃ s, snr lam1 lam2 = Ok (Fin s) ∧ 0 <= s ∧
    (∀ i j u v, cell lam1 i j = Some u → cell lam2 i j = Some v →
       (u - v) / (2 * v) <= s) ∧
    (s = 0 ↔ ∀ i j u v, cell lam1 i j = Some u → cell lam2 i j = Some v → u = v).
Proof.
  intros Hnl Hnd Hs1 Hs2 Hcells.
  assert (∀ x, x ∈ concat (snr_surface lam1 lam2) ↔
            ∃ i j u v, cell lam1 i j = Some u ∧ cell lam2 i j = Some v ∧
                       x = Fin ((u - v) / (2 * v))) as Hmem.
  { intros x. rewrite elem_of_concat_cell. split.
    - intros (i & j & Hc). apply cell_map2d_Some in Hc as (u & v & Hu & Hv & ->).
      exists i, j, u, v. split; [done|]. split; [done|].
      destruct (Hcells i j u v Hu Hv). apply xdiv_fin. lra.
    - intros (i & j & u & v & Hu & Hv & ->). exists i, j.
      apply cell_map2d_Some. exists u, v. split; [done|]. split; [done|].
      destruct (Hcells i j u v Hu Hv). symmetry. apply xdiv_fin. lra. }
  assert (∀ i j u v, cell lam1 i j = Some u → cell lam2 i j = Some v →
            0 <= (u - v) / (2 * v)) as Hge.
  { intros i j u v Hu Hv. destruct (Hcells i j u v Hu Hv).
    apply Rmult_le_pos; [lra|]. left. apply Rinv_0_lt_compat. lra. }
  destruct (np_max_fin (concat (snr_surface lam1 lam2))) as (s & Hs & Hin & Hmax).
  { destruct (has_shape_cell lam1 nl nd 0 0 Hs1 Hnl Hnd) as [u Hu].
    destruct (has_shape_cell lam2 nl nd 0 0 Hs2 Hnl Hnd) as [v Hv].
    intros Hnil.
    assert (Fin ((u - v) / (2 * v)) ∈ concat (snr_surface lam1 lam2)) as Hx
      by (apply Hmem; by exists 0%nat, 0%nat, u, v).
    rewrite Hnil in Hx. by apply elem_of_nil in Hx. }
  { apply Forall_forall. intros x (i & j & u & v & _ & _ & ->)%Hmem. by eexists. }
  apply Hmem in Hin as (i0 & j0 & u0 & v0 & Hu0 & Hv0 & [= Hs0]).
  exists s. split; [exact Hs|]. split; [rewrite Hs0; by eapply Hge|].
  split.
  { intros i j u v Hu Hv. apply Hmax, Hmem. by exists i, j, u, v. }
  split.
  - intros Hz i j u v Hu Hv.
    assert ((u - v) / (2 * v) <= 0) as Hle.
    { rewrite <- Hz. apply Hmax, Hmem. by exists i, j, u, v. }
    pose proof (Hge i j u v Hu Hv) as Hge'.
    destruct (Hcells i j u v Hu Hv) as [Hv0' _].
    assert ((u - v) / (2 * v) * (2 * v) = u - v) as Hmul by (field; lra).
    assert ((u - v) / (2 * v) = 0) as Hq by lra.
    rewrite Hq in Hmul. lra.
  - intros Heq. rewrite Hs0, (Heq i0 j0 u0 v0 Hu0 Hv0).
    unfold Rdiv. ring.
Qed.

Lemma snr_nonneg_witness :
  ∃ s, snr [[2; 3]] [[1; 1]] = Ok (Fin s) ∧ 0 <= s ∧
    (∀ i j u v, cell [[2; 3]] i j = Some u → cell [[1; 1]] i j = Some v →
       (u - v) / (2 * v) <= s) ∧
    (s = 0 ↔ ∀ i j u v, cell [[2; 3]] i j = Some u → cell [[1; 1]] i j = Some v →
               u = v).
Proof.
  apply (snr_nonneg [[2; 3]] [[1; 1]] 1 2).
  - lia.
  - lia.
  - split; [done | by repeat constructor].
  - split; [done | by repeat constructor].
  - intros [|i] [|[|j]] u v; cbn; intros [= <-] [= <-]; lra.
Defined.

End SignalToNoiseMore.

(** ** The polar surface *)

Section PolarMore.
Open Scope R_scope.

Lemma col0_spec {A} (a : list (list A)) (nr nc : nat) :
  (0 < nr)%nat → (0 < nc)%nat → has_shape a nr nc →
  ∃ c, col0 a = Ok c ∧ length c = nr ∧ ∀ i, c !! i = cell a i 0.
Proof.
  intros Hnr Hnc [Hl Hr].
  assert (∃ c, foldr (λ row acc,
               match row with
               | [] => Raise IndexError
               | v :: _ => l ← acc; Ok (v :: l)
               end) (Ok []) a = Ok c ∧ length c = length a
               ∧ ∀ i, c !! i = cell a i 0) as (c & Hc & Hlen & Hcell).
  { clear Hl Hnr. induction Hr as [|row a Hrow _ (c & IH & IHl & IHc)].
    - exists []. split; [done|]. split; [done|]. by intros [|i].
    - destruct row as [|v row]; [simpl in Hrow; lia|].
      exists (v :: c). cbn [foldr]. rewrite IH. split; [done|].
      split; [simpl; lia|]. intros [|i]; [done|]. apply IHc. }
  exists c. split; [|split; [lia | done]].
  destruct a; [simpl in Hl; lia | done].
Qed.

Lemma column_stack3_spec {A} (a b : list (list A)) (c : list A) (nr nc : nat) :
  has_shape a nr nc → has_shape b nr nc → length c = nr →
  ∃ s, column_stack3 a b c = Ok s ∧ has_shape s nr (2 * nc + 1) ∧
    ∀ i, (i < nr)%nat →
      cell s i (2 * nc) = c !! i ∧
      ∀ j, (j < nc)%nat →
        cell s i j = cell a i j ∧ cell s i (nc + j) = cell b i j.
Proof.
  intros [Hla Hra] [Hlb Hrb] Hlc. unfold column_stack3.
  rewrite decide_True by lia. eexists. split; [done|].
  rewrite Forall_lookup in Hra. rewrite Forall_lookup in Hrb.
  split; [split|].
  - rewrite !length_zip_with. lia.
  - apply Forall_lookup. intros i row Hrow.
    rewrite lookup_zip_with in Hrow.
    destruct (zip_with app a b !! i) as [rab|] eqn:Hab; [|done].
    destruct (c !! i) as [x|]; [|done]. injection Hrow as <-.
    rewrite lookup_zip_with in Hab.
    destruct (a !! i) as [ra|] eqn:Ha; [|done].
    destruct (b !! i) as [rb|] eqn:Hb; [|done]. injection Hab as <-.
    rewrite !length_app, (Hra i ra Ha), (Hrb i rb Hb). simpl. lia.
  - intros i Hi. unfold cell. rewrite !lookup_zip_with.
    destruct (lookup_lt_is_Some_2 a i ltac:(lia)) as [ra Ha].
    destruct (lookup_lt_is_Some_2 b i ltac:(lia)) as [rb Hb].
    destruct (lookup_lt_is_Some_2 c i ltac:(lia)) as [x Hx].
    rewrite Ha, Hb, Hx. cbn [mbind option_bind].
    pose proof (Hra i ra Ha) as Hlra. pose proof (Hrb i rb Hb) as Hlrb.
    split.
    + rewrite lookup_app_r by (rewrite length_app; lia).
      rewrite length_app, Hlra, Hlrb.
      by replace (2 * nc - (nc + nc))%nat with 0%nat by lia.
    + intros j Hj. split.
      * rewrite lookup_app_l by (rewrite length_app; lia).
        by rewrite lookup_app_l by lia.
      * rewrite lookup_app_l by (rewrite length_app; lia).
        rewrite lookup_app_r by lia. rewrite Hlra.
        by replace (nc + j - nc)%nat with j by lia.
Qed.

Lemma has_shape_fmap {A B} (f : A → B) (a : list (list A)) (nr nc : nat) :
  has_shape a nr nc → has_shape (fmap (M:=list) f <$> a) nr nc.
Proof.
  intros [Hl Hr]. split; [by rewrite length_fmap|].
  apply Forall_fmap. eapply Forall_impl; [done|].
  intros row Hrow. cbn [compose]. by rewrite length_fmap.
Qed.

Lemma cell_fmap {A B} (f : A → B) (a : list (list A)) (i j : nat) :
  cell (fmap (M:=list) f <$> a) i j = f <$> cell a i j.
Proof.
  unfold cell. rewrite list_lookup_fmap.
  destruct (a !! i) as [row|]; [|done]. cbn. apply list_lookup_fmap.
Qed.

Lemma deg2rad_half_turn (d : R) : deg2rad (d + 180) = deg2rad d + PI.
Proof. unfold deg2rad. field. Qed.

Lemma deg2rad_full_turn (d : R) : deg2rad (d + 360) = deg2rad d + 2 * PI.
Proof. unfold deg2rad. field. Qed.

(** X23: the arrays [plotsurf] draws in polar mode.  For a grid of [nl]
    delays by [nd] angles, the angles and the surface are both extended to
    [nl] rows of [2 nd + 1] columns; the second half repeats the first half
    of the surface half a turn further, and the last column repeats the
    first column a full turn further, so that the drawn surface has period
    180 degrees and closes on itself. *)
Theorem plotsurf_polar_periodic {A} (degs : list (list R)) (vals : list (list A))
    (nl nd : nat) :
  (0 < nl)%nat → (0 < nd)%nat →
  has_shape degs nl nd → has_shape vals nl nd →
  ∃ rads pvals,
    polar_rads degs = Ok rads ∧ polar_stack vals = Ok pvals ∧
    has_shape rads nl (2 * nd + 1) ∧ has_shape pvals nl (2 * nd + 1) ∧
    ∀ i j d v, cell degs i j = Some d → cell vals i j = Some v →
      cell rads i j = Some (deg2rad d) ∧ cell pvals i j = Some v ∧
      cell rads i (nd + j) = Some (deg2rad d + PI) ∧
      cell pvals i (nd + j) = Some v ∧
      (j = 0%nat →
         cell rads i (2 * nd) = Some (deg2rad d + 2 * PI) ∧
         cell pvals i (2 * nd) = Some v).
Proof.
  intros Hnl Hnd Hsd Hsv.
  destruct (col0_spec degs nl nd Hnl Hnd Hsd) as (cd & Hcd & Hcdl & Hcdc).
  destruct (col0_spec vals nl nd Hnl Hnd Hsv) as (cv & Hcv & Hcvl & Hcvc).
  destruct (column_stack3_spec degs (fmap (M:=list) (λ d, d + 180) <$> degs)
              ((λ d, d + 360) <$> cd) nl nd)
    as (sd & Hsd' & Hshd & Hcelld);
    [done | by apply has_shape_fmap | by rewrite length_fmap |].
  destruct (column_stack3_spec vals vals cv nl nd)
    as (sv & Hsv' & Hshv & Hcellv); [done | done | done |].
  exists (fmap (M:=list) deg2rad <$> sd), sv.
  split. { unfold polar_rads. rewrite Hcd. cbn [mbind result_bind]. by rewrite Hsd'. }
  split. { unfold polar_stack. rewrite Hcv. done. }
  split; [by apply has_shape_fmap|]. split; [done|].
  intros i j d v Hd Hv.
  destruct (cell_Some_lt _ _ _ _ _ _ Hsd Hd) as [Hi Hj].
  destruct (Hcelld i Hi) as [Hlastd Hrestd].
  destruct (Hcellv i Hi) as [Hlastv Hrestv].
  destruct (Hrestd j Hj) as [Hd1 Hd2]. destruct (Hrestv j Hj) as [Hv1 Hv2].
  rewrite !cell_fmap, Hd1, Hd2, Hv1, Hv2, cell_fmap, Hd, Hv.
  cbn [fmap option_fmap option_map]. rewrite deg2rad_half_turn.
  do 4 (split; [done|]). intros ->.
  rewrite Hlastd, Hlastv, list_lookup_fmap, Hcdc, Hcvc, Hd, Hv.
  cbn [fmap option_fmap option_map]. by rewrite deg2rad_full_turn.
Qed.

Lemma plotsurf_polar_periodic_witness :
  ∃ rads pvals,
    polar_rads [[-90; 0]; [-90; 0]] = Ok rads ∧
    polar_stack [[1%Z; 2%Z]; [3%Z; 4%Z]] = Ok pvals ∧
    has_shape rads 2 (2 * 2 + 1) ∧ has_shape pvals 2 (2 * 2 + 1) ∧
    ∀ i j d v, cell [[-90; 0]; [-90; 0]] i j = Some d →
               cell [[1%Z; 2%Z]; [3%Z; 4%Z]] i j = Some v →
      cell rads i j = Some (deg2rad d) ∧ cell pvals i j = Some v ∧
      cell rads i (2 + j) = Some (deg2rad d + PI) ∧
      cell pvals i (2 + j) = Some v ∧
      (j = 0%nat →
         cell rads i (2 * 2) = Some (deg2rad d + 2 * PI) ∧
         cell pvals i (2 * 2) = Some v).
Proof.
  apply (plotsurf_polar_periodic [[-90; 0]; [-90; 0]] [[1%Z; 2%Z]; [3%Z; 4%Z]] 2 2).
  - lia.
  - lia.
  - split; [done | by repeat constructor].
  - split; [done | by repeat constructor].
Defined.

End PolarMore.
